(** * move-files.py: moving TypeScript sources and rewriting relative imports

    A shallow embedding of [src/move-files.py] and of the parts of the Python
    standard library it calls ([os.path] in its POSIX flavour [posixpath],
    [str] methods, the two anchored [re.sub] calls and the import pattern).

    Conventions
    - a Python [str] is a [list ascii]; string literals are coerced;
    - [os.path] is [posixpath]: the separator is [/], a backslash is an
      ordinary character of a file name;
    - the process' working directory, which [os.path.relpath] consults for
      relative arguments, is an explicit argument [cwd];
    - a [dict] that is only looked up, measured and sorted ([moves]) is a
      [gmap]; a [dict] that is iterated in insertion order ([moves_raw],
      [updates]) is an association list with Python's update-in-place. *)

From Stdlib Require Import Ascii String DecimalString.
From stdpp Require Import gmap strings list sorting.

Open Scope string_scope.
Open Scope list_scope.

Abbreviation str := (list ascii).

Coercion list_ascii_of_string : string >-> list.

(** ** Python [str] operations *)

Module Py.

Definition eqc (a b : ascii) : bool := Ascii.eqb a b.

Definition str_eqb (a b : str) : bool := bool_decide (a = b).

(** [s.startswith(p)] *)
Fixpoint startswith (s p : str) {struct p} : bool :=
  match p with
  | [] => true
  | a :: p' =>
      match s with
      | [] => false
      | b :: s' => eqc a b && startswith s' p'
      end
  end.

(** [s.endswith(p)] *)
Definition endswith (s p : str) : bool := startswith (rev s) (rev p).

(** [s.split(sep)] for a one-character separator: always at least one
    field, empty fields are kept. *)
Fixpoint split (sep : ascii) (s : str) : list str :=
  match s with
  | [] => [[]]
  | c :: s' =>
      if eqc c sep then [] :: split sep s'
      else match split sep s' with
           | [] => [[c]]
           | w :: ws => (c :: w) :: ws
           end
  end.

(** [sep.join(l)] *)
Fixpoint join (sep : str) (l : list str) : str :=
  match l with
  | [] => []
  | [x] => x
  | x :: l' => x ++ sep ++ join sep l'
  end.

Fixpoint dropwhile (f : ascii -> bool) (s : str) : str :=
  match s with
  | [] => []
  | c :: s' => if f c then dropwhile f s' else s
  end.

(** [s.rstrip(c)] for a one-character set *)
Definition rstrip (c : ascii) (s : str) : str :=
  rev (dropwhile (fun x => eqc x c) (rev s)).

(** [s.replace(old, new)]: every non-overlapping occurrence of [old],
    scanning from the left.  [skip] counts the characters of an occurrence
    that has just been replaced and are still to be passed over.  For the
    empty [old] Python puts [new] before every character and at the end. *)
Fixpoint replace_go (old new : str) (skip : nat) (s : str) : str :=
  match s with
  | [] => []
  | c :: s' =>
      match skip with
      | S k => replace_go old new k s'
      | O => if startswith s old
             then new ++ replace_go old new (length old - 1) s'
             else c :: replace_go old new 0 s'
      end
  end.

Definition replace (s old new : str) : str :=
  match old with
  | [] => new ++ flat_map (fun c => c :: new) s
  | _ :: _ => replace_go old new 0 s
  end.

(** [re.sub(r'\.X$', '.Y', s)] for a literal suffix [X] without newline.
    Without [re.MULTILINE] the anchor [$] matches at the very end of the
    string and also just before a newline that is the last character; the
    two positions cannot both follow the suffix, so at most one match is
    replaced. *)
Definition nl : ascii := "010"%char.

Definition re_sub_suffix (sfx new : str) (s : str) : str :=
  if endswith s sfx then
    take (length s - length sfx) s ++ new
  else if endswith s (sfx ++ [nl]) then
    take (length s - length sfx - 1) s ++ new ++ [nl]
  else s.

End Py.

Arguments Py.eqc : simpl never.
Arguments Py.str_eqb : simpl never.

(** ** [posixpath] *)

Module PosixPath.

Definition sep : ascii := "/"%char.
Definition curdir : str := ".".
Definition pardir : str := "..".

(** [posixpath.isabs] *)
Definition isabs (p : str) : bool := Py.startswith p "/".

(** [posixpath.join(a, b)]: one step of the loop of [join(a, *p)]. *)
Definition join2 (path b : str) : str :=
  if Py.startswith b "/" then b
  else if Py.str_eqb path [] || Py.endswith path "/" then path ++ b
  else path ++ "/" ++ b.

(** [posixpath.join(a, *p)] *)
Definition join (a : str) (p : list str) : str := foldl join2 a p.

(** [posixpath.dirname]:
<<
    i = p.rfind('/') + 1
    head = p[:i]
    if head and head != '/'*len(head): head = head.rstrip('/')
>> *)
Definition dirname (p : str) : str :=
  let head := rev (Py.dropwhile (fun c => negb (Py.eqc c sep)) (rev p)) in
  if negb (Py.str_eqb head []) && negb (forallb (fun c => Py.eqc c sep) head)
  then Py.rstrip sep head
  else head.

(** The loop of [posixpath.normpath] over the components.  [new_comps] is
    kept with its last element first, so that [append] is a cons and [pop]
    a tail. *)
Fixpoint norm_comps (initial_slashes : nat) (new_comps comps : list str)
  : list str :=
  match comps with
  | [] => rev new_comps
  | comp :: rest =>
      if Py.str_eqb comp [] || Py.str_eqb comp curdir then
        norm_comps initial_slashes new_comps rest
      else if negb (Py.str_eqb comp pardir)
              || (Nat.eqb initial_slashes 0
                  && match new_comps with [] => true | _ => false end)
              || match new_comps with
                 | top :: _ => Py.str_eqb top pardir
                 | [] => false
                 end
      then norm_comps initial_slashes (comp :: new_comps) rest
      else match new_comps with
           | _ :: popped => norm_comps initial_slashes popped rest
           | [] => norm_comps initial_slashes new_comps rest
           end
  end.

(** [posixpath.normpath]:
<<
    if path == '': return '.'
    initial_slashes = path.startswith('/')
    if initial_slashes and path.startswith('//')
       and not path.startswith('///'): initial_slashes = 2
    comps = path.split('/')
    ... the loop above ...
    path = '/'.join(comps)
    if initial_slashes: path = '/'*initial_slashes + path
    return path or '.'
>> *)
Definition initial_slashes (path : str) : nat :=
  if Py.startswith path "/" then
    if Py.startswith path "//" && negb (Py.startswith path "///") then 2
    else 1
  else 0.

Definition normpath (path : str) : str :=
  if Py.str_eqb path [] then curdir
  else
    let n := initial_slashes path in
    let comps := norm_comps n [] (Py.split sep path) in
    let path' := Py.join "/" comps in
    let path' := if Nat.eqb n 0 then path' else replicate n sep ++ path' in
    if Py.str_eqb path' [] then curdir else path'.

(** [posixpath.abspath], with [os.getcwd()] as an argument. *)
Definition abspath (cwd path : str) : str :=
  if isabs path then normpath path else normpath (join cwd [path]).

(** [genericpath.commonprefix] of two lists of components: the longest
    list that starts both. *)
Fixpoint commonprefix (a b : list str) : list str :=
  match a, b with
  | x :: a', y :: b' => if Py.str_eqb x y then x :: commonprefix a' b' else []
  | _, _ => []
  end.

(** [[x for x in s.split('/') if x]] *)
Definition nonempty_comps (s : str) : list str :=
  filter (fun x => x <> []) (Py.split sep s).

(** [posixpath.relpath(path, start)]; [None] is the [ValueError] raised
    for an empty [path].
<<
    start_list = [x for x in abspath(start).split('/') if x]
    path_list = [x for x in abspath(path).split('/') if x]
    i = len(commonprefix([start_list, path_list]))
    rel_list = ['..'] * (len(start_list)-i) + path_list[i:]
    if not rel_list: return '.'
    return join( *rel_list )
>> *)
Definition relpath (cwd path start : str) : option str :=
  if Py.str_eqb path [] then None
  else
    let start_list := nonempty_comps (abspath cwd start) in
    let path_list := nonempty_comps (abspath cwd path) in
    let i := length (commonprefix start_list path_list) in
    let rel_list :=
      replicate (length start_list - i) pardir ++ drop i path_list in
    match rel_list with
    | [] => Some curdir
    | a :: p => Some (join a p)
    end.

End PosixPath.

(** ** The pure functions of [move-files.py] *)

(** [moves.get(os.path.normpath(abs_path), os.path.normpath(abs_path))] *)
Definition new_path_of (abs_path : str) (moves : gmap str str) : str :=
  default (PosixPath.normpath abs_path) (moves !! PosixPath.normpath abs_path).

(** <<
    from_dir = os.path.dirname(from_file)
    ts_path = re.sub(r'\.js$', '.ts', import_path)
    return os.path.normpath(os.path.join(from_dir, ts_path))
>> *)
Definition resolve_import (from_file import_path : str) : str :=
  let from_dir := PosixPath.dirname from_file in
  let ts_path := Py.re_sub_suffix ".js" ".ts" import_path in
  PosixPath.normpath (PosixPath.join from_dir [ts_path]).

(** <<
    from_dir = os.path.dirname(from_file)
    rel = os.path.relpath(to_file, from_dir).replace('\\', '/')
    rel = re.sub(r'\.ts$', '.js', rel)
    if not rel.startswith('.'): rel = './' + rel
    return rel
>>
    [None] when [relpath] raises. *)
Definition make_relative (cwd from_file to_file : str) : option str :=
  let from_dir := PosixPath.dirname from_file in
  rel0 ← PosixPath.relpath cwd to_file from_dir;
  let rel := Py.replace rel0 "\" "/" in
  let rel := Py.re_sub_suffix ".ts" ".js" rel in
  Some (if negb (Py.startswith rel ".") then "./" ++ rel else rel).

(** ** The import pattern

    Writing Q for the double quote character, the pattern of [run] is
    [from Q(\.\.?/[^Q]+\.js)Q].  After the literal [from Q] the group may
    not contain a double quote (the class [[^Q]] excludes it, the other atoms
    are literals) and must be followed by one, so the group is the text up
    to the first double quote; that text has to be [./] or [../], then at
    least one character, then [.js]. *)

Definition dq : ascii := "034"%char.

Definition from_quote : str := "from " ++ [dq].

(** The text before the first [c], and the text after it. *)
Fixpoint break_at (c : ascii) (s : str) : option (str * str) :=
  match s with
  | [] => None
  | x :: s' =>
      if Py.eqc x c then Some ([], s')
      else '(u, r) ← break_at c s'; Some (x :: u, r)
  end.

(** [\.\.?/[^Q]+\.js] on a text without double quote, matched in full. *)
Definition import_shape (u : str) : bool :=
  let body w := Py.endswith w ".js" && (3 <? length w)%nat in
  if Py.startswith u "./" then body (drop 2 u)
  else if Py.startswith u "../" then body (drop 3 u)
  else false.

(** A match of the pattern at the start of [s]: group 1 and the text after
    the match. *)
Definition match_import (s : str) : option (str * str) :=
  if Py.startswith s from_quote then
    '(u, rest) ← break_at dq (drop (length from_quote) s);
    if import_shape u then Some (u, rest) else None
  else None.

(** [re.sub(pattern, repl, s)] with a function [repl] of group 1 that may
    raise: leftmost matches, not overlapping.  [skip] counts the characters
    of the last match still to be passed over. *)
Fixpoint re_sub_go (repl : str -> option str) (skip : nat) (s : str)
  : option str :=
  match s with
  | [] => Some []
  | c :: s' =>
      match skip with
      | S k => re_sub_go repl k s'
      | O =>
          match match_import s with
          | Some (ip, _) =>
              r ← repl ip;
              t ← re_sub_go repl (length from_quote + length ip) s';
              Some (r ++ t)
          | None => t ← re_sub_go repl 0 s'; Some (c :: t)
          end
      end
  end.

Definition re_sub_imports (repl : str -> option str) (s : str) : option str :=
  re_sub_go repl 0 s.

(** [re.findall(pattern, s)]: group 1 of the matches that [re.sub]
    replaces, in order. *)
Fixpoint find_imports_go (skip : nat) (s : str) : list str :=
  match s with
  | [] => []
  | c :: s' =>
      match skip with
      | S k => find_imports_go k s'
      | O =>
          match match_import s with
          | Some (ip, _) =>
              ip :: find_imports_go (length from_quote + length ip) s'
          | None => find_imports_go 0 s'
          end
      end
  end.

Definition find_imports (s : str) : list str := find_imports_go 0 s.

Section Rewrite.

Variable cwd : str.
Variable moves : gmap str str.

(** <<
    def replace_import(match, _old=old_abs, _new=new_abs):
        import_path = match.group(1)
        target_abs = resolve_import(_old, import_path)
        new_target = new_path_of(target_abs, moves)
        new_rel = make_relative(_new, new_target)
        return match.group(0).replace(import_path, new_rel)
>> *)
Definition replace_import (_old _new import_path : str) : option str :=
  let group0 := from_quote ++ import_path ++ [dq] in
  let target_abs := resolve_import _old import_path in
  let new_target := new_path_of target_abs moves in
  new_rel ← make_relative cwd _new new_target;
  Some (Py.replace group0 import_path new_rel).

(** [re.sub(pattern, replace_import, content)] *)
Definition rewrite_imports (old_abs new_abs content : str) : option str :=
  re_sub_imports (replace_import old_abs new_abs) content.

End Rewrite.

(** ** The effects of [run]

    [run] walks a directory tree, reads and writes text files, creates
    directories, calls [git mv] and prints.  The file system and git are an
    interface; the model records every attempted operation in a log and
    stops at the first operation that fails, as the uncaught exception
    does. *)

Class OS (FS : Type) := {
  (** the pairs [(root, f)] in the order in which
      [for root, dirs, files in os.walk(top): for f in files:] meets them *)
  os_walk : FS -> str -> list (str * str);
  (** [open(p, 'r').read()] *)
  read_text : FS -> str -> option str;
  (** [open(p, 'w').write(content)] *)
  write_text : FS -> str -> str -> option FS;
  (** [os.makedirs(d, exist_ok=True)] *)
  makedirs : FS -> str -> option FS;
  (** [subprocess.run(['git', 'mv', old, new], cwd=repo_root, check=True)] *)
  git_mv : FS -> str -> str -> str -> option FS
}.

Inductive event :=
| EvRead (p : str)
| EvMakedirs (d : str)
| EvGitMv (repo_root old new : str)
| EvWrite (p content : str)
| EvPrint (line : str).

Inductive error :=
| ReadError (p : str)
| MakedirsError (d : str)
| CalledProcessError (old new : str)
| WriteError (p : str)
| KeyError (k : str)
| ValueError.

Record world (FS : Type) := World { disk : FS; log : list event }.
Arguments World {FS} _ _.
Arguments disk {FS} _.
Arguments log {FS} _.

(** State and error: the world is returned in both cases, since nothing is
    rolled back. *)
Definition M (FS A : Type) : Type := world FS -> world FS * (error + A).

Global Instance M_ret {FS} : MRet (M FS) := fun A a w => (w, inr a).

Global Instance M_bind {FS} : MBind (M FS) := fun A B k m w =>
  match m w with
  | (w', inr a) => k a w'
  | (w', inl e) => (w', inl e)
  end.

Definition raise {FS A} (e : error) : M FS A := fun w => (w, inl e).

Definition emit {FS} (ev : event) : M FS unit :=
  fun w => (World (disk w) (log w ++ [ev]), inr tt).

Definition of_option {FS A} (o : option A) (e : error) : M FS A :=
  match o with Some a => mret a | None => raise e end.

(** An operation that changes the file system or fails. *)
Definition effect {FS} (op : FS -> option FS) (e : error) : M FS unit :=
  fun w => match op (disk w) with
           | Some d => (World d (log w), inr tt)
           | None => (w, inl e)
           end.

(** An operation that reads the file system. *)
Definition query {FS A} (op : FS -> option A) (e : error) : M FS A :=
  fun w => match op (disk w) with
           | Some a => (w, inr a)
           | None => (w, inl e)
           end.

(** [for x in l: body(x)] *)
Fixpoint for_each {FS X} (l : list X) (body : X -> M FS unit) : M FS unit :=
  match l with
  | [] => mret tt
  | x :: l' => body x;; for_each l' body
  end.

(** [for x in l: acc = body(acc, x)] *)
Fixpoint for_fold {FS X A} (l : list X) (acc : A) (body : A -> X -> M FS A)
  : M FS A :=
  match l with
  | [] => mret acc
  | x :: l' => acc' ← body acc x; for_fold l' acc' body
  end.

(** ** Dictionaries in insertion order *)

(** [d[k] = v]: the value of an existing key is replaced in place, a new
    key goes to the end. *)
Fixpoint dict_set {V} (d : list (str * V)) (k : str) (v : V)
  : list (str * V) :=
  match d with
  | [] => [(k, v)]
  | (k', v') :: d' =>
      if Py.str_eqb k' k then (k, v) :: d' else (k', v') :: dict_set d' k v
  end.

(** ** Order of [str], for [sorted]: by code point, a proper prefix first. *)

Fixpoint str_leb (a b : str) : bool :=
  match a, b with
  | [], _ => true
  | _ :: _, [] => false
  | x :: a', y :: b' =>
      if (nat_of_ascii x <? nat_of_ascii y)%nat then true
      else if (nat_of_ascii y <? nat_of_ascii x)%nat then false
      else str_leb a' b'
  end.

Definition str_le (a b : str) : Prop := str_leb a b = true.

Global Instance str_le_dec : RelDecision str_le.
Proof. intros a b. unfold str_le. apply _. Defined.

(** [sorted(l)] *)
Definition sorted (l : list str) : list str := merge_sort str_le l.

(** [str(n)] for a non-negative [int] *)
Definition str_of_nat (n : nat) : str :=
  list_ascii_of_string (NilEmpty.string_of_uint (Nat.to_uint n)).

(** ** [run] *)

(** [BASE = os.path.join(os.path.dirname(os.path.abspath(__file__)), "src")] *)
Definition base_of (cwd script_file : str) : str :=
  PosixPath.join (PosixPath.dirname (PosixPath.abspath cwd script_file))
                 ["src" : str].

(** <<
    moves = {}
    for old, new in moves_raw.items():
        moves[os.path.normpath(old)] = os.path.normpath(new)
>> *)
Definition normalize_moves (moves_raw : list (str * str)) : gmap str str :=
  foldl (fun moves '(old, new) =>
           <[PosixPath.normpath old := PosixPath.normpath new]> moves)
        ∅ moves_raw.

(** [f.endswith('.ts') and not f.endswith('.d.ts')] *)
Definition is_source (f : str) : bool :=
  Py.endswith f ".ts" && negb (Py.endswith f ".d.ts").

(** [f"\nMoved {len(moves)} files, updated imports in {len(updates)} files."] *)
Definition summary_line (n_moves n_updates : nat) : str :=
  [Py.nl] ++ "Moved " ++ str_of_nat n_moves
  ++ " files, updated imports in " ++ str_of_nat n_updates ++ " files.".

Section Run.

Context {FS : Type} {os : OS FS}.
Variable cwd : str.
Variable BASE : str.

(** <<
    all_files = []
    for root, dirs, files in os.walk(BASE):
        for f in files:
            if f.endswith('.ts') and not f.endswith('.d.ts'):
                all_files.append(os.path.normpath(os.path.join(root, f)))
>> *)
Definition collect_files (d : FS) : list str :=
  map (fun rf => PosixPath.normpath (PosixPath.join rf.1 [rf.2]))
      (filter (fun rf => is_source rf.2 = true) (os_walk d BASE)).

(** The body of the loop of step 1 for one file whose content was read:
    the new path, the new content and whether an entry is recorded. *)
Definition update_of (moves : gmap str str) (old_abs content : str)
  : option (str * str * bool) :=
  let new_abs := new_path_of old_abs moves in
  new_content ← rewrite_imports cwd moves old_abs new_abs content;
  Some (new_abs, new_content,
        bool_decide (new_content ≠ content) || bool_decide (old_abs ≠ new_abs)).

(** Step 1: read content and compute new imports. *)
Definition compute_updates (moves : gmap str str) (all_files : list str)
  : M FS (list (str * (str * str))) :=
  for_fold all_files [] (fun updates old_abs =>
    emit (EvRead old_abs);;
    content ← query (fun d => read_text d old_abs) (ReadError old_abs);
    '(new_abs, new_content, changed) ←
      of_option (update_of moves old_abs content) ValueError;
    mret (if changed : bool
          then dict_set updates old_abs (new_abs, new_content)
          else updates)).

(** Step 2: [git mv] the moved files, in the order of the sorted keys. *)
Definition move_one (moves : gmap str str) (repo_root old_abs : str)
  : M FS unit :=
  new_abs ← of_option (moves !! old_abs) (KeyError old_abs);
  emit (EvMakedirs (PosixPath.dirname new_abs));;
  effect (fun d => makedirs d (PosixPath.dirname new_abs))
         (MakedirsError (PosixPath.dirname new_abs));;
  emit (EvGitMv repo_root old_abs new_abs);;
  effect (fun d => git_mv d repo_root old_abs new_abs)
         (CalledProcessError old_abs new_abs);;
  r_old ← of_option (PosixPath.relpath cwd old_abs repo_root) ValueError;
  r_new ← of_option (PosixPath.relpath cwd new_abs repo_root) ValueError;
  emit (EvPrint ("  git mv " ++ r_old ++ " -> " ++ r_new)).

Definition apply_moves (moves : gmap str str) (repo_root : str) : M FS unit :=
  for_each (sorted (map_to_list moves).*1) (move_one moves repo_root).

(** Step 3: write updated content. *)
Definition flush_one (repo_root : str) (u : str * (str * str)) : M FS unit :=
  let '(old_abs, (new_abs, new_content)) := u in
  emit (EvWrite new_abs new_content);;
  effect (fun d => write_text d new_abs new_content) (WriteError new_abs);;
  if Py.str_eqb old_abs new_abs then
    r ← of_option (PosixPath.relpath cwd new_abs repo_root) ValueError;
    emit (EvPrint ("  updated imports in " ++ r))
  else mret tt.

Definition flush_updates (repo_root : str) (updates : list (str * (str * str)))
  : M FS unit :=
  for_each updates (flush_one repo_root).

Definition run (moves_raw : list (str * str)) : M FS unit :=
  let moves := normalize_moves moves_raw in
  all_files ← (fun w => (w, inr (collect_files (disk w))));
  updates ← compute_updates moves all_files;
  let repo_root := PosixPath.dirname BASE in
  apply_moves moves repo_root;;
  flush_updates repo_root updates;;
  emit (EvPrint (summary_line (size moves) (length updates))).

(** <<
    moves_json = json.loads(sys.argv[1])
    moves_raw = {os.path.join(BASE, k): os.path.join(BASE, v)
                 for k, v in moves_json.items()}
    run(moves_raw)
>>
    [moves_json] is the parsed argument, in the order of its keys. *)
Definition main (moves_json : list (str * str)) : M FS unit :=
  let moves_raw :=
    foldl (fun d kv => dict_set d (PosixPath.join BASE [kv.1])
                                  (PosixPath.join BASE [kv.2]))
          [] moves_json in
  run moves_raw.

End Run.

(** ** A file system to run the scenarios on

    A flat map from the paths of the files to their text.  Directories are
    implicit: a directory exists when a file lies below it.
    - The walk is top-down, as [os.walk] is: the files of a directory come
      before the files of its subdirectories.  Within a directory the
      names are taken in sorted order; [os.scandir] lists them in the
      order of the file system, of which this is one.
    - Reading is in text mode with universal newlines: a carriage return,
      alone or followed by a line feed, is read as a line feed.  Writing
      in text mode on POSIX stores the text as it is.
    - [os.makedirs(d, exist_ok=True)] fails for the empty path and when
      [d] or one of its ancestors is a file.
    - [git mv] fails when the origin is missing or the destination
      exists. *)

Definition split_path (p : str) : str * str :=
  let d := PosixPath.dirname p in
  (d, drop (length (if Py.endswith d "/" then d else d ++ "/")) p).

Definition below (top p : str) : bool :=
  Py.startswith p (if Py.endswith top "/" then top else top ++ "/").

(** The order of a top-down walk on paths given by their components: in
    a directory the files come first, by name, then the subdirectories,
    by name, each with what lies below it. *)
Fixpoint walk_leb (a b : list str) : bool :=
  match a, b with
  | [], _ => true
  | _ :: _, [] => false
  | [x], [y] => str_leb x y
  | [x], _ :: _ :: _ => true
  | _ :: _ :: _, [y] => false
  | x :: a', y :: b' =>
      if Py.str_eqb x y then walk_leb a' b' else str_leb x y
  end.

Definition walk_le (p q : str) : Prop :=
  walk_leb (Py.split PosixPath.sep p) (Py.split PosixPath.sep q) = true.

Global Instance walk_le_dec : RelDecision walk_le.
Proof. intros a b. unfold walk_le. apply _. Defined.

Definition cr : ascii := "013"%char.

(** The text that [fh.read()] returns for the text [s] of a file. *)
Fixpoint universal_newlines (s : str) : str :=
  match s with
  | [] => []
  | c :: s' =>
      if Py.eqc c cr then
        match s' with
        | c' :: s'' =>
            if Py.eqc c' Py.nl then Py.nl :: universal_newlines s''
            else Py.nl :: universal_newlines s'
        | [] => [Py.nl]
        end
      else c :: universal_newlines s'
  end.

(** A path and the directories above it, up to the root or to the first
    component of a relative path. *)
Fixpoint ancestors (fuel : nat) (p : str) : list str :=
  match fuel with
  | O => []
  | S n =>
      if Py.str_eqb p [] then []
      else p :: (let d := PosixPath.dirname p in
                 if Py.str_eqb d p then [] else ancestors n d)
  end.

Global Instance flat_os : OS (gmap str str) := {|
  os_walk d top :=
    map split_path (merge_sort walk_le
                      (filter (fun p => below top p = true)
                              (map_to_list d).*1));
  read_text d p := universal_newlines <$> d !! p;
  write_text d p c := Some (<[p := c]> d);
  makedirs d dir :=
    if Py.str_eqb dir [] then None
    else if bool_decide (Exists (fun a => is_Some (d !! a))
                                (ancestors (length dir) dir))
    then None else Some d;
  git_mv d _ old new :=
    match d !! old, d !! new with
    | Some c, None => Some (<[new := c]> (delete old d))
    | _, _ => None
    end
|}.

(** The flat file system with files that cannot be read and paths that
    cannot be written. *)
Definition guarded_os (readable writable : str -> bool)
  : OS (gmap str str) := {|
  os_walk := @os_walk _ flat_os;
  read_text d p := if readable p then @read_text _ flat_os d p else None;
  write_text d p c := if writable p then Some (<[p := c]> d) else None;
  makedirs := @makedirs _ flat_os;
  git_mv := @git_mv _ flat_os
|}.

(** ** Predicates of the statements *)

(** A path that [normpath] returns as it is. *)
Definition normalized (p : str) : Prop := PosixPath.normpath p = p.

(** A component that names a file or a directory: not empty, not [.],
    not [..], without separator. *)
Definition is_name (c : str) : Prop :=
  c <> [] /\ c <> PosixPath.curdir /\ c <> PosixPath.pardir
  /\ PosixPath.sep ∉ c.

(** The root of an absolute path: one slash, or exactly two. *)
Definition root (n : nat) : str := replicate n PosixPath.sep.

(** The absolute path with root [root n] and components [cs]. *)
Definition abs_path (n : nat) (cs : list str) : str :=
  root n ++ Py.join "/" cs.

Definition no_leading_sep (s : str) : Prop :=
  match s with [] => True | x :: _ => x <> PosixPath.sep end.

(** A component as [relpath] joins them: not empty, without separator. *)
Definition plain (c : str) : Prop := c <> [] /\ PosixPath.sep ∉ c.

(** The components of [relpath(path, start)] when [start_list] is [F] and
    [path_list] is [T]. *)
Definition rel_comps (F T : list str) : list str :=
  let i := length (PosixPath.commonprefix F T) in
  replicate (length F - i) PosixPath.pardir ++ drop i T.

Definition rel_string (F T : list str) : str :=
  match rel_comps F T with
  | [] => PosixPath.curdir
  | l => Py.join "/" l
  end.

Definition backslash : ascii := "\"%char.

(** No import that the pattern matches in [s] holds a backslash. *)
Definition plain_imports (s : str) : Prop :=
  Forall (fun ip => backslash ∉ ip) (find_imports s).

(** The text before the last component of a join. *)
Definition join_pre (X : list str) : str :=
  match X with [] => [] | _ => Py.join "/" X ++ "/" end.

(** [if not rel.startswith('.'): rel = './' + rel] *)
Definition dot_slash (rel : str) : str :=
  if negb (Py.startswith rel ".") then "./" ++ rel else rel.

(** The components that [normpath] leaves of a relative path: some [..],
    then names. *)
Definition rel_normal (cs : list str) : Prop :=
  exists k names, cs = replicate k PosixPath.pardir ++ names
                  /\ Forall is_name names.

(** A text that is empty or ends in a separator. *)
Definition dir_prefix (X : str) : Prop :=
  X = [] \/ exists Y, X = Y ++ [PosixPath.sep].

(** ** Reading the log *)

(** The [git mv] commands attempted, in order: origin and destination. *)
Definition git_moves (l : list event) : list (str * str) :=
  omap (fun e => match e with EvGitMv _ o n => Some (o, n) | _ => None end) l.

(** The files written, in order: path and content. *)
Definition writes (l : list event) : list (str * str) :=
  omap (fun e => match e with EvWrite p c => Some (p, c) | _ => None end) l.

Definition is_write (e : event) : Prop :=
  match e with EvWrite _ _ => True | _ => False end.

Definition is_git_mv (e : event) : Prop :=
  match e with EvGitMv _ _ _ => True | _ => False end.

(** The file system after the moves of the origins [ks], all successful:
    for each one the directory of the destination is created and the file
    moved. *)
Fixpoint moved {FS} `{OS FS} (moves : gmap str str) (repo_root : str)
    (ks : list str) (d : FS) : option FS :=
  match ks with
  | [] => Some d
  | k :: ks' =>
      new ← moves !! k;
      d1 ← makedirs d (PosixPath.dirname new);
      d2 ← git_mv d1 repo_root k new;
      moved moves repo_root ks' d2
  end.

(** The origins [ks] with their destinations. *)
Definition move_pairs (moves : gmap str str) (ks : list str)
  : list (str * str) :=
  omap (fun k => new ← moves !! k; Some (k, new)) ks.

(** The dictionary [updates] that step 1 builds from the files [files] as
    they are on the file system [d], starting from [acc]. *)
Fixpoint updates_from {FS} `{OS FS} (cwd : str) (moves : gmap str str)
    (d : FS) (files : list str) (acc : list (str * (str * str)))
  : option (list (str * (str * str))) :=
  match files with
  | [] => Some acc
  | old_abs :: files' =>
      content ← read_text d old_abs;
      '(new_abs, new_content, changed) ← update_of cwd moves old_abs content;
      updates_from cwd moves d files'
        (if changed : bool
         then dict_set acc old_abs (new_abs, new_content)
         else acc)
  end.

(** The file system after the writes of step 3, all successful, in the
    order of the entries of [updates]. *)
Fixpoint flushed {FS} `{OS FS} (updates : list (str * (str * str))) (d : FS)
  : option FS :=
  match updates with
  | [] => Some d
  | (_, (new_abs, new_content)) :: updates' =>
      d1 ← write_text d new_abs new_content;
      flushed updates' d1
  end.

(** ** What a computation may do *)

(** What a computation may do: the events it appends satisfy [Pev], the
    errors it raises satisfy [Perr], and the file system changes along
    [Qd]. *)
Definition does {FS} (Pev : event -> Prop) (Perr : error -> Prop)
    (Qd : FS -> FS -> Prop) {A} (m : M FS A) : Prop :=
  forall w w' r, m w = (w', r) ->
    (exists evs, log w' = log w ++ evs /\ Forall Pev evs)
    /\ Qd (disk w) (disk w')
    /\ (forall e, r = inl e -> Perr e).

(** One step that only moves: a directory is created or a file moved. *)
Inductive move_step {FS} `{OS FS} : FS -> FS -> Prop :=
| step_makedirs d dir d' : makedirs d dir = Some d' -> move_step d d'
| step_git_mv d root old new d' :
    git_mv d root old new = Some d' -> move_step d d'.

(** The file system is reached by moves only: nothing was written. *)
Definition moves_only {FS} `{OS FS} : FS -> FS -> Prop := rtc move_step.

(** The errors that are not a failed [git mv]. *)
Definition not_move_error (e : error) : Prop :=
  match e with CalledProcessError _ _ => False | _ => True end.

(** Any change of the file system. *)
Definition any_change {FS} : FS -> FS -> Prop := fun _ _ => True.

(** Every entry of [updates] belongs to a file whose content or path
    changes, and holds its new path and new content. *)
Definition entry_ok {FS} `{OS FS} (cwd : str) (moves : gmap str str) (d : FS)
    (u : str * (str * str)) : Prop :=
  exists content,
    read_text d u.1 = Some content
    /\ update_of cwd moves u.1 content = Some (u.2.1, u.2.2, true).

(** ** The lines printed *)

(** The lines printed, in order. *)
Definition prints (l : list event) : list str :=
  omap (fun e => match e with EvPrint line => Some line | _ => None end) l.

(** The progress line of a move:
    [f"  git mv {relpath(old_abs, repo_root)} -> {relpath(new_abs, repo_root)}"] *)
Definition move_line (cwd repo_root : str) (on : str * str) : option str :=
  r_old ← PosixPath.relpath cwd on.1 repo_root;
  r_new ← PosixPath.relpath cwd on.2 repo_root;
  Some ("  git mv " ++ r_old ++ " -> " ++ r_new).

(** The progress lines of an entry of [updates]: one line
    [f"  updated imports in {relpath(new_abs, repo_root)}"] when the file
    is written in place, none when it was moved. *)
Definition update_lines (cwd repo_root : str) (u : str * (str * str))
  : option (list str) :=
  if Py.str_eqb u.1 u.2.1 then
    r ← PosixPath.relpath cwd u.2.1 repo_root;
    Some [ "  updated imports in " ++ r ]
  else Some [].

(** ** The errors and the events of the three steps *)

Definition is_read (ev : event) : Prop :=
  match ev with EvRead _ => True | _ => False end.

Definition read_error (e : error) : Prop :=
  match e with ReadError _ => True | _ => False end.

(** A failed [os.makedirs] or a failed [git mv]. *)
Definition move_error (e : error) : Prop :=
  match e with
  | MakedirsError _ | CalledProcessError _ _ => True
  | _ => False
  end.

Definition write_error (e : error) : Prop :=
  match e with WriteError _ => True | _ => False end.

(** The errors of the file system and of git: every one but the
    [ValueError] of [os.path.relpath] and the [KeyError] of a dictionary. *)
Definition os_error (e : error) : Prop :=
  read_error e \/ move_error e \/ write_error e.

(** A progress line: a printed line that begins with two spaces. *)
Definition progress_line (ev : event) : Prop :=
  match ev with
  | EvPrint line => Py.startswith line "  " = true
  | _ => True
  end.

(** ** The files of the scenarios *)

(** An import statement [import { x } from Q<path>Q;]. *)
Definition import_stmt (x path : str) : str :=
  "import { " ++ x ++ " } " ++ from_quote ++ path ++ [dq] ++ ";".

(** [a.ts] imports [./b.js] and [b.ts] imports [./a.js]. *)
Definition disk_ab : gmap str str :=
  {[ ("/repo/src/a.ts" : str) := import_stmt "b" "./b.js";
     ("/repo/src/b.ts" : str) := import_stmt "a" "./a.js" ]}.

(** A file without imports. *)
Definition disk_plain : gmap str str :=
  {[ ("/repo/src/a.ts" : str) := ("export const a = 1;" : str) ]}.

(** Three files, and a move mapping that names a file that does not
    exist. *)
Definition disk_abc : gmap str str :=
  {[ ("/repo/src/a.ts" : str) := import_stmt "c" "./c.js";
     ("/repo/src/c.ts" : str) := import_stmt "a" "./a.js" ]}.

(** [b.ts] imports [a.ts] by a path with a detour, and only [c.ts] is
    moved. *)
Definition disk_detour : gmap str str :=
  {[ ("/repo/src/a.ts" : str) := ("export const a = 1;" : str);
     ("/repo/src/b.ts" : str) := import_stmt "a" "./sub/../a.js";
     ("/repo/src/c.ts" : str) := ("export const c = 1;" : str) ]}.

Definition moves_c : list (str * str) :=
  [ ("/repo/src/c.ts" : str, "/repo/src/sub/c.ts" : str) ].

Definition moves_abc : list (str * str) :=
  [ ("/repo/src/c.ts" : str, "/repo/src/sub/c.ts" : str);
    ("/repo/src/b.ts" : str, "/repo/src/sub/b.ts" : str);
    ("/repo/src/a.ts" : str, "/repo/src/sub/a.ts" : str) ].

(** * Facts about the string operations *)

Section StrFacts.

Implicit Types (s p r u : str) (c : ascii).

Lemma eqc_true c c' : Py.eqc c c' = true <-> c = c'.
Proof. apply Ascii.eqb_eq. Qed.

Lemma eqc_false c c' : Py.eqc c c' = false <-> c <> c'.
Proof. apply Ascii.eqb_neq. Qed.

Lemma eqc_refl c : Py.eqc c c = true.
Proof. by apply eqc_true. Qed.

Lemma str_eqb_true s p : Py.str_eqb s p = true <-> s = p.
Proof. unfold Py.str_eqb. apply bool_decide_eq_true. Qed.

Lemma str_eqb_false s p : Py.str_eqb s p = false <-> s <> p.
Proof. unfold Py.str_eqb. apply bool_decide_eq_false. Qed.

Lemma startswith_spec s p : Py.startswith s p = true <-> exists r, s = p ++ r.
Proof.
  revert s. induction p as [|a p IH]; intros s; simpl.
  - split; [intros _; by exists s | done].
  - destruct s as [|b s].
    + split; [done | by intros [r ?]].
    + rewrite andb_true_iff, eqc_true, IH. split.
      * intros [-> [r ->]]. eauto.
      * intros [r [= -> ->]]. eauto.
Qed.

Lemma startswith_app p r : Py.startswith (p ++ r) p = true.
Proof. apply startswith_spec. eauto. Qed.

Lemma endswith_spec s p : Py.endswith s p = true <-> exists r, s = r ++ p.
Proof.
  unfold Py.endswith. rewrite startswith_spec. split.
  - intros [r Hr]. exists (rev r).
    apply (f_equal (@rev _)) in Hr. rewrite rev_involutive in Hr.
    by rewrite Hr, rev_app_distr, rev_involutive.
  - intros [r ->]. exists (rev r). by rewrite rev_app_distr.
Qed.

Lemma endswith_app r p : Py.endswith (r ++ p) p = true.
Proof. apply endswith_spec. eauto. Qed.

Lemma endswith_last s p c :
  Py.endswith s (p ++ [c]) = true -> exists r, s = r ++ [c].
Proof.
  rewrite endswith_spec. intros [r ->]. exists (r ++ p). by rewrite <- app_assoc.
Qed.

Lemma dropwhile_all f s : forallb f s = true -> Py.dropwhile f s = [].
Proof.
  induction s as [|c s IH]; simpl; [done|].
  rewrite andb_true_iff. intros [-> ?]. auto.
Qed.

Lemma dropwhile_app f s c r :
  forallb f s = true -> f c = false ->
  Py.dropwhile f (s ++ c :: r) = c :: r.
Proof.
  induction s as [|x s IH]; simpl; intros Hs Hc.
  - by rewrite Hc.
  - apply andb_true_iff in Hs as [-> ?]. auto.
Qed.

End StrFacts.

Section SplitJoin.

Implicit Types (s p r u : str) (c : ascii) (cs : list str).

Lemma split_nonnil c s : Py.split c s <> [].
Proof.
  destruct s as [|x s]; simpl; [done|].
  destruct (Py.eqc x c); [done|]. by destruct (Py.split c s).
Qed.

Lemma split_cons_sep c s : Py.split c (c :: s) = [] :: Py.split c s.
Proof. simpl. by rewrite eqc_refl. Qed.

Lemma split_free c s : c ∉ s -> Py.split c s = [s].
Proof.
  induction s as [|x s IH]; simpl; [done|].
  intros Hn. apply not_elem_of_cons in Hn as [Hx Hs].
  destruct (Py.eqc x c) eqn:E; [apply eqc_true in E; congruence|].
  by rewrite IH.
Qed.

Lemma split_app_sep c s r :
  Py.split c (s ++ c :: r) = Py.split c s ++ Py.split c r.
Proof.
  induction s as [|x s IH]; simpl.
  - by rewrite eqc_refl.
  - destruct (Py.eqc x c); [by rewrite IH|].
    rewrite IH. pose proof (split_nonnil c s).
    by destruct (Py.split c s).
Qed.

Lemma join_cons sp u cs :
  cs <> [] -> Py.join sp (u :: cs) = u ++ sp ++ Py.join sp cs.
Proof. by destruct cs. Qed.

Lemma join_app sp cs cs' :
  cs <> [] -> cs' <> [] ->
  Py.join sp (cs ++ cs') = Py.join sp cs ++ sp ++ Py.join sp cs'.
Proof.
  intros Hcs Hcs'. induction cs as [|u cs IH]; [done|].
  destruct cs as [|v cs].
  - simpl. by destruct cs'.
  - change ((u :: v :: cs) ++ cs') with (u :: ((v :: cs) ++ cs')).
    rewrite join_cons by done. rewrite IH by done.
    rewrite (join_cons sp u (v :: cs)) by done. by rewrite <- !app_assoc.
Qed.

Lemma join_snoc sp cs u :
  cs <> [] -> Py.join sp (cs ++ [u]) = Py.join sp cs ++ sp ++ u.
Proof. intros. by rewrite join_app. Qed.

Lemma split_join c cs :
  cs <> [] -> Forall (fun u => c ∉ u) cs -> Py.split c (Py.join [c] cs) = cs.
Proof.
  intros Hne Hall. induction Hall as [|u cs Hu Hall IH]; [done|].
  destruct cs as [|v cs].
  - simpl. by apply split_free.
  - rewrite join_cons by done. cbn [app].
    rewrite split_app_sep, IH by done. by rewrite split_free.
Qed.

Lemma split_sep_free c s : Forall (fun u => c ∉ u) (Py.split c s).
Proof.
  induction s as [|x s IH]; simpl.
  - repeat constructor. apply not_elem_of_nil.
  - destruct (Py.eqc x c) eqn:E.
    + constructor; [apply not_elem_of_nil | done].
    + destruct (Py.split c s) as [|w ws]; simpl.
      * repeat constructor. apply eqc_false in E.
        apply not_elem_of_cons. split; [done | apply not_elem_of_nil].
      * apply Forall_cons_1 in IH as [Hw Hws]. constructor; [|done].
        apply eqc_false in E. by apply not_elem_of_cons.
Qed.

Lemma join_split c s : Py.join [c] (Py.split c s) = s.
Proof.
  induction s as [|x s IH]; simpl; [done|].
  destruct (Py.eqc x c) eqn:E.
  - apply eqc_true in E as ->. pose proof (split_nonnil c s).
    rewrite join_cons by done. simpl. by rewrite IH.
  - pose proof (split_nonnil c s).
    destruct (Py.split c s) as [|w ws]; [done|].
    destruct ws; simpl in *; by rewrite <- IH.
Qed.

End SplitJoin.

Section NormComps.

Implicit Types (s p r u c : str) (cs st : list str) (n : nat).

Lemma is_name_not_dots c : is_name c -> c <> [] /\ c <> "." /\ c <> "..".
Proof. intros (? & ? & ? & ?). done. Qed.

Lemma norm_comps_nil n st : PosixPath.norm_comps n st [] = rev st.
Proof. done. Qed.

Lemma norm_comps_empty n st cs :
  PosixPath.norm_comps n st ([] :: cs) = PosixPath.norm_comps n st cs.
Proof. done. Qed.

Lemma norm_comps_curdir n st cs :
  PosixPath.norm_comps n st (PosixPath.curdir :: cs)
  = PosixPath.norm_comps n st cs.
Proof. done. Qed.

Lemma norm_comps_name n st c cs :
  is_name c ->
  PosixPath.norm_comps n st (c :: cs) = PosixPath.norm_comps n (c :: st) cs.
Proof.
  intros (H1 & H2 & H3 & _). simpl.
  apply str_eqb_false in H1, H2, H3. by rewrite H1, H2, H3.
Qed.

Lemma norm_comps_pardir n top st cs :
  n <> 0 -> top <> PosixPath.pardir ->
  PosixPath.norm_comps n (top :: st) (PosixPath.pardir :: cs)
  = PosixPath.norm_comps n st cs.
Proof.
  intros Hn Htop. cbn -[PosixPath.pardir Py.str_eqb].
  apply Nat.eqb_neq in Hn. apply str_eqb_false in Htop.
  rewrite Hn, Htop.
  replace (Py.str_eqb PosixPath.pardir []) with false by done.
  replace (Py.str_eqb PosixPath.pardir PosixPath.curdir) with false by done.
  replace (Py.str_eqb PosixPath.pardir PosixPath.pardir) with true by done.
  done.
Qed.

Lemma norm_comps_pardir_root n cs :
  n <> 0 ->
  PosixPath.norm_comps n [] (PosixPath.pardir :: cs)
  = PosixPath.norm_comps n [] cs.
Proof.
  intros Hn. cbn -[PosixPath.pardir Py.str_eqb].
  apply Nat.eqb_neq in Hn. rewrite Hn.
  replace (Py.str_eqb PosixPath.pardir []) with false by done.
  replace (Py.str_eqb PosixPath.pardir PosixPath.curdir) with false by done.
  replace (Py.str_eqb PosixPath.pardir PosixPath.pardir) with true by done.
  done.
Qed.

(** Names are pushed one after the other. *)
Lemma norm_comps_names n st cs :
  Forall is_name cs -> PosixPath.norm_comps n st cs = rev st ++ cs.
Proof.
  intros Hcs. revert st. induction Hcs as [|c cs Hc Hcs IH]; intros st.
  - simpl. by rewrite app_nil_r.
  - rewrite norm_comps_name, IH by done. simpl. by rewrite <- app_assoc.
Qed.

(** The processing of a list of components continues from the stack that
    the components before left. *)
Lemma norm_comps_app_names n st cs cs' :
  Forall is_name cs ->
  PosixPath.norm_comps n st (cs ++ cs')
  = PosixPath.norm_comps n (rev cs ++ st) cs'.
Proof.
  intros Hcs. revert st. induction Hcs as [|c cs Hc Hcs IH]; intros st; [done|].
  simpl app. rewrite norm_comps_name, IH by done.
  simpl. by rewrite <- app_assoc.
Qed.

(** On an absolute path, [k] times [..] pop [k] names. *)
Lemma norm_comps_pop n st l cs :
  n <> 0 -> Forall is_name l ->
  PosixPath.norm_comps n (l ++ st)
    (replicate (length l) PosixPath.pardir ++ cs)
  = PosixPath.norm_comps n st cs.
Proof.
  intros Hn Hl. induction Hl as [|c l Hc Hl IH]; [done|].
  simpl length. simpl replicate. simpl app.
  rewrite norm_comps_pardir; [done | done |]. by destruct Hc as (_ & _ & ? & _).
Qed.

(** On an absolute path only names stay. *)
Lemma norm_comps_is_name n st cs :
  n <> 0 -> Forall is_name st -> Forall (fun u => PosixPath.sep ∉ u) cs ->
  Forall is_name (PosixPath.norm_comps n st cs).
Proof.
  intros Hn Hst Hcs. revert st Hst.
  induction Hcs as [|c cs Hc Hcs IH]; intros st Hst.
  - simpl. by apply Forall_rev.
  - destruct (decide (c = [])) as [->|H1]; [by apply IH|].
    destruct (decide (c = PosixPath.curdir)) as [->|H2]; [by apply IH|].
    destruct (decide (c = PosixPath.pardir)) as [->|H3].
    + destruct st as [|top st].
      * rewrite norm_comps_pardir_root by done. by apply IH.
      * apply Forall_cons_1 in Hst as [Htop Hst].
        rewrite norm_comps_pardir; [by apply IH | done |].
        by destruct Htop as (_ & _ & ? & _).
    + rewrite norm_comps_name by done. apply IH. by constructor.
Qed.

(** A last component that is a name stays last. *)
Lemma norm_comps_snoc n st cs c :
  is_name c ->
  PosixPath.norm_comps n st (cs ++ [c]) = PosixPath.norm_comps n st cs ++ [c].
Proof.
  intros Hc. revert st. induction cs as [|x cs IH]; intros st.
  - simpl app. rewrite norm_comps_name by done. done.
  - simpl app. simpl. repeat case_match; apply IH.
Qed.

(** What [normpath] keeps of the components [cs] processed on top of a
    stack: some of the stack, then some of [cs]. *)
Lemma norm_comps_tail (P : str -> Prop) n st cs :
  Forall P cs ->
  exists m new,
    PosixPath.norm_comps n st cs = rev (drop m st) ++ new /\ Forall P new.
Proof.
  intros Hcs. revert st. induction Hcs as [|c cs Hc Hcs IH]; intros st.
  - exists 0, []. simpl. by rewrite drop_0, app_nil_r.
  - assert (Hpush : exists m new,
              PosixPath.norm_comps n (c :: st) cs = rev (drop m st) ++ new
              /\ Forall P new).
    { destruct (IH (c :: st)) as (m & new & -> & Hnew).
      destruct m as [|m].
      - exists 0, (c :: new). rewrite !drop_0. simpl.
        rewrite <- app_assoc. split; [done | by constructor].
      - by exists m, new. }
    simpl. destruct st as [|top st]; repeat case_match; try apply IH; try done.
    destruct (IH st) as (m & new & -> & Hnew). by exists (S m), new.
Qed.

End NormComps.

Section AbsPaths.

Implicit Types (s p r u c : str) (cs st : list str) (n : nat).

Lemma is_name_head c : is_name c -> exists x r, c = x :: r /\ x <> PosixPath.sep.
Proof.
  intros (Hne & _ & _ & Hs). destruct c as [|x r]; [done|].
  exists x, r. split; [done|]. intros ->. apply Hs. by left.
Qed.

Lemma join_head (x : ascii) r cs :
  Py.join "/" ((x :: r) :: cs) = x :: Py.join "/" (r :: cs).
Proof. by destruct cs. Qed.

Lemma join_names_no_trailing_sep cs :
  Forall is_name cs -> cs <> [] ->
  exists r x, Py.join "/" cs = r ++ [x] /\ x <> PosixPath.sep.
Proof.
  intros Hcs Hne.
  destruct (exists_last Hne) as (cs' & c & ->).
  apply Forall_app in Hcs as [_ Hc]. apply Forall_cons_1 in Hc as [Hc _].
  destruct Hc as (Hc & _ & _ & Hs).
  destruct (exists_last Hc) as (c' & x & ->).
  exists (match cs' with [] => c' | _ => Py.join "/" cs' ++ "/" ++ c' end), x.
  split.
  - destruct cs' as [|a cs']; [done|].
    rewrite join_snoc by done. by rewrite <- !app_assoc.
  - intros ->. apply Hs. apply elem_of_app. right. by left.
Qed.

Lemma startswith_sep s : no_leading_sep s -> Py.startswith s "/" = false.
Proof.
  destruct s as [|x s]; [done|]. intros Hx.
  apply not_true_is_false. rewrite startswith_spec.
  intros [r [= ->]]. by apply Hx.
Qed.

Lemma join_names_no_leading_sep cs :
  Forall is_name cs -> no_leading_sep (Py.join "/" cs).
Proof.
  intros Hcs. destruct Hcs as [|c cs Hc Hcs]; [done|].
  destruct (is_name_head c Hc) as (x & r & -> & Hx).
  by rewrite join_head.
Qed.

Lemma initial_slashes_root n s :
  n = 1 \/ n = 2 -> no_leading_sep s ->
  PosixPath.initial_slashes (root n ++ s) = n.
Proof.
  intros Hn Hs. unfold PosixPath.initial_slashes.
  pose proof (startswith_sep s Hs) as Hs'.
  assert (Py.startswith (root n ++ s) "/" = true) as ->.
  { apply startswith_spec. destruct Hn as [-> | ->]; by eexists. }
  destruct Hn as [-> | ->].
  - assert (Py.startswith (root 1 ++ s) "//" = false) as ->; [|done].
    apply not_true_is_false. rewrite startswith_spec. intros [r [= E]].
    rewrite E in Hs'. by cbv in Hs'.
  - assert (Py.startswith (root 2 ++ s) "//" = true) as ->.
    { apply startswith_spec. by eexists. }
    assert (Py.startswith (root 2 ++ s) "///" = false) as ->; [|done].
    apply not_true_is_false. rewrite startswith_spec. intros [r [= E]].
    rewrite E in Hs'. by cbv in Hs'.
Qed.

Lemma split_root n s :
  Py.split PosixPath.sep (root n ++ s)
  = replicate n [] ++ Py.split PosixPath.sep s.
Proof.
  induction n as [|n IH]; [done|].
  change (root (S n) ++ s) with (PosixPath.sep :: (root n ++ s)).
  by rewrite split_cons_sep, IH.
Qed.

Lemma norm_comps_empties n k st cs :
  PosixPath.norm_comps n st (replicate k [] ++ cs)
  = PosixPath.norm_comps n st cs.
Proof. induction k as [|k IH]; [done|]. simpl replicate. simpl app. by rewrite norm_comps_empty. Qed.

Lemma root_nonempty n s : n = 1 \/ n = 2 -> root n ++ s <> [].
Proof. by intros [-> | ->]. Qed.

(** [normpath] of an absolute path given by its root and any components,
    the first of which is not empty. *)
Lemma normpath_root_join n x cs :
  n = 1 \/ n = 2 -> x <> [] ->
  Forall (fun u => PosixPath.sep ∉ u) (x :: cs) ->
  PosixPath.normpath (root n ++ Py.join "/" (x :: cs))
  = abs_path n (PosixPath.norm_comps n [] (x :: cs)).
Proof.
  intros Hn Hx Hcs. unfold PosixPath.normpath.
  assert (no_leading_sep (Py.join "/" (x :: cs))) as Hlead.
  { destruct x as [|a x]; [done|]. rewrite join_head. simpl.
    apply Forall_cons_1 in Hcs as [Ha _]. intros ->. apply Ha. by left. }
  pose proof (root_nonempty n (Py.join "/" (x :: cs)) Hn) as Hne.
  apply str_eqb_false in Hne. rewrite Hne.
  rewrite initial_slashes_root by done.
  rewrite split_root, norm_comps_empties.
  rewrite (split_join PosixPath.sep) by done.
  assert (Nat.eqb n 0 = false) as -> by (apply Nat.eqb_neq; lia).
  pose proof (root_nonempty n
    (Py.join "/" (PosixPath.norm_comps n [] (x :: cs))) Hn) as Hne'.
  apply str_eqb_false in Hne'. unfold root in Hne'. by rewrite Hne'.
Qed.

Lemma normpath_root n :
  n = 1 \/ n = 2 -> PosixPath.normpath (root n) = root n.
Proof. by intros [-> | ->]. Qed.

(** An absolute path made of names is normalized. *)
Lemma normpath_abs_path n cs :
  n = 1 \/ n = 2 -> Forall is_name cs ->
  PosixPath.normpath (abs_path n cs) = abs_path n cs.
Proof.
  intros Hn Hcs. destruct cs as [|x cs].
  - unfold abs_path. simpl. rewrite app_nil_r. by apply normpath_root.
  - unfold abs_path at 1. rewrite normpath_root_join; [| done | |].
    + by rewrite norm_comps_names.
    + apply Forall_cons_1 in Hcs as [(? & _) _]. done.
    + eapply Forall_impl; [exact Hcs|]. by intros u (_ & _ & _ & ?).
Qed.

Lemma initial_slashes_cases p :
  PosixPath.isabs p = true ->
  PosixPath.initial_slashes p = 1 \/ PosixPath.initial_slashes p = 2.
Proof.
  unfold PosixPath.isabs, PosixPath.initial_slashes. intros ->.
  case_match; auto.
Qed.

(** A normalized absolute path is a root followed by names. *)
Lemma normalized_abs_inv p :
  normalized p -> PosixPath.isabs p = true ->
  exists n cs, (n = 1 \/ n = 2) /\ Forall is_name cs /\ p = abs_path n cs.
Proof.
  intros Hnorm Habs.
  pose proof (initial_slashes_cases p Habs) as Hn.
  exists (PosixPath.initial_slashes p),
         (PosixPath.norm_comps (PosixPath.initial_slashes p) []
            (Py.split PosixPath.sep p)).
  split; [done|]. split.
  - apply norm_comps_is_name; [lia | done | apply split_sep_free].
  - unfold normalized, PosixPath.normpath in Hnorm.
    destruct (Py.str_eqb p []) eqn:Ep.
    { apply str_eqb_true in Ep. by subst. }
    assert (Nat.eqb (PosixPath.initial_slashes p) 0 = false) as E0
      by (apply Nat.eqb_neq; lia).
    rewrite E0 in Hnorm.
    set (q := replicate _ _ ++ _) in Hnorm.
    assert (Py.str_eqb q [] = false) as Eq.
    { apply str_eqb_false. subst q. by apply root_nonempty. }
    rewrite Eq in Hnorm. by rewrite <- Hnorm at 1.
Qed.

End AbsPaths.

Section PathOps.

Implicit Types (s p r u c : str) (cs st F T : list str) (n : nat).

Lemma forallb_not_sep s :
  PosixPath.sep ∉ s ->
  forallb (fun ch => negb (Py.eqc ch PosixPath.sep)) s = true.
Proof.
  induction s as [|x s IH]; [done|]. intros Hn.
  apply not_elem_of_cons in Hn as [Hx Hs]. simpl.
  rewrite IH by done. assert (Py.eqc x PosixPath.sep = false) as ->; [|done].
  apply eqc_false. congruence.
Qed.

Lemma forallb_root n : forallb (fun ch => Py.eqc ch PosixPath.sep) (root n) = true.
Proof.
  unfold root. induction n as [|n IH]; [done|].
  simpl replicate. cbn [forallb]. by rewrite eqc_refl, IH.
Qed.

Lemma rev_root n : rev (root n) = root n.
Proof.
  unfold root. induction n as [|n IH]; [done|].
  simpl. rewrite IH. clear IH.
  induction n as [|n IH]; [done|]. simpl. by rewrite IH.
Qed.

Lemma is_name_plain c : is_name c -> plain c.
Proof. by intros (? & _ & _ & ?). Qed.

Lemma is_name_sep_free cs :
  Forall is_name cs -> Forall (fun u => PosixPath.sep ∉ u) cs.
Proof. intros H. eapply Forall_impl; [exact H|]. by intros u (_ & _ & _ & ?). Qed.

Lemma head_to_last_sep s f :
  PosixPath.sep ∉ f ->
  rev (Py.dropwhile (fun ch => negb (Py.eqc ch PosixPath.sep))
         (rev (s ++ PosixPath.sep :: f)))
  = s ++ [PosixPath.sep].
Proof.
  intros Hf. rewrite rev_app_distr. simpl rev. rewrite <- app_assoc.
  simpl app. rewrite dropwhile_app.
  - simpl. by rewrite rev_involutive.
  - apply forallb_not_sep. intros Hin. apply Hf.
    by apply list_elem_of_In, in_rev, list_elem_of_In in Hin.
  - by rewrite eqc_refl.
Qed.

Lemma head_no_sep f :
  PosixPath.sep ∉ f ->
  rev (Py.dropwhile (fun ch => negb (Py.eqc ch PosixPath.sep)) (rev f)) = [].
Proof.
  intros Hf. rewrite dropwhile_all; [done|].
  apply forallb_not_sep. intros Hin. apply Hf.
  by apply list_elem_of_In, in_rev, list_elem_of_In in Hin.
Qed.

Lemma rstrip_one s x :
  x <> PosixPath.sep ->
  Py.rstrip PosixPath.sep ((s ++ [x]) ++ [PosixPath.sep]) = s ++ [x].
Proof.
  intros Hx. unfold Py.rstrip. rewrite !rev_app_distr. simpl.
  rewrite ?eqc_refl.
  assert (Py.eqc x PosixPath.sep = false) as -> by by apply eqc_false.
  simpl. by rewrite rev_involutive.
Qed.

Lemma dirname_eq p head :
  rev (Py.dropwhile (fun ch => negb (Py.eqc ch PosixPath.sep)) (rev p)) = head ->
  PosixPath.dirname p
  = if negb (Py.str_eqb head [])
       && negb (forallb (fun ch => Py.eqc ch PosixPath.sep) head)
    then Py.rstrip PosixPath.sep head else head.
Proof. by intros <-. Qed.

(** [dirname] of a path with at least one component after the root. *)
Lemma dirname_abs_path_snoc n cs f :
  n = 1 \/ n = 2 -> Forall is_name cs -> PosixPath.sep ∉ f ->
  PosixPath.dirname (abs_path n (cs ++ [f])) = abs_path n cs.
Proof.
  intros Hn Hcs Hf.
  destruct (decide (cs = [])) as [->|Hne].
  - unfold abs_path. simpl Py.join. rewrite app_nil_r.
    rewrite (dirname_eq _ (root n)).
    + by rewrite forallb_root, andb_false_r.
    + assert (exists q, root n = q ++ [PosixPath.sep]) as [q Hq].
      { destruct Hn as [-> | ->]; [by exists [] | by exists [PosixPath.sep]]. }
      rewrite Hq, <- app_assoc. simpl app. by apply head_to_last_sep.
  - unfold abs_path. rewrite join_snoc by done.
    destruct (join_names_no_trailing_sep cs Hcs Hne) as (r & x & Hj & Hx).
    rewrite (dirname_eq _ (((root n ++ r) ++ [x]) ++ [PosixPath.sep])).
    + assert (forallb (fun ch => Py.eqc ch PosixPath.sep)
                (((root n ++ r) ++ [x]) ++ [PosixPath.sep]) = false) as ->.
      { rewrite !forallb_app. simpl.
        assert (Py.eqc x PosixPath.sep = false) as -> by by apply eqc_false.
        by rewrite !andb_false_r. }
      assert (Py.str_eqb (((root n ++ r) ++ [x]) ++ [PosixPath.sep]) []
              = false) as ->.
      { apply str_eqb_false. by destruct ((root n ++ r) ++ [x]). }
      cbn [negb andb]. rewrite rstrip_one by done. by rewrite Hj, app_assoc.
    + rewrite <- head_to_last_sep with (f := f) by done.
      rewrite Hj. by rewrite <- !app_assoc.
Qed.

Lemma dirname_root n : PosixPath.dirname (abs_path n []) = abs_path n [].
Proof.
  unfold abs_path. simpl Py.join. rewrite app_nil_r.
  rewrite (dirname_eq _ (root n)).
  - by rewrite forallb_root, andb_false_r.
  - rewrite rev_root. destruct n as [|n]; [done|].
    change (root (S n)) with (PosixPath.sep :: root n) at 1.
    cbn [Py.dropwhile]. rewrite ?eqc_refl. cbn [negb].
    change (PosixPath.sep :: root n) with (root (S n)). apply rev_root.
Qed.

(** [dirname] of a normalized absolute path drops the last name. *)
Lemma dirname_abs_path n cs :
  n = 1 \/ n = 2 -> Forall is_name cs ->
  PosixPath.dirname (abs_path n cs) = abs_path n (removelast cs).
Proof.
  intros Hn Hcs. destruct (decide (cs = [])) as [->|Hne].
  - apply dirname_root.
  - destruct (exists_last Hne) as (cs' & f & ->).
    rewrite removelast_last. apply Forall_app in Hcs as [Hcs' Hf].
    apply Forall_cons_1 in Hf as [Hf _].
    apply dirname_abs_path_snoc; [done | done |]. by destruct Hf as (_&_&_&?).
Qed.

Lemma nonempty_comps_abs_path n cs :
  Forall is_name cs -> PosixPath.nonempty_comps (abs_path n cs) = cs.
Proof.
  intros Hcs. unfold PosixPath.nonempty_comps, abs_path.
  rewrite split_root, filter_app.
  assert (filter (fun x : str => x <> []) (replicate n ([] : str)) = []) as ->.
  { induction n as [|n IH]; [done|]. simpl.
    rewrite filter_cons_False; [done | by intros H]. }
  simpl. destruct (decide (cs = [])) as [->|Hne]; [done|].
  rewrite (split_join PosixPath.sep) by (by try apply is_name_sep_free).
  clear Hne. induction Hcs as [|c cs Hc Hcs IH]; [done|].
  rewrite filter_cons_True by (by destruct Hc). by rewrite IH.
Qed.

Lemma isabs_abs_path n cs : n = 1 \/ n = 2 -> PosixPath.isabs (abs_path n cs) = true.
Proof. intros [-> | ->]; apply startswith_spec; by eexists. Qed.

Lemma abspath_abs_path cwd n cs :
  n = 1 \/ n = 2 -> Forall is_name cs ->
  PosixPath.abspath cwd (abs_path n cs) = abs_path n cs.
Proof.
  intros Hn Hcs. unfold PosixPath.abspath.
  rewrite isabs_abs_path by done. by apply normpath_abs_path.
Qed.

Lemma endswith_sep_false s x :
  x <> PosixPath.sep -> Py.endswith (s ++ [x]) "/" = false.
Proof.
  intros Hx. apply not_true_is_false. rewrite endswith_spec.
  intros [r E]. apply app_inj_tail in E as [_ ->]. done.
Qed.

Lemma plain_Forall_last c : plain c -> exists r x, c = r ++ [x] /\ x <> PosixPath.sep.
Proof.
  intros [Hne Hs]. destruct (exists_last Hne) as (r & x & ->).
  exists r, x. split; [done|]. intros ->. apply Hs.
  apply elem_of_app. right. by left.
Qed.

Lemma plain_no_leading_sep c : plain c -> no_leading_sep c.
Proof.
  intros [Hne Hs]. destruct c as [|x c]; [done|]. simpl.
  intros ->. apply Hs. by left.
Qed.

(** [posixpath.join] of plain components is the join with slashes. *)
Lemma posix_join_plain a l :
  a <> [] -> Py.endswith a "/" = false -> Forall plain l ->
  PosixPath.join a l = Py.join "/" (a :: l).
Proof.
  intros Ha Hend Hl. revert a Ha Hend.
  induction Hl as [|b l Hb Hl IH]; intros a Ha Hend; [done|].
  unfold PosixPath.join. simpl foldl.
  assert (PosixPath.join2 a b = a ++ "/" ++ b) as ->.
  { unfold PosixPath.join2.
    rewrite startswith_sep by by apply plain_no_leading_sep.
    apply str_eqb_false in Ha. by rewrite Ha, Hend. }
  fold (PosixPath.join (a ++ "/" ++ b) l).
  destruct (plain_Forall_last b Hb) as (r & x & -> & Hx).
  rewrite IH.
  - destruct l as [|c l]; [done|].
    rewrite (join_cons _ (a ++ _)) by done.
    rewrite (join_cons _ a) by done.
    rewrite (join_cons _ (r ++ [x])) by done.
    by rewrite <- !app_assoc.
  - by destruct a.
  - rewrite !app_assoc. by apply endswith_sep_false.
Qed.

Lemma plain_pardir : plain PosixPath.pardir.
Proof.
  split; [done|]. intros Hin.
  by repeat (apply elem_of_cons in Hin as [Hin|Hin]; [done|]);
    apply elem_of_nil in Hin.
Qed.

Lemma plain_curdir : plain PosixPath.curdir.
Proof.
  split; [done|]. intros Hin.
  by repeat (apply elem_of_cons in Hin as [Hin|Hin]; [done|]);
    apply elem_of_nil in Hin.
Qed.

Lemma rel_comps_plain F T : Forall is_name T -> Forall plain (rel_comps F T).
Proof.
  intros HT. unfold rel_comps. apply Forall_app. split.
  - apply Forall_replicate, plain_pardir.
  - apply Forall_drop. eapply Forall_impl; [exact HT|]. apply is_name_plain.
Qed.

(** [relpath] between normalized absolute paths. *)
Lemma relpath_abs_path cwd n m T F :
  (n = 1 \/ n = 2) -> (m = 1 \/ m = 2) ->
  Forall is_name T -> Forall is_name F ->
  PosixPath.relpath cwd (abs_path n T) (abs_path m F)
  = Some (rel_string F T).
Proof.
  intros Hn Hm HT HF. unfold PosixPath.relpath.
  assert (Py.str_eqb (abs_path n T) [] = false) as ->.
  { apply str_eqb_false. by apply root_nonempty. }
  rewrite !abspath_abs_path, !nonempty_comps_abs_path by done.
  fold (rel_comps F T). unfold rel_string.
  pose proof (rel_comps_plain F T HT) as Hpl.
  destruct (rel_comps F T) as [|a l]; [done|].
  apply Forall_cons_1 in Hpl as [Ha Hl].
  f_equal. apply posix_join_plain; [by destruct Ha | | done].
  destruct (plain_Forall_last a Ha) as (r & x & -> & Hx).
  by apply endswith_sep_false.
Qed.

End PathOps.

Section RoundTrip.

Implicit Types (s p r u c : str) (cs st F T A B P X : list str) (n : nat).

Lemma replace_absent s (x : ascii) new : x ∉ s -> Py.replace s [x] new = s.
Proof.
  unfold Py.replace. induction s as [|y s IH]; [done|]. intros Hn.
  apply not_elem_of_cons in Hn as [Hy Hs]. cbn [Py.replace_go Py.startswith].
  assert (Py.eqc x y = false) as -> by by apply eqc_false.
  cbn [andb]. by rewrite IH.
Qed.

Lemma re_sub_suffix_hit sfx new r : Py.re_sub_suffix sfx new (r ++ sfx) = r ++ new.
Proof.
  unfold Py.re_sub_suffix. rewrite endswith_app.
  rewrite length_app, Nat.add_sub. by rewrite take_app_length.
Qed.

Lemma re_sub_suffix_miss sfx (y : ascii) new r (x : ascii) :
  x <> y -> x <> Py.nl ->
  Py.re_sub_suffix (sfx ++ [y]) new (r ++ [x]) = r ++ [x].
Proof.
  intros Hy Hnl. unfold Py.re_sub_suffix.
  assert (Py.endswith (r ++ [x]) (sfx ++ [y]) = false) as ->.
  { apply not_true_is_false. intros H. apply endswith_last in H as [q E].
    apply app_inj_tail in E as [_ ?]. done. }
  assert (Py.endswith (r ++ [x]) ((sfx ++ [y]) ++ [Py.nl]) = false) as ->.
  { apply not_true_is_false. intros H. apply endswith_last in H as [q E].
    apply app_inj_tail in E as [_ ?]. done. }
  done.
Qed.

Lemma commonprefix_split F T :
  exists A B, F = PosixPath.commonprefix F T ++ A
              /\ T = PosixPath.commonprefix F T ++ B.
Proof.
  revert T. induction F as [|x F IH]; intros T.
  - by exists [], T.
  - destruct T as [|y T]; [by exists (x :: F), []|]. simpl.
    destruct (Py.str_eqb x y) eqn:E.
    + apply str_eqb_true in E as ->. destruct (IH T) as (A & B & HA & HB).
      exists A, B. simpl. by rewrite <- HA, <- HB.
    + by exists (x :: F), (y :: T).
Qed.

Lemma rel_comps_split F T A B :
  F = PosixPath.commonprefix F T ++ A ->
  T = PosixPath.commonprefix F T ++ B ->
  rel_comps F T = replicate (length A) PosixPath.pardir ++ B.
Proof.
  intros HA HB. unfold rel_comps.
  set (P := PosixPath.commonprefix F T) in *.
  rewrite HA at 1. rewrite length_app, Nat.add_comm, Nat.add_sub.
  rewrite HB at 1. by rewrite drop_app_length.
Qed.

(** [join] of the directory of a normalized absolute path and a relative
    path given by plain components. *)
Lemma join2_abs_path n F X :
  n = 1 \/ n = 2 -> Forall is_name F -> X <> [] -> Forall plain X ->
  PosixPath.join (abs_path n F) [Py.join "/" X]
  = root n ++ Py.join "/" (F ++ X).
Proof.
  intros Hn HF HX HpX. unfold PosixPath.join. simpl foldl.
  unfold PosixPath.join2.
  assert (no_leading_sep (Py.join "/" X)) as Hlead.
  { destruct X as [|x X]; [done|]. apply Forall_cons_1 in HpX as [Hx _].
    pose proof (plain_no_leading_sep x Hx) as Hl.
    destruct x as [|a x]; [by destruct Hx|]. by rewrite join_head. }
  rewrite startswith_sep by done.
  assert (Py.str_eqb (abs_path n F) [] = false) as ->.
  { apply str_eqb_false. by apply root_nonempty. }
  cbn [orb]. destruct (decide (F = [])) as [->|HFne].
  - unfold abs_path. change (Py.join "/" []) with ([] : str).
    rewrite app_nil_r.
    assert (Py.endswith (root n) "/" = true) as ->; [|done].
    apply endswith_spec.
    destruct Hn as [-> | ->]; [by exists [] | by exists [PosixPath.sep]].
  - destruct (join_names_no_trailing_sep F HF HFne) as (r & x & Hj & Hx).
    unfold abs_path. rewrite Hj, app_assoc.
    rewrite endswith_sep_false by done.
    rewrite join_app by done. rewrite Hj. by rewrite <- !app_assoc.
Qed.

(** Resolving the components of a relative path from a directory. *)
Lemma normpath_rel_comps n P A B pre :
  n = 1 \/ n = 2 -> Forall is_name (P ++ A) -> Forall is_name (P ++ B) ->
  pre = [] \/ pre = [PosixPath.curdir] ->
  pre ++ replicate (length A) PosixPath.pardir ++ B <> [] ->
  PosixPath.normpath
    (root n ++ Py.join "/"
       ((P ++ A) ++ pre ++ replicate (length A) PosixPath.pardir ++ B))
  = abs_path n (P ++ B).
Proof.
  intros Hn HF HT Hpre Hne.
  set (X := pre ++ replicate (length A) PosixPath.pardir ++ B) in *.
  assert (Forall plain X) as HX.
  { subst X. apply Forall_app. split.
    - destruct Hpre as [-> | ->]; [done|].
      apply Forall_cons_2; [apply plain_curdir | done].
    - apply Forall_app. split; [apply Forall_replicate, plain_pardir|].
      apply Forall_app in HT as [_ HB].
      eapply Forall_impl; [exact HB | apply is_name_plain]. }
  assert (Forall plain ((P ++ A) ++ X)) as Hall.
  { apply Forall_app. split; [|done].
    eapply Forall_impl; [exact HF | apply is_name_plain]. }
  destruct ((P ++ A) ++ X) as [|x l] eqn:E.
  { apply app_eq_nil in E as [_ ?]. done. }
  rewrite normpath_root_join; [| done | |].
  - f_equal. rewrite <- E. rewrite norm_comps_app_names by done.
    rewrite app_nil_r. subst X.
    assert (PosixPath.norm_comps n (rev (P ++ A))
              (pre ++ replicate (length A) PosixPath.pardir ++ B)
            = PosixPath.norm_comps n (rev (P ++ A))
              (replicate (length A) PosixPath.pardir ++ B)) as ->.
    { by destruct Hpre as [-> | ->]. }
    rewrite rev_app_distr. rewrite <- (length_rev A).
    apply Forall_app in HF as [HP HA]. apply Forall_app in HT as [_ HB].
    rewrite norm_comps_pop; [| lia | by apply Forall_rev].
    rewrite norm_comps_names by done. by rewrite rev_involutive.
  - apply Forall_cons_1 in Hall as [[? _] _]. done.
  - eapply Forall_impl; [exact Hall|]. by intros u [_ ?].
Qed.

End RoundTrip.

Section RoundTripTheorem.

Implicit Types (s p r u c : str) (cs st F T A B P X : list str) (n : nat).

Lemma join_last X c : Py.join "/" (X ++ [c]) = join_pre X ++ c.
Proof.
  destruct X as [|x X]; [done|]. unfold join_pre.
  rewrite join_snoc by done. by rewrite <- app_assoc.
Qed.

Lemma suffix_after_sep (a b q s : str) :
  a ++ [PosixPath.sep] ++ b = q ++ s -> PosixPath.sep ∉ s ->
  exists b0, b = b0 ++ s.
Proof.
  intros E Hs. rewrite app_assoc in E.
  apply app_eq_inv in E as [(k & E1 & E2) | (k & E1 & E2)].
  - destruct (decide (k = [])) as [->|Hk].
    + exists []. by rewrite E2.
    + exfalso. apply Hs. destruct (exists_last Hk) as (k' & y & ->).
      rewrite app_assoc in E1. apply app_inj_tail in E1 as [_ <-].
      rewrite E2. apply elem_of_app. left. apply elem_of_app. right. by left.
  - by exists k.
Qed.

Lemma abs_path_snoc n T0 t :
  n = 1 \/ n = 2 ->
  exists q, abs_path n (T0 ++ [t]) = q ++ [PosixPath.sep] ++ t.
Proof.
  intros Hn. unfold abs_path. rewrite join_last.
  destruct T0 as [|x T0].
  - destruct Hn as [-> | ->]; [by exists [] | by exists [PosixPath.sep]].
  - exists (root n ++ Py.join "/" (x :: T0)). unfold join_pre.
    by rewrite <- !app_assoc.
Qed.

Lemma root_not_endswith n sfx :
  sfx <> [] -> PosixPath.sep ∉ sfx -> Py.endswith (root n) sfx = false.
Proof.
  intros Hne Hs. apply not_true_is_false. rewrite endswith_spec.
  intros [r E]. destruct (exists_last Hne) as (s' & x & ->).
  apply Hs. apply elem_of_app. right.
  assert (x ∈ root n) as Hx.
  { rewrite E. apply elem_of_app. right. apply elem_of_app. right. by left. }
  apply elem_of_replicate in Hx as [-> _]. by left.
Qed.

(** The last name of a path carries a suffix of the path that has no
    separator. *)
Lemma abs_path_endswith n T sfx :
  n = 1 \/ n = 2 -> sfx <> [] -> PosixPath.sep ∉ sfx ->
  Py.endswith (abs_path n T) sfx = true ->
  exists T0 t0, T = T0 ++ [t0 ++ sfx].
Proof.
  intros Hn Hne Hs Hend. destruct (decide (T = [])) as [->|HT].
  - unfold abs_path in Hend. change (Py.join "/" []) with ([] : str) in Hend.
    rewrite app_nil_r, root_not_endswith in Hend by done. done.
  - destruct (exists_last HT) as (T0 & t & ->).
    destruct (abs_path_snoc n T0 t Hn) as [q Hq].
    apply endswith_spec in Hend as [r Hr]. rewrite Hq in Hr.
    apply suffix_after_sep in Hr as [t0 ->]; [|done]. by exists T0, t0.
Qed.

Lemma make_relative_abs_path cwd n m F T from :
  (n = 1 \/ n = 2) -> (m = 1 \/ m = 2) ->
  Forall is_name T -> Forall is_name F ->
  PosixPath.dirname from = abs_path m F ->
  make_relative cwd from (abs_path n T)
  = Some (dot_slash (Py.re_sub_suffix ".ts" ".js"
                       (Py.replace (rel_string F T) "\" "/"))).
Proof.
  intros Hn Hm HT HF Hdir. unfold make_relative. rewrite Hdir.
  by rewrite relpath_abs_path.
Qed.

Lemma join_pardirs_last k :
  exists r, Py.join "/" (replicate (S k) PosixPath.pardir) = r ++ ["."%char].
Proof.
  rewrite replicate_S_end, join_last.
  by exists (join_pre (replicate k PosixPath.pardir) ++ ["."%char]); rewrite <- app_assoc.
Qed.

Lemma join_curdir X :
  X <> [] -> "./" ++ Py.join "/" X = Py.join "/" (PosixPath.curdir :: X).
Proof. intros HX. by rewrite join_cons. Qed.

Lemma rel_string_nil F T : rel_comps F T = [] -> rel_string F T = PosixPath.curdir.
Proof. unfold rel_string. by intros ->. Qed.

Lemma rel_string_join F T :
  rel_comps F T <> [] -> rel_string F T = Py.join "/" (rel_comps F T).
Proof. unfold rel_string. by destruct (rel_comps F T). Qed.

(** The round trip on paths given by their components. *)
Lemma round_trip_abs_path cwd n F T from :
  n = 1 \/ n = 2 -> Forall is_name F -> Forall is_name T ->
  PosixPath.dirname from = abs_path n F ->
  Py.endswith (abs_path n T) ".ts" = true ->
  backslash ∉ rel_string F T ->
  exists rel,
    make_relative cwd from (abs_path n T) = Some rel
    /\ resolve_import from rel = abs_path n T.
Proof.
  intros Hn HF HT Hdir Hts Hbs.
  rewrite (make_relative_abs_path cwd n n F T) by done.
  eexists. split; [done|].
  replace (Py.replace (rel_string F T) "\" "/") with (rel_string F T)
    by (symmetry; by apply (replace_absent _ backslash)).
  unfold resolve_import. rewrite Hdir.
  destruct (commonprefix_split F T) as (A & B & HA & HB).
  pose proof (rel_comps_split F T A B HA HB) as Hrel.
  set (P := PosixPath.commonprefix F T) in *.
  assert (Forall is_name (P ++ A)) as HF' by by rewrite <- HA.
  assert (Forall is_name (P ++ B)) as HT' by by rewrite <- HB.
  destruct (decide (B = [])) as [->|HB0].
  - (* the target is the directory or one of its parents *)
    rewrite app_nil_r in Hrel.
    assert (exists r X pre,
              rel_string F T = r ++ ["."%char]
              /\ r ++ ["."%char] = Py.join "/" X
              /\ X = pre ++ replicate (length A) PosixPath.pardir ++ []
              /\ (pre = [] \/ pre = [PosixPath.curdir]) /\ X <> []
              /\ Py.startswith (r ++ ["."%char]) "." = true)
      as (r & X & pre & -> & HrX & HX & Hpre & HXne & Hdot).
    { destruct (length A) as [|k].
      - exists [], [PosixPath.curdir], [PosixPath.curdir].
        rewrite rel_string_nil by done. repeat split; auto.
      - destruct (join_pardirs_last k) as [r Hr].
        exists r, (replicate (S k) PosixPath.pardir), [].
        rewrite rel_string_join by (by rewrite Hrel).
        rewrite Hrel, app_nil_r, <- Hr. split_and!; auto.
        cbn [replicate].
        change PosixPath.pardir with ("."%char :: ["."%char]) at 1.
        rewrite join_head. apply startswith_spec. by eexists. }
    rewrite (re_sub_suffix_miss ".t" "s") by done.
    unfold dot_slash. rewrite Hdot. cbn [negb].
    rewrite (re_sub_suffix_miss ".j" "s") by done.
    rewrite HrX, join2_abs_path; [| assumption | assumption | assumption |].
    + rewrite HA, HX, HB.
      apply normpath_rel_comps; [assumption .. | by rewrite <- HX].
    + rewrite HX. apply Forall_app. split.
      * destruct Hpre as [-> | ->]; [done|].
        apply Forall_cons_2; [apply plain_curdir | done].
      * rewrite app_nil_r. apply Forall_replicate, plain_pardir.
  - (* the target has names below the common directory *)
    destruct (abs_path_endswith n T ".ts" Hn) as (T0 & t0 & HT0); try done.
    { intros Hin. by repeat (apply elem_of_cons in Hin as [Hin|Hin]; [done|]);
        apply elem_of_nil in Hin. }
    destruct (exists_last HB0) as (B0 & t & ->).
    assert (t = t0 ++ ".ts") as ->.
    { rewrite HT0, app_assoc in HB. by apply app_inj_tail in HB as [_ ?]. }
    set (X := replicate (length A) PosixPath.pardir ++ B0 ++ [t0 ++ ".ts"]).
    assert (X <> []) as HXne.
    { subst X. intros E. apply app_eq_nil in E as [_ E].
      by apply app_eq_nil in E as [_ ?]. }
    assert (Forall plain X) as HpX.
    { subst X. apply Forall_app. split; [apply Forall_replicate, plain_pardir|].
      apply Forall_app in HT' as [_ HB']. 
      eapply Forall_impl; [exact HB' | apply is_name_plain]. }
    assert (exists w, Py.join "/" X = w ++ ".ts") as [w Hw].
    { subst X. rewrite app_assoc, join_last. eexists. by rewrite app_assoc. }
    assert (rel_string F T = w ++ ".ts") as ->.
    { rewrite rel_string_join by (by rewrite Hrel). by rewrite Hrel. }
    rewrite re_sub_suffix_hit.
    assert (exists pre, (pre = [] \/ pre = [PosixPath.curdir])
                        /\ dot_slash (w ++ ".js")
                           = (Py.join "/" pre ++ if bool_decide (pre = []) then [] else "/")
                             ++ w ++ ".js"
                        /\ (Py.join "/" pre ++ if bool_decide (pre = []) then [] else "/")
                           ++ Py.join "/" X = Py.join "/" (pre ++ X))
      as (pre & Hpre & -> & Hjoin).
    { unfold dot_slash. destruct (Py.startswith (w ++ ".js") ".").
      - exists []. by auto.
      - exists [PosixPath.curdir]. split; [by right|]. split; [done|].
        apply join_curdir. done. }
    rewrite app_assoc, re_sub_suffix_hit, <- app_assoc, <- Hw, Hjoin.
    rewrite join2_abs_path; [| assumption | assumption | |].
    + rewrite HA, HB. subst X.
      apply normpath_rel_comps; [assumption .. |]. by destruct pre.
    + by destruct pre.
    + apply Forall_app. split; [|done].
      destruct Hpre as [-> | ->]; [done|].
      apply Forall_cons_2; [apply plain_curdir | done].
Qed.

End RoundTripTheorem.

Section CharsOfPaths.

Implicit Types (s p r u c : str) (cs st F T A B P X : list str) (n : nat).

Lemma not_elem_of_join (x : ascii) X :
  x <> PosixPath.sep -> Forall (fun c => x ∉ c) X -> x ∉ Py.join "/" X.
Proof.
  intros Hx HX. induction HX as [|c X Hc HX IH]; [apply not_elem_of_nil|].
  destruct X as [|d X]; [done|]. rewrite join_cons by done.
  rewrite !not_elem_of_app. split; [done|]. split; [|done].
  apply not_elem_of_cons. split; [done | apply not_elem_of_nil].
Qed.

Lemma not_elem_of_join_inv (x : ascii) X :
  x ∉ Py.join "/" X -> Forall (fun c => x ∉ c) X.
Proof.
  induction X as [|c X IH]; [done|]. destruct X as [|d X].
  - intros H. by repeat constructor.
  - rewrite join_cons by done. rewrite !not_elem_of_app.
    intros (Hc & _ & Hrest). constructor; [done | by apply IH].
Qed.

Lemma not_elem_of_abs_path_inv (x : ascii) n T :
  x ∉ abs_path n T -> Forall (fun c => x ∉ c) T.
Proof.
  unfold abs_path. rewrite not_elem_of_app. intros [_ H].
  by apply not_elem_of_join_inv.
Qed.

Lemma not_elem_of_rel_string (x : ascii) F T :
  x <> PosixPath.sep -> x <> "."%char ->
  Forall (fun c => x ∉ c) (drop (length (PosixPath.commonprefix F T)) T) ->
  x ∉ rel_string F T.
Proof.
  intros Hsep Hdot HT.
  assert (x ∉ PosixPath.curdir) as Hcur.
  { apply not_elem_of_cons. split; [done | apply not_elem_of_nil]. }
  assert (x ∉ PosixPath.pardir) as Hpar.
  { apply not_elem_of_cons. split; [done|].
    apply not_elem_of_cons. split; [done | apply not_elem_of_nil]. }
  unfold rel_string. destruct (rel_comps F T) as [|a l] eqn:E; [done|].
  rewrite <- E. apply not_elem_of_join; [done|]. unfold rel_comps.
  apply Forall_app. split; [by apply Forall_replicate | done].
Qed.

Lemma Forall_removelast {E : Type} (Q : E -> Prop) (l : list E) :
  Forall Q l -> Forall Q (removelast l).
Proof.
  intros Hl. destruct l as [|x l0]; [done|].
  destruct (exists_last (l := x :: l0)) as (l' & a & Heq); [done|].
  rewrite Heq in *. rewrite removelast_last. by apply Forall_app in Hl as [? _].
Qed.

End CharsOfPaths.

(** * The claims *)

(** C1 (as amended).  Round trip of [make_relative] and [resolve_import]:
    for normalized absolute paths [from_file] and [to_file] with the same
    root (both begin with one slash, or both with exactly two), where
    [to_file] ends in [.ts] and contains no backslash, [make_relative]
    returns a string and [resolve_import] maps that string, resolved from
    [from_file], back to [to_file].  With [from_file] the new location of a
    referencing file and [to_file] the new location [new_path_of target
    moves] of the target of one of its imports, this is the round trip of
    the rewritten reference. *)
Theorem make_relative_resolve_import_round_trip (cwd from_file to_file : str) :
  normalized from_file -> normalized to_file ->
  PosixPath.isabs from_file = true -> PosixPath.isabs to_file = true ->
  PosixPath.initial_slashes from_file = PosixPath.initial_slashes to_file ->
  Py.endswith to_file ".ts" = true ->
  backslash ∉ to_file ->
  exists rel,
    make_relative cwd from_file to_file = Some rel
    /\ resolve_import from_file rel = to_file.
Proof.
  intros Hnf Hnt Haf Hat Hroot Hts Hbs.
  destruct (normalized_abs_inv from_file Hnf Haf) as (m & F & Hm & HF & ->).
  destruct (normalized_abs_inv to_file Hnt Hat) as (n & T & Hn & HT & ->).
  assert (m = n) as ->.
  { unfold abs_path in Hroot.
    rewrite !initial_slashes_root in Hroot
      by (done || by apply join_names_no_leading_sep).
    done. }
  apply (round_trip_abs_path cwd n (removelast F) T); try done.
  - by apply Forall_removelast.
  - by apply dirname_abs_path.
  - apply not_elem_of_rel_string; [done | done |].
    apply Forall_drop. by apply not_elem_of_abs_path_inv with n.
Qed.

Ltac by_eval := vm_compute; reflexivity.
Ltac by_decide := apply (bool_decide_unpack _); vm_compute; exact I.

Lemma make_relative_resolve_import_round_trip_witness :
  (normalized "/repo/src/b.ts" /\ normalized "/repo/src/sub/a.ts"
   /\ backslash ∉ ("/repo/src/sub/a.ts" : str))
  /\ exists rel,
       make_relative "/" "/repo/src/b.ts" "/repo/src/sub/a.ts" = Some rel
       /\ resolve_import "/repo/src/b.ts" rel = "/repo/src/sub/a.ts".
Proof.
  split.
  - split; [by_eval|]. split; [by_eval | by_decide].
  - apply make_relative_resolve_import_round_trip;
      first [by_eval | by_decide].
Defined.

(** C1, counterexamples.  On POSIX a backslash is an ordinary character of
    a file name, and [make_relative] turns it into a slash; and [relpath]
    does not distinguish the root [//] from the root [/]. *)
Lemma round_trip_counterexample :
  (normalized "/a/b.ts" /\ normalized "/a/x\y.ts"
   /\ PosixPath.isabs "/a/b.ts" = true /\ PosixPath.isabs "/a/x\y.ts" = true
   /\ Py.endswith "/a/b.ts" ".ts" = true /\ Py.endswith "/a/x\y.ts" ".ts" = true
   /\ make_relative "/" "/a/b.ts" "/a/x\y.ts" = Some ("./x/y.js" : str)
   /\ resolve_import "/a/b.ts" "./x/y.js" = "/a/x/y.ts"
   /\ resolve_import "/a/b.ts" "./x/y.js" <> "/a/x\y.ts")
  /\
  (normalized "//a/b.ts" /\ normalized "/a/c.ts"
   /\ PosixPath.isabs "//a/b.ts" = true /\ PosixPath.isabs "/a/c.ts" = true
   /\ Py.endswith "//a/b.ts" ".ts" = true /\ Py.endswith "/a/c.ts" ".ts" = true
   /\ make_relative "/" "//a/b.ts" "/a/c.ts" = Some ("./c.js" : str)
   /\ resolve_import "//a/b.ts" "./c.js" = "//a/c.ts"
   /\ resolve_import "//a/b.ts" "./c.js" <> "/a/c.ts").
Proof. split; split_and!; try by_eval; by vm_compute. Qed.

(** C3.  Identity default of the destination lookup: for a normalized path
    that is not a key of the move mapping [new_path_of] returns the path
    itself, and for one that is a key it returns the mapped destination. *)
Theorem new_path_of_identity_default (moves : gmap str str) (p : str) :
  normalized p ->
  (moves !! p = None -> new_path_of p moves = p)
  /\ (forall d, moves !! p = Some d -> new_path_of p moves = d).
Proof.
  intros Hp. unfold new_path_of. rewrite Hp. split.
  - by intros ->.
  - by intros d ->.
Qed.

Lemma new_path_of_identity_default_witness :
  normalized "/repo/src/b.ts"
  /\ new_path_of "/repo/src/b.ts"
       {[ ("/repo/src/a.ts" : str) := ("/repo/src/sub/a.ts" : str) ]}
     = "/repo/src/b.ts"
  /\ normalized "/repo/src/a.ts"
  /\ new_path_of "/repo/src/a.ts"
       {[ ("/repo/src/a.ts" : str) := ("/repo/src/sub/a.ts" : str) ]}
     = "/repo/src/sub/a.ts".
Proof.
  split; [by_eval|]. split.
  - refine (proj1 (new_path_of_identity_default _ "/repo/src/b.ts" _) _);
      by_eval.
  - split; [by_eval|].
    refine (proj2 (new_path_of_identity_default _ "/repo/src/a.ts" _) _ _);
      by_eval.
Defined.

(** * Facts about the effects *)

Section Effects.

Context {FS : Type} {os : OS FS}.

Implicit Types (w : world FS) (e : error) (ev : event).

Lemma bind_unfold {A B} (m : M FS A) (k : A -> M FS B) w :
  (m ≫= k) w = match m w with
                | (w', inr a) => k a w'
                | (w', inl e) => (w', inl e)
                end.
Proof. done. Qed.

Lemma bind_inv {A B} (m : M FS A) (k : A -> M FS B) w w' r :
  (m ≫= k) w = (w', r) ->
  (exists e, m w = (w', inl e) /\ r = inl e)
  \/ (exists w1 a, m w = (w1, inr a) /\ k a w1 = (w', r)).
Proof.
  rewrite bind_unfold. destruct (m w) as [w1 [e|a]].
  - intros [= <- <-]. left. by exists e.
  - intros Hk. right. by exists w1, a.
Qed.

Lemma ret_inv {A} (a : A) w w' (r : error + A) :
  (mret a : M FS A) w = (w', r) -> w' = w /\ r = inr a.
Proof. by intros [= <- <-]. Qed.

Lemma emit_inv ev w w' (r : error + unit) :
  emit ev w = (w', r) -> w' = World (disk w) (log w ++ [ev]) /\ r = inr tt.
Proof. by intros [= <- <-]. Qed.

Lemma of_option_inv {A} (o : option A) e w w' (r : error + A) :
  of_option o e w = (w', r) ->
  w' = w /\ ((exists a, o = Some a /\ r = inr a) \/ (o = None /\ r = inl e)).
Proof. destruct o; intros [= <- <-]; eauto. Qed.

Lemma effect_inv (op : FS -> option FS) e w w' (r : error + unit) :
  effect op e w = (w', r) ->
  (exists d, op (disk w) = Some d /\ w' = World d (log w) /\ r = inr tt)
  \/ (op (disk w) = None /\ w' = w /\ r = inl e).
Proof.
  unfold effect. destruct (op (disk w)) eqn:E; intros [= <- <-]; eauto.
Qed.

Lemma query_inv {A} (op : FS -> option A) e w w' (r : error + A) :
  query op e w = (w', r) ->
  w' = w /\ ((exists a, op (disk w) = Some a /\ r = inr a)
             \/ (op (disk w) = None /\ r = inl e)).
Proof.
  unfold query. destruct (op (disk w)) eqn:E; intros [= <- <-]; eauto.
Qed.

Section Does.

Variable Pev : event -> Prop.
Variable Perr : error -> Prop.
Variable Qd : FS -> FS -> Prop.
Context {Qd_pre : PreOrder Qd}.

Lemma does_ret {A} (a : A) : does Pev Perr Qd (mret a : M FS A).
Proof.
  intros w w' r [= <- <-]. split; [|split; [reflexivity | done]].
  exists []. by rewrite app_nil_r.
Qed.

Lemma does_raise {A} e : Perr e -> does Pev Perr Qd (raise e : M FS A).
Proof.
  intros He w w' r [= <- <-]. split; [|split; [reflexivity|]].
  - exists []. by rewrite app_nil_r.
  - by intros ? [= <-].
Qed.

Lemma does_of_option {A} (o : option A) e :
  Perr e -> does Pev Perr Qd (of_option o e : M FS A).
Proof. intros He. destruct o; [apply does_ret | by apply does_raise]. Qed.

Lemma does_emit ev : Pev ev -> does Pev Perr Qd (emit ev : M FS unit).
Proof.
  intros Hev w w' r [= <- <-]. simpl. split; [|split; [reflexivity | done]].
  exists [ev]. split; [done | by repeat constructor].
Qed.

Lemma does_query {A} (op : FS -> option A) e :
  Perr e -> does Pev Perr Qd (query op e).
Proof.
  intros He w w' r. unfold query. destruct (op (disk w)); intros [= <- <-].
  - split; [|split; [reflexivity | done]]. exists []. by rewrite app_nil_r.
  - split; [|split; [reflexivity|]].
    + exists []. by rewrite app_nil_r.
    + by intros ? [= <-].
Qed.

Lemma does_effect (op : FS -> option FS) e :
  Perr e -> (forall d d', op d = Some d' -> Qd d d') ->
  does Pev Perr Qd (effect op e).
Proof.
  intros He Hop w w' r. unfold effect.
  destruct (op (disk w)) as [d'|] eqn:E; intros [= <- <-]; simpl.
  - split; [|split; [by apply Hop | done]]. exists []. by rewrite app_nil_r.
  - split; [|split; [reflexivity|]].
    + exists []. by rewrite app_nil_r.
    + by intros ? [= <-].
Qed.

Lemma does_bind {A B} (m : M FS A) (k : A -> M FS B) :
  does Pev Perr Qd m -> (forall a, does Pev Perr Qd (k a)) ->
  does Pev Perr Qd (m ≫= k).
Proof.
  intros Hm Hk w w' r Hrun.
  apply bind_inv in Hrun as [(e & Hm' & ->) | (w1 & a & Hm' & Hk')].
  - destruct (Hm _ _ _ Hm') as (Hev & Hd & Herr).
    split; [done|]. split; [done|]. intros e' [= <-]. by apply Herr.
  - destruct (Hm _ _ _ Hm') as ((evs1 & Hl1 & He1) & Hd1 & _).
    destruct (Hk _ _ _ _ Hk') as ((evs2 & Hl2 & He2) & Hd2 & Herr).
    split; [|split; [by etrans | done]].
    exists (evs1 ++ evs2). rewrite Hl2, Hl1, <- app_assoc.
    split; [done | by apply Forall_app].
Qed.

Lemma does_for_each {X} (l : list X) (body : X -> M FS unit) :
  (forall x, does Pev Perr Qd (body x)) -> does Pev Perr Qd (for_each l body).
Proof.
  intros Hbody. induction l as [|x l IH]; [apply does_ret|].
  simpl. apply does_bind; [apply Hbody | by intros _].
Qed.

Lemma does_for_fold {X A} (l : list X) (acc : A) (body : A -> X -> M FS A) :
  (forall a x, does Pev Perr Qd (body a x)) ->
  does Pev Perr Qd (for_fold l acc body).
Proof.
  intros Hbody. revert acc. induction l as [|x l IH]; intros acc;
    [apply does_ret|].
  simpl. apply does_bind; [apply Hbody | done].
Qed.

End Does.

End Effects.

(** Inversion of a run along its binds. *)
Ltac m_inv :=
  repeat (match goal with
  | H : (_ ≫= _) _ = (_, _) |- _ =>
      apply bind_inv in H as [(? & H & ?) | (? & ? & ? & H)]
  | H : emit _ _ = (_, _) |- _ => apply emit_inv in H as [? ?]
  | H : effect _ _ _ = (_, _) |- _ =>
      apply effect_inv in H as [(? & ? & ? & ?) | (? & ? & ?)]
  | H : query _ _ _ = (_, _) |- _ =>
      apply query_inv in H as [? [(? & ? & ?) | (? & ?)]]
  | H : of_option _ _ _ = (_, _) |- _ =>
      apply of_option_inv in H as [? [(? & ? & ?) | (? & ?)]]
  | H : mret _ _ = (_, _) |- _ => apply ret_inv in H as [? ?]
  end; simplify_eq; simpl in *).


(** Tactics that decompose a computation along its binds and loops. *)
Ltac d_ret := apply does_ret; apply _.
Ltac d_bind := apply does_bind; [apply _ | |].
Ltac d_emit := apply does_emit; [apply _ |].
Ltac d_query := apply does_query; [apply _ |].
Ltac d_option := apply does_of_option; [apply _ |].
Ltac d_effect := apply does_effect; [apply _ | |].
Ltac d_each := apply does_for_each; [apply _ |].
Ltac d_fold := apply does_for_fold; [apply _ |].

Section Phases.

Context {FS : Type} {os : OS FS}.
Variable cwd : str.
Variable BASE : str.

Implicit Types (w : world FS) (e : error) (ev : event) (moves : gmap str str).

(** Step 1 reads: it changes nothing and appends no move and no write. *)
Lemma compute_updates_does moves all_files :
  does (fun ev => ~ is_write ev /\ ~ is_git_mv ev) not_move_error eq
       (compute_updates cwd moves all_files).
Proof.
  unfold compute_updates.
  d_fold. intros updates old_abs.
  d_bind; [d_emit; by split; intros []|]. intros _.
  d_bind; [by d_query|]. intros content.
  d_bind; [by d_option|]. intros [[new_abs new_content] changed]. d_ret.
Qed.

Global Instance any_change_pre : PreOrder (@any_change FS).
Proof. by split. Qed.

(** Step 2 only moves: no file is written. *)
Lemma move_one_does moves repo_root old_abs :
  does (fun ev => ~ is_write ev) (fun _ => True) moves_only
       (move_one cwd moves repo_root old_abs).
Proof.
  unfold move_one. d_bind; [by d_option|]. intros new_abs.
  d_bind; [d_emit; by intros []|]. intros _.
  d_bind. { d_effect; [done|]. intros d d' Hd. apply rtc_once. by eleft. }
  intros _. d_bind; [d_emit; by intros []|]. intros _.
  d_bind. { d_effect; [done|]. intros d d' Hd. apply rtc_once. by eright. }
  intros _. d_bind; [by d_option|]. intros r_old.
  d_bind; [by d_option|]. intros r_new. d_emit. by intros [].
Qed.

Lemma apply_moves_does moves repo_root :
  does (fun ev => ~ is_write ev) (fun _ => True) moves_only
       (apply_moves cwd moves repo_root).
Proof. unfold apply_moves. d_each. intros k. apply move_one_does. Qed.

(** Step 3 only writes and prints: no file is moved, and no error is that
    of a failed move. *)
Lemma flush_one_does repo_root u :
  does (fun ev => ~ is_git_mv ev) not_move_error any_change
       (flush_one cwd repo_root u).
Proof.
  destruct u as [old_abs [new_abs new_content]]. unfold flush_one.
  d_bind; [d_emit; by intros []|]. intros _.
  d_bind; [by d_effect|]. intros _.
  destruct (Py.str_eqb old_abs new_abs); [|d_ret].
  d_bind; [by d_option|]. intros r. d_emit. by intros [].
Qed.

Lemma flush_updates_does repo_root updates :
  does (fun ev => ~ is_git_mv ev) not_move_error any_change
       (flush_updates cwd repo_root updates).
Proof. unfold flush_updates. d_each. intros u. apply flush_one_does. Qed.

End Phases.

Section Traces.

Context {FS : Type} {os : OS FS}.
Variable cwd : str.
Variable BASE : str.

Implicit Types (w : world FS) (e : error) (ev : event) (moves : gmap str str).

Lemma git_moves_app l l' : git_moves (l ++ l') = git_moves l ++ git_moves l'.
Proof. apply omap_app. Qed.

Lemma writes_app l l' : writes (l ++ l') = writes l ++ writes l'.
Proof. apply omap_app. Qed.

Lemma moved_cons moves repo_root k ks (d : FS) new d1 d2 :
  moves !! k = Some new ->
  makedirs d (PosixPath.dirname new) = Some d1 ->
  git_mv d1 repo_root k new = Some d2 ->
  moved moves repo_root (k :: ks) d = moved moves repo_root ks d2.
Proof.
  intros Hk Hmk Hmv. cbn [moved]. rewrite Hk. cbn [mbind option_bind].
  rewrite Hmk. cbn [mbind option_bind]. by rewrite Hmv.
Qed.

Lemma move_pairs_cons moves k ks new :
  moves !! k = Some new ->
  move_pairs moves (k :: ks) = (k, new) :: move_pairs moves ks.
Proof.
  intros Hk. unfold move_pairs.
  change (k :: ks) with ([k] ++ ks). rewrite omap_app.
  cbn [omap list_omap]. by rewrite Hk.
Qed.

(** A move that succeeds. *)
Lemma move_one_ok moves repo_root k w w' :
  move_one cwd moves repo_root k w = (w', inr tt) ->
  exists new d1 line,
    moves !! k = Some new
    /\ makedirs (disk w) (PosixPath.dirname new) = Some d1
    /\ git_mv d1 repo_root k new = Some (disk w')
    /\ log w' = log w ++ [EvMakedirs (PosixPath.dirname new);
                          EvGitMv repo_root k new; EvPrint line].
Proof.
  unfold move_one. intros Hrun. m_inv.
  eexists _, _, _. split_and!; try done.
  by rewrite <- !app_assoc.
Qed.

(** A move whose [git mv] fails. *)
Lemma move_one_fail moves repo_root k w w' old new :
  move_one cwd moves repo_root k w = (w', inl (CalledProcessError old new)) ->
  k = old /\ moves !! k = Some new
  /\ makedirs (disk w) (PosixPath.dirname new) = Some (disk w')
  /\ git_mv (disk w') repo_root k new = None
  /\ log w' = log w ++ [EvMakedirs (PosixPath.dirname new);
                        EvGitMv repo_root k new].
Proof.
  unfold move_one. intros Hrun. m_inv.
  split_and!; try done. by rewrite <- !app_assoc.
Qed.

(** All moves succeed. *)
Lemma apply_moves_ok moves repo_root ks w w' :
  for_each ks (move_one cwd moves repo_root) w = (w', inr tt) ->
  moved moves repo_root ks (disk w) = Some (disk w')
  /\ git_moves (log w') = git_moves (log w) ++ move_pairs moves ks
  /\ writes (log w') = writes (log w).
Proof.
  revert w. induction ks as [|k ks IH]; intros w.
  - intros [= <-]. by rewrite app_nil_r.
  - cbn [for_each]. intros Hrun.
    apply bind_inv in Hrun as [(e & _ & ?) | (w1 & [] & H1 & H2)]; [done|].
    apply move_one_ok in H1 as (new & d1 & line & Hk & Hmk & Hmv & Hlog).
    apply IH in H2 as (Hmoved & Hgit & Hwr).
    rewrite (moved_cons _ _ _ _ _ _ _ _ Hk Hmk Hmv).
    rewrite (move_pairs_cons _ _ _ _ Hk).
    split; [done|]. rewrite Hgit, Hwr, Hlog, git_moves_app, writes_app.
    cbn [git_moves writes omap app]. by rewrite <- app_assoc, app_nil_r.
Qed.

(** The moves stop at the first [git mv] that fails. *)
Lemma apply_moves_fail moves repo_root ks w w' old new :
  for_each ks (move_one cwd moves repo_root) w
  = (w', inl (CalledProcessError old new)) ->
  exists pre post d_pre,
    ks = pre ++ old :: post
    /\ moves !! old = Some new
    /\ moved moves repo_root pre (disk w) = Some d_pre
    /\ makedirs d_pre (PosixPath.dirname new) = Some (disk w')
    /\ git_mv (disk w') repo_root old new = None
    /\ git_moves (log w')
       = git_moves (log w) ++ move_pairs moves pre ++ [(old, new)]
    /\ writes (log w') = writes (log w).
Proof.
  revert w. induction ks as [|k ks IH]; intros w; [done|].
  cbn [for_each]. intros Hrun.
  apply bind_inv in Hrun as [(e & H1 & [= <-]) | (w1 & [] & H1 & H2)].
  - apply move_one_fail in H1 as (-> & Hk & Hmk & Hmv & Hlog).
    exists [], ks, (disk w). split_and!; try done.
    + by rewrite Hlog, git_moves_app.
    + by rewrite Hlog, writes_app, app_nil_r.
  - apply move_one_ok in H1 as (new' & d1 & line & Hk & Hmk & Hmv & Hlog).
    apply IH in H2
      as (pre & post & d_pre & -> & Hold & Hmoved & Hmk' & Hmv' & Hgit & Hwr).
    exists (k :: pre), post, d_pre.
    rewrite (moved_cons _ _ _ _ _ _ _ _ Hk Hmk Hmv).
    rewrite (move_pairs_cons _ _ _ _ Hk).
    split_and!; try done.
    + rewrite Hgit, Hlog, git_moves_app.
      cbn [git_moves omap app]. by rewrite <- !app_assoc.
    + by rewrite Hwr, Hlog, writes_app, app_nil_r.
Qed.

(** A flush that succeeds writes every entry once, in order. *)
Lemma flush_updates_ok repo_root updates w w' :
  flush_updates cwd repo_root updates w = (w', inr tt) ->
  writes (log w') = writes (log w) ++ updates.*2
  /\ git_moves (log w') = git_moves (log w).
Proof.
  unfold flush_updates. revert w.
  induction updates as [|[old_abs [new_abs new_content]] updates IH];
    intros w; simpl.
  - intros [= <-]. by rewrite app_nil_r.
  - intros Hrun. apply bind_inv in Hrun as [(e & _ & ?) | (w1 & [] & H1 & H2)];
      [done|].
    apply IH in H2 as [Hwr Hgit]. rewrite Hwr, Hgit.
    assert (writes (log w1) = writes (log w) ++ [(new_abs, new_content)]
            /\ git_moves (log w1) = git_moves (log w)) as [-> ->].
    { unfold flush_one in H1. destruct (Py.str_eqb old_abs new_abs);
        m_inv; rewrite ?writes_app, ?git_moves_app; simpl;
        by rewrite ?app_nil_r. }
    by rewrite <- app_assoc.
Qed.

End Traces.

Section Order.

Implicit Types (a b c : str).

Lemma str_leb_total a b : str_leb a b = true \/ str_leb b a = true.
Proof.
  revert b. induction a as [|x a IH]; intros [|y b]; simpl; auto.
  destruct (Nat.ltb_spec (nat_of_ascii x) (nat_of_ascii y));
    destruct (Nat.ltb_spec (nat_of_ascii y) (nat_of_ascii x));
    auto; lia.
Qed.

Lemma str_leb_trans a b c :
  str_leb a b = true -> str_leb b c = true -> str_leb a c = true.
Proof.
  revert b c. induction a as [|x a IH]; intros [|y b] [|z c]; simpl; auto;
    try done.
  destruct (Nat.ltb_spec (nat_of_ascii x) (nat_of_ascii y));
    destruct (Nat.ltb_spec (nat_of_ascii y) (nat_of_ascii x));
    destruct (Nat.ltb_spec (nat_of_ascii y) (nat_of_ascii z));
    destruct (Nat.ltb_spec (nat_of_ascii z) (nat_of_ascii y));
    destruct (Nat.ltb_spec (nat_of_ascii x) (nat_of_ascii z));
    destruct (Nat.ltb_spec (nat_of_ascii z) (nat_of_ascii x));
    try done; try lia; eauto.
Qed.

Global Instance str_le_total : Total str_le.
Proof. intros a b. apply str_leb_total. Qed.

Global Instance str_le_trans : Transitive str_le.
Proof. intros a b c. apply str_leb_trans. Qed.

Lemma sorted_strongly l : StronglySorted str_le (sorted l).
Proof. apply StronglySorted_merge_sort; apply _. Qed.

Lemma sorted_perm l : sorted l ≡ₚ l.
Proof. apply merge_sort_Permutation. Qed.

End Order.

Section Updates.

Context {FS : Type} {os : OS FS}.
Variable cwd : str.

Implicit Types (w : world FS) (moves : gmap str str)
  (acc updates : list (str * (str * str))).

Lemma elem_of_dict_set {V} (d : list (str * V)) k v kv :
  kv ∈ dict_set d k v -> kv = (k, v) \/ kv ∈ d.
Proof.
  induction d as [|[k' v'] d IH]; simpl.
  - intros ->%list_elem_of_singleton. by left.
  - destruct (Py.str_eqb k' k).
    + intros [->|?]%elem_of_cons; [by left|]. right. by right.
    + intros [->|?]%elem_of_cons; [right; by left|].
      destruct IH as [?|?]; auto. right. by right.
Qed.

Lemma dict_set_key {V} (d : list (str * V)) k v : (k, v) ∈ dict_set d k v.
Proof.
  induction d as [|[k' v'] d IH]; simpl; [by left|].
  destruct (Py.str_eqb k' k); [by left | by right].
Qed.

Lemma dict_set_keys_mono {V} (d : list (str * V)) k v k0 :
  k0 ∈ d.*1 -> k0 ∈ (dict_set d k v).*1.
Proof.
  induction d as [|[k' v'] d IH]; simpl; [by intros ?%elem_of_nil|].
  destruct (Py.str_eqb k' k) eqn:E; simpl.
  - apply str_eqb_true in E as ->. done.
  - intros [->|?]%elem_of_cons; [by left | right; auto].
Qed.

(** Step 1 computes [updates_from] and leaves the file system as it is. *)
Lemma compute_updates_from moves files acc w w1 updates :
  for_fold files acc (fun updates old_abs =>
    emit (EvRead old_abs);;
    content ← query (fun d => read_text d old_abs) (ReadError old_abs);
    '(new_abs, new_content, changed) ←
      of_option (update_of cwd moves old_abs content) ValueError;
    mret (if changed : bool
          then dict_set updates old_abs (new_abs, new_content)
          else updates)) w = (w1, inr updates) ->
  disk w1 = disk w
  /\ updates_from cwd moves (disk w) files acc = Some updates.
Proof.
  revert acc w. induction files as [|f files IH]; intros acc w.
  - intros [= <- <-]. done.
  - cbn [for_fold updates_from]. intros Hrun.
    apply bind_inv in Hrun as [(e & _ & ?) | (w2 & acc' & H1 & H2)]; [done|].
    apply IH in H2 as [Hd Hu]. m_inv.
    match goal with H : update_of _ _ _ _ = Some ?u |- _ =>
      destruct u as [[new_abs new_content] changed] end.
    m_inv. split; [done|].
    match goal with H : read_text _ _ = Some _ |- _ => rewrite H end.
    cbn [mbind option_bind].
    match goal with H : update_of _ _ _ _ = Some _ |- _ => rewrite H end.
    done.
Qed.

Lemma compute_updates_inv moves files w w1 updates :
  compute_updates cwd moves files w = (w1, inr updates) ->
  disk w1 = disk w
  /\ updates_from cwd moves (disk w) files [] = Some updates.
Proof. apply compute_updates_from. Qed.

Lemma updates_from_entries moves d files acc updates :
  updates_from cwd moves d files acc = Some updates ->
  Forall (entry_ok cwd moves d) acc -> Forall (entry_ok cwd moves d) updates.
Proof.
  revert acc. induction files as [|f files IH]; intros acc.
  - by intros [= <-].
  - cbn [updates_from]. intros Hu Hacc.
    destruct (read_text d f) as [content|] eqn:Hread; [|done].
    cbn [mbind option_bind] in Hu.
    destruct (update_of cwd moves f content)
      as [[[new_abs new_content] changed]|] eqn:Hupd; [|done].
    cbn [mbind option_bind] in Hu. apply IH in Hu; [done|].
    destruct changed; [|done].
    apply Forall_forall. intros u [->|Hin]%elem_of_dict_set.
    + by exists content.
    + by eapply Forall_forall in Hacc.
Qed.

(** Every file whose content or path changes has an entry. *)
Lemma updates_from_keys moves d files acc updates :
  updates_from cwd moves d files acc = Some updates ->
  (forall k, k ∈ acc.*1 -> k ∈ updates.*1)
  /\ (forall f content u,
        f ∈ files -> read_text d f = Some content ->
        update_of cwd moves f content = Some (u, true) -> f ∈ updates.*1).
Proof.
  revert acc. induction files as [|f files IH]; intros acc.
  - intros [= <-]. split; [done|]. by intros ? ? ? ?%elem_of_nil.
  - cbn [updates_from]. intros Hu.
    destruct (read_text d f) as [content|] eqn:Hread; [|done].
    cbn [mbind option_bind] in Hu.
    destruct (update_of cwd moves f content)
      as [[[new_abs new_content] changed]|] eqn:Hupd; [|done].
    cbn [mbind option_bind] in Hu. apply IH in Hu as [Hmono Hfiles]. split.
    + intros k Hk. apply Hmono. destruct changed; [|done].
      by apply dict_set_keys_mono.
    + intros f' content' u [->|Hin]%elem_of_cons Hread' Hupd'.
      * rewrite Hread in Hread'. injection Hread' as <-.
        rewrite Hupd in Hupd'. injection Hupd' as <- ->.
        apply Hmono. apply list_elem_of_fmap.
        exists (f, (new_abs, new_content)). split; [done|]. apply dict_set_key.
      * by eapply Hfiles.
Qed.

End Updates.

Section RunFacts.

Context {FS : Type} {os : OS FS}.
Variable cwd : str.
Variable BASE : str.

Implicit Types (w : world FS) (moves : gmap str str)
  (updates : list (str * (str * str))) (evs : list event).

Lemma git_moves_none evs : Forall (fun ev => ~ is_git_mv ev) evs -> git_moves evs = [].
Proof.
  induction 1 as [|ev evs Hev _ IH]; [done|].
  change (ev :: evs) with ([ev] ++ evs). rewrite git_moves_app, IH.
  by destruct ev.
Qed.

Lemma writes_none evs : Forall (fun ev => ~ is_write ev) evs -> writes evs = [].
Proof.
  induction 1 as [|ev evs Hev _ IH]; [done|].
  change (ev :: evs) with ([ev] ++ evs). rewrite writes_app, IH.
  by destruct ev.
Qed.

Lemma sorted_keys_lookup moves k :
  k ∈ sorted (map_to_list moves).*1 -> is_Some (moves !! k).
Proof.
  rewrite sorted_perm. intros ([k' v] & -> & Hin)%list_elem_of_fmap.
  apply elem_of_map_to_list in Hin. by exists v.
Qed.

Lemma length_move_pairs moves ks :
  Forall (fun k => is_Some (moves !! k)) ks ->
  length (move_pairs moves ks) = length ks.
Proof.
  induction 1 as [|k ks [new Hk] _ IH]; [done|].
  rewrite (move_pairs_cons _ _ _ _ Hk). simpl. by rewrite IH.
Qed.

Lemma length_sorted_keys moves :
  length (move_pairs moves (sorted (map_to_list moves).*1)) = size moves.
Proof.
  rewrite length_move_pairs.
  - rewrite sorted_perm, length_fmap. apply length_map_to_list.
  - apply Forall_forall. apply sorted_keys_lookup.
Qed.

(** The three steps of a run that completes. *)
Lemma run_ok_inv moves_raw w w' :
  run cwd BASE moves_raw w = (w', inr tt) ->
  let moves := normalize_moves moves_raw in
  let repo_root := PosixPath.dirname BASE in
  exists updates evs,
    updates_from cwd moves (disk w) (collect_files BASE (disk w)) []
    = Some updates
    /\ moved moves repo_root (sorted (map_to_list moves).*1) (disk w)
       <> None
    /\ log w' = log w ++ evs
                ++ [EvPrint (summary_line (size moves) (length updates))]
    /\ git_moves evs = move_pairs moves (sorted (map_to_list moves).*1)
    /\ writes evs = updates.*2.
Proof.
  intros Hrun moves repo_root. unfold run in Hrun.
  fold moves in Hrun. fold repo_root in Hrun.
  apply bind_inv in Hrun as [(e & _ & ?) | (w0 & files & H0 & Hrun)]; [done|].
  injection H0 as <- <-.
  apply bind_inv in Hrun as [(e & _ & ?) | (w1 & updates & H1 & Hrun)]; [done|].
  apply bind_inv in Hrun as [(e & _ & ?) | (w2 & [] & H2 & Hrun)]; [done|].
  apply bind_inv in Hrun as [(e & _ & ?) | (w3 & [] & H3 & Hrun)]; [done|].
  apply emit_inv in Hrun as [-> _].
  destruct (compute_updates_does cwd _ _ _ _ _ H1) as ((evs1 & Hl1 & He1) & _).
  apply compute_updates_inv in H1 as [Hd1 Hupd].
  destruct (apply_moves_does cwd _ _ _ _ _ H2) as ((evs2 & Hl2 & He2) & _).
  apply apply_moves_ok in H2 as (Hmoved & Hgit2 & _).
  destruct (flush_updates_does cwd _ _ _ _ _ H3) as ((evs3 & Hl3 & He3) & _).
  apply flush_updates_ok in H3 as [Hwr3 _].
  exists updates, (evs1 ++ evs2 ++ evs3). split_and!.
  - done.
  - rewrite <- Hd1, Hmoved. done.
  - simpl. rewrite Hl3, Hl2, Hl1. by rewrite <- !app_assoc.
  - rewrite Hl2, git_moves_app in Hgit2. apply app_inv_head in Hgit2.
    rewrite !git_moves_app, Hgit2, (git_moves_none evs3) by done.
    rewrite git_moves_none, app_nil_r; [done|].
    eapply Forall_impl; [exact He1|]. by intros ev [_ ?].
  - rewrite Hl3, writes_app in Hwr3. apply app_inv_head in Hwr3.
    rewrite !writes_app, Hwr3, (writes_none evs2) by done.
    rewrite writes_none; [done|].
    eapply Forall_impl; [exact He1|]. by intros ev [? _].
Qed.

End RunFacts.

Section UpdatesKeys.

Context {FS : Type} {os : OS FS}.

Lemma dict_set_keys_sub {V} (d : list (str * V)) k v k0 :
  k0 ∈ (dict_set d k v).*1 -> k0 = k \/ k0 ∈ d.*1.
Proof.
  intros ([k1 v1] & -> & Hin)%list_elem_of_fmap.
  apply elem_of_dict_set in Hin as [[= -> ->] | Hin]; [by left|].
  right. apply list_elem_of_fmap. by exists (k1, v1).
Qed.

(** The keys of [updates] are discovered files. *)
Lemma updates_from_keys_sub (cwd : str) (moves : gmap str str) (d : FS)
    (files : list str) (acc updates : list (str * (str * str))) (k : str) :
  updates_from cwd moves d files acc = Some updates ->
  k ∈ updates.*1 -> k ∈ acc.*1 \/ k ∈ files.
Proof.
  revert acc. induction files as [|f files IH]; intros acc.
  - intros [= <-]. by left.
  - cbn [updates_from]. intros Hu Hk.
    destruct (read_text d f) as [content|] eqn:Hread; [|done].
    cbn [mbind option_bind] in Hu.
    destruct (update_of cwd moves f content)
      as [[[new_abs new_content] changed]|] eqn:Hupd; [|done].
    cbn [mbind option_bind] in Hu.
    destruct (IH _ Hu Hk) as [Hacc | Hfiles]; [|right; by right].
    destruct changed; [|by left].
    apply dict_set_keys_sub in Hacc as [-> | ?]; [right; by left | by left].
Qed.

End UpdatesKeys.

Section Claims.

Context {FS : Type} {os : OS FS}.
Variable cwd : str.
Variable BASE : str.

Implicit Types (w : world FS) (moves : gmap str str)
  (updates : list (str * (str * str))) (evs : list event).

(** A run that stops on a failed [git mv] stopped in step 2. *)
Lemma run_move_error_inv (moves_raw : list (str * str)) w w' old new :
  run cwd BASE moves_raw w = (w', inl (CalledProcessError old new)) ->
  exists w1 evs1,
    disk w1 = disk w /\ log w1 = log w ++ evs1
    /\ Forall (fun ev => ~ is_write ev /\ ~ is_git_mv ev) evs1
    /\ apply_moves cwd (normalize_moves moves_raw) (PosixPath.dirname BASE) w1
       = (w', inl (CalledProcessError old new)).
Proof.
  intros Hrun. unfold run in Hrun.
  apply bind_inv in Hrun as [(e & H0 & ?) | (w0 & files & H0 & Hrun)]; [done|].
  injection H0 as <- <-.
  apply bind_inv in Hrun as [(e & H1 & [= <-]) | (w1 & updates & H1 & Hrun)].
  { destruct (compute_updates_does cwd _ _ _ _ _ H1) as (_ & _ & Herr).
    by destruct (Herr _ eq_refl). }
  destruct (compute_updates_does cwd _ _ _ _ _ H1)
    as ((evs1 & Hl1 & He1) & Hd1 & _).
  apply bind_inv in Hrun as [(e & H2 & [= <-]) | (w2 & [] & H2 & Hrun)].
  { by exists w1, evs1. }
  apply bind_inv in Hrun as [(e & H3 & [= <-]) | (w3 & [] & H3 & Hrun)].
  { destruct (flush_updates_does cwd _ _ _ _ _ H3) as (_ & _ & Herr).
    by destruct (Herr _ eq_refl). }
  by apply emit_inv in Hrun as [_ ?].
Qed.

(** C10.  Writes follow moves: in every run the log of operations splits
    into a first part without a write and a second part without
    [git mv], so every file is written after every move; and a run that
    stops on a failed [git mv] has written nothing: its log holds no write
    and its file system is reached from the initial one by creating
    directories and moving files only. *)
Theorem writes_follow_moves (moves_raw : list (str * str)) w w' r :
  run cwd BASE moves_raw w = (w', r) ->
  (exists evs1 evs2,
     log w' = log w ++ evs1 ++ evs2
     /\ Forall (fun ev => ~ is_write ev) evs1
     /\ Forall (fun ev => ~ is_git_mv ev) evs2)
  /\ (forall old new,
        r = inl (CalledProcessError old new) ->
        writes (log w') = writes (log w) /\ moves_only (disk w) (disk w')).
Proof.
  intros Hrun. split.
  - unfold run in Hrun.
    apply bind_inv in Hrun as [(e & H0 & ?) | (w0 & files & H0 & Hrun)];
      [done|].
    injection H0 as <- <-.
    assert (forall w1 (r1 : error + list (str * (str * str))),
              compute_updates cwd (normalize_moves moves_raw)
                (collect_files BASE (disk w)) w = (w1, r1) ->
              exists evs1, log w1 = log w ++ evs1
                           /\ Forall (fun ev => ~ is_write ev) evs1) as Hc.
    { intros w1 r1 H1.
      destruct (compute_updates_does cwd _ _ _ _ _ H1) as ((evs1 & Hl1 & He1) & _).
      exists evs1. split; [done|].
      eapply Forall_impl; [exact He1|]. by intros ev [? _]. }
    apply bind_inv in Hrun as [(e & H1 & ->) | (w1 & updates & H1 & Hrun)].
    { destruct (Hc _ _ H1) as (evs1 & Hl1 & He1).
      exists evs1, []. by rewrite app_nil_r. }
    destruct (Hc _ _ H1) as (evs1 & Hl1 & He1).
    apply bind_inv in Hrun as [(e & H2 & ->) | (w2 & [] & H2 & Hrun)].
    { destruct (apply_moves_does cwd _ _ _ _ _ H2) as ((evs2 & Hl2 & He2) & _).
      exists (evs1 ++ evs2), []. rewrite Hl2, Hl1, app_nil_r, <- app_assoc.
      split_and!; [done | by apply Forall_app | done]. }
    destruct (apply_moves_does cwd _ _ _ _ _ H2) as ((evs2 & Hl2 & He2) & _).
    assert (does (fun ev => ~ is_git_mv ev) not_move_error any_change
              (flush_updates cwd (PosixPath.dirname BASE) updates;;
               emit (EvPrint (summary_line (size (normalize_moves moves_raw))
                                           (length updates))))) as Hd.
    { d_bind; [apply flush_updates_does|]. intros _. d_emit. by intros []. }
    destruct (Hd _ _ _ Hrun) as ((evs3 & Hl3 & He3) & _).
    exists (evs1 ++ evs2), evs3. rewrite Hl3, Hl2, Hl1, <- !app_assoc.
    split_and!; [done | by apply Forall_app | done].
  - intros old new ->.
    apply run_move_error_inv in Hrun as (w1 & evs1 & Hd1 & Hl1 & He1 & Hrun).
    destruct (apply_moves_does cwd _ _ _ _ _ Hrun) as (_ & Hmv & _).
    apply apply_moves_fail in Hrun as (_ & _ & _ & _ & _ & _ & _ & _ & _ & Hwr).
    split; [|by rewrite <- Hd1].
    rewrite Hwr, Hl1, writes_app, (writes_none evs1), app_nil_r; [done|].
    eapply Forall_impl; [exact He1|]. by intros ev [? _].
Qed.

End Claims.

(** * The scenarios on the flat file system *)

(** C2.  End-to-end rewrite for the move mapping of [a.ts] to [sub/a.ts]:
    after the run the unmoved file [b.ts], which imported [./a.js], imports
    [./sub/a.js], and the moved file, now at [sub/a.ts], which imported
    [./b.js], imports [../b.js]. *)
Theorem scenario_move_a_to_sub :
  let r := main "/" "/repo/src" [("a.ts" : str, "sub/a.ts" : str)]
             (World disk_ab []) in
  r.2 = inr tt
  /\ disk r.1 !! ("/repo/src/b.ts" : str) = Some (import_stmt "a" "./sub/a.js")
  /\ disk r.1 !! ("/repo/src/sub/a.ts" : str)
     = Some (import_stmt "b" "../b.js")
  /\ disk r.1 !! ("/repo/src/a.ts" : str) = None.
Proof. vm_compute. done. Qed.

(** C7.  The target of an import whose name begins with a dot:
    [make_relative] finds that the relative path starts with a dot and
    adds no [./], so the string it returns begins neither with [./] nor
    with [../], and the import pattern of [run] no longer recognises the
    rewritten import. *)
Theorem make_relative_dot_file :
  make_relative "/" "/repo/src/b.ts" "/repo/src/.hidden.ts"
  = Some (".hidden.js" : str)
  /\ Py.startswith ".hidden.js" "./" = false
  /\ Py.startswith ".hidden.js" "../" = false
  /\ rewrite_imports "/" ∅ "/repo/src/b.ts" "/repo/src/b.ts"
       (import_stmt "h" "./.hidden.js")
     = Some (import_stmt "h" ".hidden.js")
  /\ match_import (from_quote ++ "./.hidden.js" ++ [dq])
     = Some ("./.hidden.js" : str, [])
  /\ match_import (from_quote ++ ".hidden.js" ++ [dq]) = None.
Proof. vm_compute. done. Qed.

Lemma writes_follow_moves_witness :
  let w := World disk_abc [] in
  let r := run "/" "/repo/src" moves_abc w in
  (exists evs1 evs2,
     log r.1 = log w ++ evs1 ++ evs2
     /\ Forall (fun ev => ~ is_write ev) evs1
     /\ Forall (fun ev => ~ is_git_mv ev) evs2)
  /\ (forall old new,
        r.2 = inl (CalledProcessError old new) ->
        writes (log r.1) = writes (log w) /\ moves_only (disk w) (disk r.1)).
Proof.
  intros w r.
  apply (writes_follow_moves "/" "/repo/src" moves_abc w r.1 r.2). by_eval.
Defined.

(** * Facts about the import pattern and its substitution *)

Section Pattern.

Implicit Types (s u v r ip rest : str) (c x : ascii).

Lemma break_at_spec c s u rest :
  break_at c s = Some (u, rest) <-> s = u ++ c :: rest /\ c ∉ u.
Proof.
  revert u rest. induction s as [|x s IH]; intros u rest; simpl.
  - split; [done|]. intros [E _]. by destruct u.
  - destruct (Py.eqc x c) eqn:E.
    + apply eqc_true in E as ->. split.
      * intros [= <- <-]. split; [done | apply not_elem_of_nil].
      * intros [E Hu]. destruct u as [|y u].
        -- by injection E as <-.
        -- injection E as <- _. exfalso. apply Hu. by left.
    + apply eqc_false in E. split.
      * destruct (break_at c s) as [[u' r']|] eqn:Hb; [|done].
        intros [= <- <-]. destruct (proj1 (IH u' r') eq_refl) as [-> Hu'].
        split; [done|]. by apply not_elem_of_cons.
      * intros [E' Hu]. destruct u as [|y u].
        { injection E' as -> _. done. }
        injection E' as <- ->. apply not_elem_of_cons in Hu as [_ Hu].
        by rewrite (proj2 (IH u rest) (conj eq_refl Hu)).
Qed.

Lemma break_at_none c s : break_at c s = None <-> c ∉ s.
Proof.
  induction s as [|x s IH]; simpl.
  - split; [intros _; apply not_elem_of_nil | done].
  - destruct (Py.eqc x c) eqn:E.
    + apply eqc_true in E as ->. split; [done|]. intros H. exfalso. apply H. by left.
    + apply eqc_false in E. destruct (break_at c s) as [[u r]|].
      * split; [done|]. intros H. apply not_elem_of_cons in H as [_ H].
        by apply IH in H.
      * split; [|done]. intros _. apply not_elem_of_cons. split; [done|].
        by apply IH.
Qed.

Lemma drop_from_quote v : drop (length from_quote) (from_quote ++ v) = v.
Proof. by rewrite drop_app_length. Qed.

(** A match is the literal, a group of the right shape without double
    quote, and the closing double quote. *)
Lemma match_import_spec s ip rest :
  match_import s = Some (ip, rest) <->
  s = from_quote ++ ip ++ dq :: rest /\ (dq ∉ ip) /\ import_shape ip = true.
Proof.
  unfold match_import. split.
  - destruct (Py.startswith s from_quote) eqn:Hs; [|done].
    apply startswith_spec in Hs as [v ->]. rewrite drop_from_quote.
    destruct (break_at dq v) as [[u r]|] eqn:Hb; [|done]. simpl.
    destruct (import_shape u) eqn:Hsh; [|done]. intros [= <- <-].
    apply break_at_spec in Hb as [-> Hu]. done.
  - intros (-> & Hq & Hsh). rewrite startswith_app, drop_from_quote.
    rewrite (proj2 (break_at_spec dq _ ip rest) (conj eq_refl Hq)). simpl.
    by rewrite Hsh.
Qed.

Lemma match_import_quoted u rest :
  dq ∉ u ->
  match_import (from_quote ++ u ++ dq :: rest)
  = if import_shape u then Some (u, rest) else None.
Proof.
  intros Hu. unfold match_import. rewrite startswith_app, drop_from_quote.
  by rewrite (proj2 (break_at_spec dq _ u rest) (conj eq_refl Hu)).
Qed.

Lemma length_match ip rest :
  length (from_quote ++ ip ++ dq :: rest)
  = S (length from_quote + length ip + length rest).
Proof. rewrite !length_app. simpl. lia. Qed.

Section Sub.

Variable repl : str -> option str.

Lemma re_sub_go_skip a s : re_sub_go repl (length a) (a ++ s) = re_sub_go repl 0 s.
Proof. induction a as [|x a IH]; [done|]. simpl. apply IH. Qed.

Lemma find_imports_go_skip a s :
  find_imports_go (length a) (a ++ s) = find_imports_go 0 s.
Proof. induction a as [|x a IH]; [done|]. simpl. apply IH. Qed.

Lemma match_tail c s ip rest :
  match_import (c :: s) = Some (ip, rest) ->
  exists a, s = a ++ rest /\ length a = length from_quote + length ip.
Proof.
  intros (E & _)%match_import_spec. injection E as -> ->.
  exists (drop 1 from_quote ++ ip ++ [dq]). split.
  - by rewrite <- !app_assoc.
  - rewrite !length_app. simpl. lia.
Qed.

(** One step of the substitution at a match. *)
Lemma re_sub_match s ip rest :
  match_import s = Some (ip, rest) ->
  re_sub_imports repl s
  = r ← repl ip; t ← re_sub_imports repl rest; Some (r ++ t).
Proof.
  intros Hm. destruct s as [|c s]; [done|].
  destruct (match_tail _ _ _ _ Hm) as (a & -> & Hlen).
  unfold re_sub_imports. cbn [re_sub_go]. rewrite Hm, <- Hlen.
  by rewrite re_sub_go_skip.
Qed.

(** One step of the substitution where there is no match. *)
Lemma re_sub_no_match c s :
  match_import (c :: s) = None ->
  re_sub_imports repl (c :: s) = t ← re_sub_imports repl s; Some (c :: t).
Proof. intros Hm. unfold re_sub_imports. cbn [re_sub_go]. by rewrite Hm. Qed.

Lemma find_imports_match s ip rest :
  match_import s = Some (ip, rest) ->
  find_imports s = ip :: find_imports rest.
Proof.
  intros Hm. destruct s as [|c s]; [done|].
  destruct (match_tail _ _ _ _ Hm) as (a & -> & Hlen).
  unfold find_imports. cbn [find_imports_go]. rewrite Hm, <- Hlen.
  by rewrite find_imports_go_skip.
Qed.

Lemma find_imports_no_match c s :
  match_import (c :: s) = None -> find_imports (c :: s) = find_imports s.
Proof. intros Hm. unfold find_imports. cbn [find_imports_go]. by rewrite Hm. Qed.

(** Induction along the scan: the empty text, a match followed by the
    text after it, a character that starts no match. *)
Lemma scan_ind (Q : str -> Prop) :
  Q [] ->
  (forall s ip rest, match_import s = Some (ip, rest) -> Q rest -> Q s) ->
  (forall c s, match_import (c :: s) = None -> Q s -> Q (c :: s)) ->
  forall s, Q s.
Proof.
  intros Hnil Hmatch Hchar s.
  remember (length s) as n eqn:Hn. revert s Hn.
  induction n as [n IH] using lt_wf_ind. intros s ->.
  destruct s as [|c s]; [done|].
  destruct (match_import (c :: s)) as [[ip rest]|] eqn:Hm.
  - apply (Hmatch _ ip rest Hm). apply (IH (length rest)); [|done].
    apply match_import_spec in Hm as (-> & _). rewrite length_match. lia.
  - apply Hchar; [done|]. apply (IH (length s)); [simpl; lia | done].
Qed.

(** Where every match is replaced by itself the text is unchanged. *)
Lemma re_sub_identity s :
  Forall (fun ip => repl ip = Some (from_quote ++ ip ++ [dq])) (find_imports s) ->
  re_sub_imports repl s = Some s.
Proof.
  induction s as [|s ip rest Hm IH|c s Hm IH] using scan_ind.
  - done.
  - rewrite (find_imports_match _ _ _ Hm), (re_sub_match _ _ _ Hm).
    intros [Hip Hrest]%Forall_cons_1. rewrite Hip, (IH Hrest). simpl.
    apply match_import_spec in Hm as (-> & _). by rewrite <- !app_assoc.
  - rewrite (find_imports_no_match _ _ Hm), (re_sub_no_match _ _ Hm).
    intros Hall. by rewrite (IH Hall).
Qed.

End Sub.

End Pattern.

(** * [normpath] is idempotent *)

Section NormpathIdem.

Implicit Types (s p r u c : str) (cs st : list str) (n k : nat).

Lemma norm_comps_rel st cs :
  rel_normal (rev st) -> Forall (fun u => PosixPath.sep ∉ u) cs ->
  rel_normal (PosixPath.norm_comps 0 st cs).
Proof.
  intros Hst Hcs. revert st Hst.
  induction Hcs as [|c cs Hc Hcs IH]; intros st Hst; [done|].
  destruct (decide (c = [])) as [->|H1]; [by apply IH|].
  destruct (decide (c = PosixPath.curdir)) as [->|H2]; [by apply IH|].
  destruct (decide (c = PosixPath.pardir)) as [->|H3].
  - destruct st as [|top st].
    + change (PosixPath.norm_comps 0 [] (PosixPath.pardir :: cs))
        with (PosixPath.norm_comps 0 [PosixPath.pardir] cs).
      apply IH. exists 1, []. done.
    + destruct (decide (top = PosixPath.pardir)) as [->|Htop].
      * assert (PosixPath.norm_comps 0 (PosixPath.pardir :: st)
                  (PosixPath.pardir :: cs)
                = PosixPath.norm_comps 0
                    (PosixPath.pardir :: PosixPath.pardir :: st) cs) as ->
          by done.
        apply IH. destruct Hst as (k & names & E & Hn).
        simpl in E. destruct names as [|a names _] using rev_ind.
        -- exists (S k), []. rewrite app_nil_r in *. simpl rev.
           rewrite E. rewrite replicate_S_end. done.
        -- rewrite app_assoc in E. apply app_inj_tail in E as [_ <-].
           apply Forall_app in Hn as [_ Ha]. apply Forall_cons_1 in Ha as [Ha _].
           by destruct Ha as (_ & _ & ? & _).
      * assert (PosixPath.norm_comps 0 (top :: st) (PosixPath.pardir :: cs)
                = PosixPath.norm_comps 0 st cs) as ->.
        { cbn -[PosixPath.pardir Py.str_eqb].
          apply str_eqb_false in Htop. rewrite Htop.
          replace (Py.str_eqb PosixPath.pardir []) with false by done.
          replace (Py.str_eqb PosixPath.pardir PosixPath.curdir)
            with false by done.
          by replace (Py.str_eqb PosixPath.pardir PosixPath.pardir)
            with true by done. }
        apply IH. destruct Hst as (k & names & E & Hn). simpl in E.
        destruct names as [|a names _] using rev_ind.
        -- rewrite app_nil_r in E. destruct k as [|k]; [by destruct (rev st)|].
           rewrite replicate_S_end in E. by apply app_inj_tail in E as [_ ?].
        -- rewrite app_assoc in E. apply app_inj_tail in E as [-> _].
           exists k, names. split; [done|]. by apply Forall_app in Hn as [? _].
  - rewrite norm_comps_name by done. apply IH.
    destruct Hst as (k & names & E & Hn). exists k, (names ++ [c]).
    simpl. rewrite E, <- app_assoc. split; [done|].
    apply Forall_app. split; [done|]. by repeat constructor.
Qed.

Lemma replicate_snoc_cons {E : Type} j (x : E) (l : list E) :
  replicate j x ++ x :: l = x :: replicate j x ++ l.
Proof. induction j as [|j IH]; [done|]. simpl. by rewrite IH. Qed.

Lemma rev_replicate {E : Type} j (x : E) : rev (replicate j x) = replicate j x.
Proof.
  induction j as [|j IH]; [done|]. simpl. rewrite IH.
  change [x] with (replicate 1 x). rewrite <- replicate_add.
  by rewrite Nat.add_1_r.
Qed.

Lemma norm_comps_pardirs j st names :
  st = [] \/ (exists st', st = PosixPath.pardir :: st') ->
  PosixPath.norm_comps 0 st (replicate j PosixPath.pardir ++ names)
  = PosixPath.norm_comps 0 (replicate j PosixPath.pardir ++ st) names.
Proof.
  revert st. induction j as [|j IH]; intros st Hst; [done|].
  simpl replicate. simpl app.
  assert (PosixPath.norm_comps 0 st
            (PosixPath.pardir :: replicate j PosixPath.pardir ++ names)
          = PosixPath.norm_comps 0 (PosixPath.pardir :: st)
              (replicate j PosixPath.pardir ++ names)) as ->.
  { by destruct Hst as [-> | [st' ->]]. }
  rewrite IH by (right; by eexists). by rewrite replicate_snoc_cons.
Qed.

Lemma norm_comps_rel_normal cs :
  rel_normal cs -> PosixPath.norm_comps 0 [] cs = cs.
Proof.
  intros (k & names & -> & Hn).
  rewrite norm_comps_pardirs by by left.
  rewrite norm_comps_names by done.
  by rewrite app_nil_r, rev_replicate.
Qed.

Lemma rel_normal_plain cs : rel_normal cs -> Forall plain cs.
Proof.
  intros (k & names & -> & Hn). apply Forall_app. split.
  - apply Forall_replicate, plain_pardir.
  - eapply Forall_impl; [exact Hn | apply is_name_plain].
Qed.

Lemma join_plain_no_leading_sep c cs :
  Forall plain (c :: cs) -> no_leading_sep (Py.join "/" (c :: cs)).
Proof.
  intros [Hc _]%Forall_cons_1. pose proof (plain_no_leading_sep c Hc).
  destruct c as [|x c]; [by destruct Hc|]. by rewrite join_head.
Qed.

Lemma initial_slashes_0 s : no_leading_sep s -> PosixPath.initial_slashes s = 0.
Proof. intros H. unfold PosixPath.initial_slashes. by rewrite startswith_sep. Qed.

Lemma initial_slashes_abs p :
  PosixPath.initial_slashes p <> 0 -> PosixPath.isabs p = true.
Proof.
  unfold PosixPath.initial_slashes, PosixPath.isabs.
  by destruct (Py.startswith p "/").
Qed.

(** [normpath] returns a normalized path. *)
Theorem normpath_idempotent p :
  PosixPath.normpath (PosixPath.normpath p) = PosixPath.normpath p.
Proof.
  destruct (decide (p = [])) as [->|Hp]; [done|].
  set (n := PosixPath.initial_slashes p).
  set (cs := PosixPath.norm_comps n [] (Py.split PosixPath.sep p)).
  destruct (decide (n = 0)) as [En|En].
  - assert (rel_normal cs) as Hcs.
    { subst cs. rewrite En. apply norm_comps_rel; [|apply split_sep_free].
      exists 0, []. done. }
    assert (PosixPath.normpath p
            = if Py.str_eqb (Py.join "/" cs) [] then PosixPath.curdir
              else Py.join "/" cs) as ->.
    { unfold PosixPath.normpath. apply str_eqb_false in Hp. rewrite Hp.
      fold n. fold cs. by rewrite En. }
    clearbody cs. clear n En.
    destruct (Py.str_eqb (Py.join "/" cs) []) eqn:Hj; [done|].
    destruct cs as [|c cs']; [done|].
    pose proof (rel_normal_plain _ Hcs) as Hpl.
    unfold PosixPath.normpath. rewrite Hj.
    rewrite initial_slashes_0 by by apply join_plain_no_leading_sep.
    rewrite (split_join PosixPath.sep); [| done |].
    2:{ eapply Forall_impl; [exact Hpl|]. by intros u [_ ?]. }
    rewrite norm_comps_rel_normal by done. cbn [Nat.eqb]. by rewrite Hj.
  - assert (n = 1 \/ n = 2) as Hn.
    { apply initial_slashes_cases. by apply initial_slashes_abs. }
    assert (Forall is_name cs) as Hcs.
    { subst cs. apply norm_comps_is_name; [done | done | apply split_sep_free]. }
    assert (PosixPath.normpath p = abs_path n cs) as ->.
    { unfold PosixPath.normpath. apply str_eqb_false in Hp. rewrite Hp.
      fold n. fold cs. apply Nat.eqb_neq in En. rewrite En.
      assert (Py.str_eqb (replicate n PosixPath.sep ++ Py.join "/" cs) []
              = false) as ->; [|done].
      apply str_eqb_false. by apply root_nonempty. }
    by apply normpath_abs_path.
Qed.

End NormpathIdem.

(** * The rewrite of one file *)

Section RewriteFacts.

Variable cwd : str.

Implicit Types (s u v r ip rest : str) (moves : gmap str str).

Lemma normalized_normpath p : normalized (PosixPath.normpath p).
Proof. apply normpath_idempotent. Qed.

Lemma normalized_resolve_import from_file ip : normalized (resolve_import from_file ip).
Proof. apply normpath_idempotent. Qed.

Lemma new_path_of_not_key moves p :
  normalized p -> moves !! p = None -> new_path_of p moves = p.
Proof. intros Hp Hk. unfold new_path_of. by rewrite Hp, Hk. Qed.

Lemma replace_go_skip old new a s :
  Py.replace_go old new (length a) (a ++ s) = Py.replace_go old new 0 s.
Proof. induction a as [|x a IH]; [done|]. simpl. apply IH. Qed.

Lemma import_shape_dot ip : import_shape ip = true -> exists ip', ip = "."%char :: ip'.
Proof.
  unfold import_shape.
  destruct (Py.startswith ip "./") eqn:E1.
  - apply startswith_spec in E1 as [r ->]. by eexists.
  - destruct (Py.startswith ip "../") eqn:E2; [|done].
    apply startswith_spec in E2 as [r ->]. by eexists.
Qed.

Lemma startswith_other (c x : ascii) s p :
  c <> x -> Py.startswith (c :: s) (x :: p) = false.
Proof.
  intros Hc. cbn [Py.startswith].
  assert (Py.eqc x c = false) as ->; [|done]. apply eqc_false. congruence.
Qed.

(** [match.group(0).replace(import_path, new_rel)] replaces the group and
    nothing else. *)
Lemma replace_group0 ip new :
  import_shape ip = true ->
  Py.replace (from_quote ++ ip ++ [dq]) ip new = from_quote ++ new ++ [dq].
Proof.
  intros [ip' ->]%import_shape_dot. unfold Py.replace.
  change (from_quote ++ ("."%char :: ip') ++ [dq])
    with ("f"%char :: "r"%char :: "o"%char :: "m"%char :: " "%char :: dq
          :: ("."%char :: ip') ++ [dq]).
  do 6 (cbn [Py.replace_go]; rewrite startswith_other by done).
  cbn [Py.replace_go app].
  assert (Py.startswith ("."%char :: ip' ++ [dq]) ("."%char :: ip') = true)
    as -> by apply (startswith_app ("."%char :: ip') [dq]).
  replace (length ("."%char :: ip') - 1) with (length ip') by (simpl; lia).
  rewrite replace_go_skip.
  cbn [Py.replace_go]. by rewrite startswith_other.
Qed.

(** An import that already is what [make_relative] would write, and whose
    target stays, is replaced by itself. *)
Lemma replace_import_fixed moves old_abs ip :
  import_shape ip = true ->
  moves !! resolve_import old_abs ip = None ->
  make_relative cwd old_abs (resolve_import old_abs ip) = Some ip ->
  replace_import cwd moves old_abs old_abs ip = Some (from_quote ++ ip ++ [dq]).
Proof.
  intros Hsh Hk Hrel. unfold replace_import.
  rewrite new_path_of_not_key by (done || apply normalized_resolve_import).
  rewrite Hrel. cbn [mbind option_bind]. by rewrite replace_group0.
Qed.

End RewriteFacts.

Section FileClaims.

Context {FS : Type} {os : OS FS}.
Variable cwd : str.
Variable BASE : str.

Implicit Types (w : world FS) (moves : gmap str str)
  (updates : list (str * (str * str))).

Lemma rewrite_imports_no_match moves old_abs new_abs content :
  find_imports content = [] ->
  rewrite_imports cwd moves old_abs new_abs content = Some content.
Proof.
  intros Hnone. unfold rewrite_imports. apply re_sub_identity.
  by rewrite Hnone.
Qed.

Lemma entry_of_file moves (d : FS) files updates old_abs content u :
  updates_from cwd moves d files [] = Some updates ->
  read_text d old_abs = Some content ->
  (old_abs, u) ∈ updates ->
  update_of cwd moves old_abs content = Some (u.1, u.2, true).
Proof.
  intros Hupd Hread Hin.
  pose proof (updates_from_entries cwd _ _ _ _ _ Hupd (Forall_nil_2 _)) as Hent.
  eapply Forall_forall in Hent as (content' & Hread' & Hu); [|exact Hin].
  simpl in *. rewrite Hread in Hread'. by injection Hread' as <-.
Qed.

(** C5 (as amended).  No spurious update for untouched files: for a
    discovered file that is not a key of the move mapping, when every
    import matched in its content has a target that is not a key of the
    move mapping and is written the way [make_relative] writes it, the
    rewrite returns the content as it is, no entry is recorded for the
    file, and so no entry for it appears in the updates mapping. *)
Theorem untouched_file_not_updated (moves : gmap str str) (f content : str) :
  normalized f -> moves !! f = None ->
  Forall (fun ip =>
            moves !! resolve_import f ip = None
            /\ make_relative cwd f (resolve_import f ip) = Some ip)
         (find_imports content) ->
  rewrite_imports cwd moves f (new_path_of f moves) content = Some content
  /\ update_of cwd moves f content = Some (f, content, false)
  /\ forall (d : FS) files updates,
       read_text d f = Some content ->
       updates_from cwd moves d files [] = Some updates ->
       f ∉ updates.*1.
Proof.
  intros Hf Hk Himports.
  rewrite (new_path_of_not_key moves f Hf Hk).
  assert (rewrite_imports cwd moves f f content = Some content) as Hrw.
  { unfold rewrite_imports. apply re_sub_identity.
    assert (Forall (fun ip => import_shape ip = true) (find_imports content))
      as Hshape.
    { clear. induction content as [|s ip rest Hm IH|c s Hm IH] using scan_ind.
      - done.
      - rewrite (find_imports_match _ _ _ Hm). constructor; [|done].
        by apply match_import_spec in Hm as (_ & _ & ?).
      - by rewrite (find_imports_no_match _ _ Hm). }
    pose proof (proj2 (Forall_and _ _) (conj Himports Hshape)) as Hall.
    eapply Forall_impl; [exact Hall|].
    intros ip [[Hkey Hrel] Hsh]. by apply replace_import_fixed. }
  assert (update_of cwd moves f content = Some (f, content, false)) as Hup.
  { unfold update_of. rewrite (new_path_of_not_key moves f Hf Hk), Hrw.
    cbn [mbind option_bind].
    rewrite (bool_decide_eq_false_2 (content <> content)) by auto.
    by rewrite (bool_decide_eq_false_2 (f <> f)) by auto. }
  split_and!; [done | done |].
  intros d files updates Hread Hupd ([k u] & Hkf & Hin)%list_elem_of_fmap.
  simpl in Hkf. subst k.
  pose proof (entry_of_file _ _ _ _ _ _ _ Hupd Hread Hin) as Hu.
  rewrite Hup in Hu. done.
Qed.

End FileClaims.

Lemma untouched_file_not_updated_witness :
  let moves := normalize_moves moves_c in
  let f : str := "/repo/src/b.ts" in
  let content := import_stmt "a" "./a.js" in
  (normalized f /\ moves !! f = None
   /\ find_imports content = [("./a.js" : str)])
  /\ rewrite_imports "/" moves f (new_path_of f moves) content = Some content
  /\ update_of "/" moves f content = Some (f, content, false)
  /\ forall (d : gmap str str) files updates,
       read_text d f = Some content ->
       updates_from "/" moves d files [] = Some updates ->
       f ∉ updates.*1.
Proof.
  intros moves f content.
  assert (normalized f) as Hf by by_eval.
  assert (moves !! f = None) as Hk by by_eval.
  assert (find_imports content = [("./a.js" : str)]) as Hfind by by_eval.
  split; [done|].
  apply (untouched_file_not_updated (FS := gmap str str) "/" moves f content);
    [done | done |].
  rewrite Hfind. apply Forall_cons_2; [|done]. split; by_eval.
Defined.

(** C5, counterexample.  [b.ts] is not moved and its import points at
    [a.ts], which is not moved either, but the import is written with a
    detour: the rewrite changes the content, an entry is recorded, and the
    run writes the file. *)
Lemma untouched_file_counterexample :
  let moves := normalize_moves moves_c in
  let f : str := "/repo/src/b.ts" in
  let content := import_stmt "a" "./sub/../a.js" in
  let r := run "/" "/repo/src" moves_c (World disk_detour []) in
  f ∈ collect_files "/repo/src" disk_detour
  /\ disk_detour !! f = Some content
  /\ moves !! f = None
  /\ find_imports content = [("./sub/../a.js" : str)]
  /\ resolve_import f "./sub/../a.js" = "/repo/src/a.ts"
  /\ moves !! ("/repo/src/a.ts" : str) = None
  /\ update_of "/" moves f content = Some (f, import_stmt "a" "./a.js", true)
  /\ r.2 = inr tt
  /\ disk r.1 !! f = Some (import_stmt "a" "./a.js")
  /\ import_stmt "a" "./a.js" <> content.
Proof.
  intros moves f content r. split_and!; try by_eval.
  - by_decide.
  - by vm_compute.
Qed.

(** * Substituting twice *)

Section Stable.

Implicit Types (s u v r ip rel rest a x : str) (c y : ascii).

Variable repl : str -> option str.

(** What the replacement of an import without backslash looks like: the
    literal, a new group without double quote that does not end in a
    space, and the closing double quote; and a new group that the pattern
    matches is replaced by itself. *)
Hypothesis repl_form : forall ip,
  import_shape ip = true -> dq ∉ ip -> backslash ∉ ip ->
  exists rel,
    repl ip = Some (from_quote ++ rel ++ [dq])
    /\ (dq ∉ rel)
    /\ (exists q y, rel = q ++ [y] /\ y <> " "%char)
    /\ (import_shape rel = true -> repl rel = Some (from_quote ++ rel ++ [dq])).

Lemma match_import_head c s : c <> "f"%char -> match_import (c :: s) = None.
Proof.
  intros Hc. unfold match_import.
  assert (Py.startswith (c :: s) from_quote = false) as ->; [|done].
  exact (startswith_other c "f"%char s (drop 1 from_quote) Hc).
Qed.

Lemma plain_imports_match s ip rest :
  match_import s = Some (ip, rest) -> plain_imports s ->
  (backslash ∉ ip) /\ plain_imports rest.
Proof.
  intros Hm. unfold plain_imports. rewrite (find_imports_match _ _ _ Hm).
  by intros [? ?]%Forall_cons_1.
Qed.

Lemma plain_imports_no_match c s :
  match_import (c :: s) = None -> plain_imports (c :: s) -> plain_imports s.
Proof.
  intros Hm. unfold plain_imports. by rewrite (find_imports_no_match _ _ Hm).
Qed.

Lemma plain_imports_other c s :
  c <> "f"%char -> plain_imports (c :: s) -> plain_imports s.
Proof. intros Hc. apply plain_imports_no_match. by apply match_import_head. Qed.

Lemma break_at_from_quote v :
  break_at dq (from_quote ++ v) = Some ("from " : str, v).
Proof. apply break_at_spec. split; [done|]. by_decide. Qed.

(** A text without double quote holds no match. *)
Lemma re_sub_no_quote s : dq ∉ s -> re_sub_imports repl s = Some s.
Proof.
  intros Hq. apply re_sub_identity.
  induction s as [|s ip rest Hm IH|c s Hm IH] using scan_ind.
  - done.
  - apply match_import_spec in Hm as (-> & _). exfalso. apply Hq.
    rewrite !elem_of_app. right. right. by left.
  - rewrite (find_imports_no_match _ _ Hm). apply IH.
    by apply not_elem_of_cons in Hq as [_ ?].
Qed.

(** The substitution keeps the text up to the first double quote. *)
Lemma re_sub_first_quote s s1 u rest :
  plain_imports s -> re_sub_imports repl s = Some s1 ->
  break_at dq s = Some (u, rest) ->
  exists rest1, break_at dq s1 = Some (u, rest1).
Proof.
  revert s1 u rest.
  induction s as [|s ip rest' Hm IH|c s Hm IH] using scan_ind;
    intros s1 u rest Hbs Hsub Hbr.
  - done.
  - destruct (plain_imports_match _ _ _ Hm Hbs) as [Hbi Hbr'].
    pose proof Hm as (-> & Hq & Hsh)%match_import_spec.
    rewrite (re_sub_match _ _ _ _ Hm) in Hsub.
    destruct (repl_form ip Hsh Hq Hbi) as (rel & Hrel & _).
    rewrite Hrel in Hsub. cbn [mbind option_bind] in Hsub.
    destruct (re_sub_imports repl rest') as [t|]; [|done].
    injection Hsub as <-.
    rewrite break_at_from_quote in Hbr. injection Hbr as <- <-.
    eexists. apply break_at_spec. split; [reflexivity | by_decide].
  - rewrite (re_sub_no_match _ _ _ Hm) in Hsub.
    destruct (re_sub_imports repl s) as [t|] eqn:Hs; [|done].
    injection Hsub as <-. cbn [break_at] in *.
    destruct (Py.eqc c dq); [injection Hbr as <- <-; by eexists|].
    destruct (break_at dq s) as [[u' r']|] eqn:Hb; [|done].
    injection Hbr as <- <-.
    destruct (IH t u' r') as [rest1 ->]; [|done|done|by eexists].
    by apply (plain_imports_no_match c).
Qed.

Lemma re_sub_cons_other c s :
  c <> "f"%char ->
  re_sub_imports repl (c :: s) = t ← re_sub_imports repl s; Some (c :: t).
Proof. intros Hc. apply re_sub_no_match. by apply match_import_head. Qed.

(** Where no match starts, none starts after the substitution. *)
Lemma re_sub_no_new_match c s s1 :
  plain_imports s -> match_import (c :: s) = None ->
  re_sub_imports repl s = Some s1 -> match_import (c :: s1) = None.
Proof.
  intros Hbs Hm Hsub.
  destruct (match_import (c :: s1)) as [[ip1 rest1]|] eqn:Hm1; [|done].
  exfalso. apply match_import_spec in Hm1 as (E & Hq1 & Hsh1).
  injection E as -> ->.
  destruct (decide (dq ∈ s)) as [Hin|Hnot].
  2:{ rewrite (re_sub_no_quote _ Hnot) in Hsub. injection Hsub as ->.
      assert (Some (ip1, rest1) = None) as Habs; [|done].
      rewrite <- Hm. symmetry.
      exact (proj2 (match_import_spec _ ip1 rest1)
               (conj eq_refl (conj Hq1 Hsh1))). }
  destruct (break_at dq s) as [[u r]|] eqn:Hb.
  2:{ by apply break_at_none in Hb. }
  destruct (re_sub_first_quote _ _ _ _ Hbs Hsub Hb) as [r1 Hb1].
  change ("r"%char :: "o"%char :: "m"%char :: " "%char :: dq :: ip1 ++ dq :: rest1)
    with (("rom " : str) ++ dq :: ip1 ++ dq :: rest1) in *.
  rewrite (proj2 (break_at_spec dq _ ("rom " : str) (ip1 ++ dq :: rest1))) in Hb1.
  2:{ split; [done | by_decide]. }
  injection Hb1 as <- <-.
  apply break_at_spec in Hb as [-> _].
  cbn [app list_ascii_of_string] in Hsub, Hbs, Hm.
  rewrite !re_sub_cons_other in Hsub by done.
  destruct (re_sub_imports repl r) as [t|] eqn:Hr; [|done].
  cbn [mbind option_bind] in Hsub. injection Hsub as ->.
  assert (plain_imports r) as Hbr.
  { by do 5 (apply plain_imports_other in Hbs; [|done]). }
  assert (exists r', r = ip1 ++ dq :: r') as [r' ->].
  { destruct (decide (dq ∈ r)) as [Hin'|Hnot'].
    - destruct (break_at dq r) as [[u2 r2]|] eqn:Hb2.
      2:{ by apply break_at_none in Hb2. }
      destruct (re_sub_first_quote _ _ _ _ Hbr Hr Hb2) as [r3 Hb3].
      rewrite (proj2 (break_at_spec dq _ ip1 rest1)) in Hb3 by done.
      injection Hb3 as <- <-. apply break_at_spec in Hb2 as [-> _].
      by eexists.
    - rewrite (re_sub_no_quote _ Hnot') in Hr. injection Hr as ->.
      by eexists. }
  assert (Some (ip1, r') = None) as Habs; [|done].
  rewrite <- Hm. symmetry.
  exact (proj2 (match_import_spec _ ip1 r') (conj eq_refl (conj Hq1 Hsh1))).
Qed.

(** Characters that start no match are passed over. *)
Lemma find_imports_skip a x :
  (forall a1 a2, a = a1 ++ a2 -> a2 <> [] -> match_import (a2 ++ x) = None) ->
  find_imports (a ++ x) = find_imports x.
Proof.
  induction a as [|c a IH]; intros Ha; [done|].
  cbn [app]. rewrite find_imports_no_match.
  - apply IH. intros a1 a2 -> Hne. by apply (Ha (c :: a1) a2).
  - by apply (Ha [] (c :: a)).
Qed.

Lemma match_import_starts s ip rest :
  match_import s = Some (ip, rest) ->
  exists v, s = ("from " : str) ++ dq :: v.
Proof. intros (-> & _)%match_import_spec. by eexists. Qed.

(** A replacement that the pattern does not match holds no match of its
    own, whatever follows. *)
Lemma find_imports_replacement rel x :
  dq ∉ rel -> (exists q y, rel = q ++ [y] /\ y <> " "%char) ->
  import_shape rel = false ->
  find_imports ((from_quote ++ rel ++ [dq]) ++ x) = find_imports x.
Proof.
  intros Hq (q & y & Hrel & Hy) Hsh. apply find_imports_skip.
  intros a1 a2 E Hne.
  destruct (match_import (a2 ++ x)) as [[ip v]|] eqn:Hm; [|done]. exfalso.
  destruct a1 as [|c1 a1].
  { cbn [app] in E. subst a2. rewrite <- !app_assoc in Hm.
    cbn [app] in Hm. rewrite match_import_quoted in Hm by done.
    by rewrite Hsh in Hm. }
  apply match_import_starts in Hm as [v' Hv].
  assert (forall k, a2 = k ++ rel ++ [dq] -> k <> [] ->
                    (exists c k', k = c :: k' /\ c <> "f"%char) -> False) as Hk.
  { intros k -> _ (c & k' & -> & Hc). by injection Hv as ->. }
  change (from_quote ++ rel ++ [dq])
    with ("f"%char :: "r"%char :: "o"%char :: "m"%char :: " "%char :: dq
          :: rel ++ [dq]) in E.
  cbn [app] in E. injection E as <- E.
  destruct a1 as [|c2 a1]; cbn [app] in E;
    [subst a2; by apply (Hk ("rom " ++ [dq])); eauto|]. injection E as <- E.
  destruct a1 as [|c3 a1]; cbn [app] in E;
    [subst a2; by apply (Hk ("om " ++ [dq])); eauto|]. injection E as <- E.
  destruct a1 as [|c4 a1]; cbn [app] in E;
    [subst a2; by apply (Hk ("m " ++ [dq])); eauto|]. injection E as <- E.
  destruct a1 as [|c5 a1]; cbn [app] in E;
    [subst a2; by apply (Hk (" " ++ [dq])); eauto|]. injection E as <- E.
  destruct a1 as [|c6 a1]; cbn [app] in E;
    [subst a2; by apply (Hk [dq]); eauto|]. injection E as <- E.
  (* the suffix starts inside the new group, or is the closing quote *)
  assert (exists a2', a2 = a2' ++ [dq] /\ rel = a1 ++ a2') as (a2' & -> & Hrel').
  { destruct (exists_last Hne) as (a2' & z & ->).
    rewrite app_assoc in E. apply app_inj_tail in E as [-> ->]. by eexists. }
  rewrite <- app_assoc in Hv. cbn [app] in Hv.
  assert (dq ∉ a2') as Hq2.
  { intros H. apply Hq. rewrite Hrel'. apply elem_of_app. by right. }
  pose proof (proj2 (break_at_spec dq (a2' ++ dq :: x) a2' x)
                (conj eq_refl Hq2)) as Hb.
  rewrite Hv in Hb.
  rewrite (proj2 (break_at_spec dq _ ("from " : str) v')) in Hb.
  2:{ split; [done | by_decide]. }
  injection Hb as <- _.
  rewrite Hrel in Hrel'.
  change ["f"%char; "r"%char; "o"%char; "m"%char; " "%char]
    with (["f"%char; "r"%char; "o"%char; "m"%char] ++ [" "%char]) in Hrel'.
  rewrite app_assoc in Hrel'. by apply app_inj_tail in Hrel' as [_ ->].
Qed.

(** After one substitution every import that the pattern matches is
    replaced by itself. *)
Lemma re_sub_stable s :
  plain_imports s ->
  exists s1,
    re_sub_imports repl s = Some s1
    /\ Forall (fun ip => repl ip = Some (from_quote ++ ip ++ [dq]))
              (find_imports s1).
Proof.
  induction s as [|s ip rest Hm IH|c s Hm IH] using scan_ind; intros Hbs.
  - by exists [].
  - destruct (plain_imports_match _ _ _ Hm Hbs) as [Hbi Hbr].
    pose proof Hm as (_ & Hq & Hsh)%match_import_spec.
    destruct (repl_form ip Hsh Hq Hbi) as (rel & Hrel & Hqr & Hlast & Hfix).
    destruct (IH Hbr) as (rest1 & Hrest & Hall).
    exists ((from_quote ++ rel ++ [dq]) ++ rest1).
    rewrite (re_sub_match _ _ _ _ Hm), Hrel, Hrest. split; [done|].
    destruct (import_shape rel) eqn:Hshr.
    + rewrite (find_imports_match _ rel rest1).
      * constructor; [by apply Hfix | done].
      * apply match_import_spec. by rewrite <- !app_assoc.
    + by rewrite find_imports_replacement.
  - pose proof (plain_imports_no_match c s Hm Hbs) as Hbs'.
    destruct (IH Hbs') as (s1 & Hs & Hall).
    exists (c :: s1). rewrite (re_sub_no_match _ _ _ Hm), Hs. split; [done|].
    rewrite find_imports_no_match; [done|].
    by apply (re_sub_no_new_match c s).
Qed.

(** Substituting twice gives what substituting once gives. *)
Lemma re_sub_idempotent s :
  plain_imports s ->
  exists s1, re_sub_imports repl s = Some s1
             /\ re_sub_imports repl s1 = Some s1.
Proof.
  intros Hbs. destruct (re_sub_stable s Hbs) as (s1 & Hs & Hall).
  exists s1. split; [done|]. by apply re_sub_identity.
Qed.

End Stable.

(** * The replacement of one import under an empty move mapping *)

Section Replacement.

Variable cwd : str.

Implicit Types (s p r u ip rel : str) (cs st F T : list str) (n : nat)
  (y : ascii).

Lemma split_app_free (c : ascii) a b :
  c ∉ b ->
  exists S0 l0, Py.split c a = S0 ++ [l0] /\ Py.split c (a ++ b) = S0 ++ [l0 ++ b].
Proof.
  intros Hb. induction a as [|x a (S0 & l0 & E1 & E2)]; simpl.
  - exists [], []. by rewrite split_free.
  - destruct (Py.eqc x c).
    + exists ([] :: S0), l0. by rewrite E1, E2.
    + rewrite E1, E2. destruct S0 as [|w S0]; simpl.
      * by exists [], (x :: l0).
      * by exists ((x :: w) :: S0), l0.
Qed.

Lemma commonprefix_app F0 F1 N :
  PosixPath.commonprefix (F0 ++ F1) (F0 ++ N)
  = F0 ++ PosixPath.commonprefix F1 N.
Proof.
  induction F0 as [|x F0 IH]; [done|]. simpl.
  assert (Py.str_eqb x x = true) as -> by by apply str_eqb_true.
  by rewrite IH.
Qed.

Lemma endswith_drop k s p : Py.endswith (drop k s) p = true -> Py.endswith s p = true.
Proof.
  rewrite !endswith_spec. intros [r E]. exists (take k s ++ r).
  by rewrite <- app_assoc, <- E, take_drop.
Qed.

Lemma import_shape_inv ip :
  import_shape ip = true ->
  exists w, ip = ("."%char :: w) ++ ".js".
Proof.
  intros Hsh. destruct (import_shape_dot ip Hsh) as [ip' ->].
  assert (Py.endswith ("."%char :: ip') ".js" = true
          /\ 4 <= length ip') as [Hend Hlen].
  { unfold import_shape in Hsh.
    destruct (Py.startswith ("."%char :: ip') "./") eqn:E1.
    - apply andb_true_iff in Hsh as [Hend Hlen].
      apply Nat.ltb_lt in Hlen. rewrite length_drop in Hlen. simpl in Hlen.
      split; [by eapply endswith_drop | lia].
    - destruct (Py.startswith ("."%char :: ip') "../") eqn:E2; [|done].
      apply andb_true_iff in Hsh as [Hend Hlen].
      apply Nat.ltb_lt in Hlen. rewrite length_drop in Hlen. simpl in Hlen.
      split; [by eapply endswith_drop | lia]. }
  apply endswith_spec in Hend as [r E]. destruct r as [|x r].
  - apply (f_equal length) in E. simpl in E. lia.
  - injection E as <- ->. by exists r.
Qed.

Lemma split_head (c x : ascii) s :
  x <> c -> exists w ws, Py.split c (x :: s) = (x :: w) :: ws.
Proof.
  intros Hx. simpl. assert (Py.eqc x c = false) as -> by by apply eqc_false.
  pose proof (split_nonnil c s). destruct (Py.split c s) as [|w ws]; [done|].
  by exists w, ws.
Qed.

Lemma not_elem_of_split (c y : ascii) s :
  y ∉ s -> Forall (fun u => y ∉ u) (Py.split c s).
Proof.
  rewrite <- (join_split c s) at 1. generalize (Py.split c s). intros X.
  induction X as [|a X IH]; [done|]. destruct X as [|b X].
  - intros H. by repeat constructor.
  - rewrite join_cons by done. rewrite !not_elem_of_app.
    intros (Ha & _ & Hrest). constructor; [done | by apply IH].
Qed.

Lemma rev_drop_rev {E : Type} m (l : list E) :
  exists l1, l = rev (drop m (rev l)) ++ l1.
Proof.
  exists (rev (take m (rev l))).
  by rewrite <- rev_app_distr, take_drop, rev_involutive.
Qed.

(** The target of an import of a normalized absolute file: a normalized
    absolute path with the same root that ends in [.ts]; what it has
    below the directory of the file is made of characters of the import. *)
Lemma resolve_import_abs_path n cs ip :
  n = 1 \/ n = 2 -> Forall is_name cs -> import_shape ip = true ->
  exists T,
    resolve_import (abs_path n cs) ip = abs_path n T
    /\ Forall is_name T
    /\ Py.endswith (abs_path n T) ".ts" = true
    /\ forall y, y ∉ ip -> y <> "t"%char ->
         Forall (fun u => y ∉ u)
           (drop (length (PosixPath.commonprefix (removelast cs) T)) T).
Proof.
  intros Hn Hcs Hsh. unfold resolve_import.
  destruct (import_shape_inv ip Hsh) as [w ->].
  rewrite re_sub_suffix_hit, dirname_abs_path by done.
  set (F := removelast cs).
  assert (Forall is_name F) as HF by by apply Forall_removelast.
  set (ts := ("."%char :: w) ++ ".ts").
  assert (("."%char : ascii) <> PosixPath.sep) as Hdot by done.
  destruct (split_app_free PosixPath.sep ("."%char :: w) ".ts")
    as (S0 & l0 & HS0 & HS); [by_decide|]. fold ts in HS.
  assert (Forall (fun u => PosixPath.sep ∉ u) (Py.split PosixPath.sep ts))
    as Hfree by apply split_sep_free.
  assert (is_name (l0 ++ ".ts")) as Hlast.
  { rewrite HS in Hfree. apply Forall_app in Hfree as [_ Hl].
    apply Forall_cons_1 in Hl as [Hl _].
    split_and!; [by destruct l0 | | | done].
    - intros E. apply (f_equal length) in E. rewrite length_app in E.
      simpl in E. lia.
    - intros E. apply (f_equal length) in E. rewrite length_app in E.
      simpl in E. lia. }
  assert (PosixPath.join (abs_path n F) [ts]
          = root n ++ Py.join "/" (F ++ Py.split PosixPath.sep ts)) as ->.
  { unfold PosixPath.join. simpl foldl. unfold PosixPath.join2.
    assert (Py.startswith ts "/" = false) as -> by done.
    assert (Py.str_eqb (abs_path n F) [] = false) as ->.
    { apply str_eqb_false. by apply root_nonempty. }
    cbn [orb]. pose proof (split_nonnil PosixPath.sep ts) as HSne.
    destruct (decide (F = [])) as [->|HFne].
    - unfold abs_path. change (Py.join "/" []) with ([] : str).
      rewrite app_nil_r.
      assert (Py.endswith (root n) "/" = true) as ->.
      { apply endswith_spec.
        destruct Hn as [-> | ->]; [by exists [] | by exists [PosixPath.sep]]. }
      cbn [app]. by rewrite (join_split PosixPath.sep).
    - destruct (join_names_no_trailing_sep F HF HFne) as (r & x & Hj & Hx).
      unfold abs_path. rewrite Hj, app_assoc.
      rewrite endswith_sep_false by done.
      rewrite join_app by done. rewrite Hj, (join_split PosixPath.sep).
      by rewrite <- !app_assoc. }
  destruct (F ++ Py.split PosixPath.sep ts) as [|x l] eqn:E.
  { apply app_eq_nil in E as [_ E]. by apply split_nonnil in E. }
  assert (x <> []) as Hx.
  { destruct F as [|a F'].
    - destruct (split_head PosixPath.sep "."%char (w ++ ".ts"))
        as (w0 & ws & Hw); [done|].
      unfold ts in E. cbn [app] in E. rewrite Hw in E. by injection E as <- _.
    - injection E as <- _. apply Forall_cons_1 in HF as [(? & _) _]. done. }
  rewrite normpath_root_join; [| done | done |].
  2:{ rewrite <- E. apply Forall_app. split; [by apply is_name_sep_free|done]. }
  rewrite <- E, norm_comps_app_names, app_nil_r by done.
  exists (PosixPath.norm_comps n (rev F) (Py.split PosixPath.sep ts)).
  split; [done|]. split.
  { apply norm_comps_is_name; [lia | by apply Forall_rev | done]. }
  split.
  { rewrite HS, norm_comps_snoc by done. unfold abs_path.
    rewrite join_last. apply endswith_spec.
    eexists. by rewrite !app_assoc. }
  intros y Hy Ht.
  assert (y ∉ ts) as Hyts.
  { unfold ts. apply not_elem_of_app in Hy as [Hy Hjs].
    apply not_elem_of_app. split; [done|].
    apply not_elem_of_cons in Hjs as [H1 Hjs].
    apply not_elem_of_cons in Hjs as [_ Hjs].
    apply not_elem_of_cons in Hjs as [H3 _].
    repeat (apply not_elem_of_cons; split; [done|]). apply not_elem_of_nil. }
  destruct (norm_comps_tail (fun u => y ∉ u) n (rev F)
              (Py.split PosixPath.sep ts)) as (m & new & -> & Hnew).
  { by apply not_elem_of_split. }
  destruct (rev_drop_rev m F) as [F1 HF1].
  set (F0 := rev (drop m (rev F))) in *. rewrite HF1 at 1.
  rewrite commonprefix_app, length_app, drop_app_add.
  by apply Forall_drop.
Qed.

End Replacement.

Section ReplacementForm.

Variable cwd : str.

Implicit Types (s p r u ip rel : str) (cs st F T : list str) (n : nat)
  (y : ascii).

(** The relative path between two normalized absolute paths, the second
    of which ends in [.ts]: dots only, or a text that ends in [.ts]. *)
Lemma rel_string_cases n F T :
  n = 1 \/ n = 2 -> Forall is_name T ->
  Py.endswith (abs_path n T) ".ts" = true ->
  (exists r, rel_string F T = r ++ ["."%char]
             /\ Py.startswith (r ++ ["."%char]) "." = true)
  \/ (exists w, rel_string F T = w ++ ".ts").
Proof.
  intros Hn HT Hts.
  destruct (commonprefix_split F T) as (A & B & HA & HB).
  pose proof (rel_comps_split F T A B HA HB) as Hrel.
  destruct (decide (B = [])) as [->|HB0].
  - left. rewrite app_nil_r in Hrel. destruct (length A) as [|k].
    + exists []. by rewrite rel_string_nil.
    + destruct (join_pardirs_last k) as [r Hr]. exists r.
      rewrite rel_string_join by (by rewrite Hrel).
      rewrite Hrel, <- Hr. split; [done|]. cbn [replicate].
      change PosixPath.pardir with ("."%char :: ["."%char]) at 1.
      rewrite join_head. apply startswith_spec. by eexists.
  - right.
    destruct (abs_path_endswith n T ".ts" Hn) as (T0 & t0 & HT0); try done.
    { by_decide. }
    destruct (exists_last HB0) as (B0 & t & ->).
    assert (t = t0 ++ ".ts") as ->.
    { rewrite HT0, app_assoc in HB. by apply app_inj_tail in HB as [_ ?]. }
    rewrite rel_string_join.
    + rewrite Hrel, app_assoc, join_last. eexists. by rewrite app_assoc.
    + rewrite Hrel. intros E. apply app_eq_nil in E as [_ E].
      by apply app_eq_nil in E as [_ ?].
Qed.

Lemma not_elem_of_dot_slash y s :
  y <> "."%char -> y <> "/"%char -> y ∉ s -> y ∉ dot_slash s.
Proof.
  intros H1 H2 Hs. unfold dot_slash. destruct (negb _); [|done].
  apply not_elem_of_app. split; [|done].
  repeat (apply not_elem_of_cons; split; [done|]). apply not_elem_of_nil.
Qed.

(** What [replace_import] returns for an import of a normalized absolute
    file when nothing moves. *)
Lemma replace_import_form n cs ip :
  n = 1 \/ n = 2 -> Forall is_name cs ->
  import_shape ip = true -> dq ∉ ip -> backslash ∉ ip ->
  let f := abs_path n cs in
  exists rel,
    replace_import cwd ∅ f f ip = Some (from_quote ++ rel ++ [dq])
    /\ (dq ∉ rel)
    /\ (exists q y, rel = q ++ [y] /\ y <> " "%char)
    /\ (import_shape rel = true ->
        replace_import cwd ∅ f f rel = Some (from_quote ++ rel ++ [dq])).
Proof.
  intros Hn Hcs Hsh Hq Hbs f.
  destruct (resolve_import_abs_path n cs ip Hn Hcs Hsh)
    as (T & Ht & HT & Hts & Htail).
  set (F := removelast cs) in *.
  assert (Forall is_name F) as HF by by apply Forall_removelast.
  assert (PosixPath.dirname f = abs_path n F) as Hdir
    by by apply dirname_abs_path.
  assert (new_path_of (abs_path n T) ∅ = abs_path n T) as Hnew.
  { apply new_path_of_not_key; [by apply normpath_abs_path | done]. }
  assert (backslash ∉ rel_string F T) as Hbrs.
  { apply not_elem_of_rel_string; [done | done |]. by apply Htail. }
  assert (dq ∉ rel_string F T) as Hqrs.
  { apply not_elem_of_rel_string; [done | done |]. by apply Htail. }
  set (rel := dot_slash (Py.re_sub_suffix ".ts" ".js" (rel_string F T))).
  assert (make_relative cwd f (abs_path n T) = Some rel) as Hmk.
  { rewrite (make_relative_abs_path cwd n n F T) by done.
    by replace (Py.replace (rel_string F T) "\" "/") with (rel_string F T)
      by (symmetry; by apply (replace_absent _ backslash)). }
  assert (forall ip', import_shape ip' = true ->
            resolve_import f ip' = abs_path n T ->
            replace_import cwd ∅ f f ip' = Some (from_quote ++ rel ++ [dq]))
    as Hrepl.
  { intros ip' Hsh' Hres. unfold replace_import.
    rewrite Hres, Hnew, Hmk. cbn [mbind option_bind].
    by rewrite replace_group0. }
  exists rel. split; [by apply Hrepl|].
  destruct (rel_string_cases n F T Hn HT Hts) as [(r & Hr & Hdot) | (w & Hw)].
  - assert (rel = r ++ ["."%char]) as Erel.
    { unfold rel. rewrite Hr.
      rewrite (re_sub_suffix_miss ".t" "s"%char) by done.
      unfold dot_slash. by rewrite Hdot. }
    split_and!.
    + by rewrite Erel, <- Hr.
    + exists r, "."%char. done.
    + intros Hshr. apply Hrepl; [done|].
      destruct (round_trip_abs_path cwd n F T f Hn HF HT Hdir Hts Hbrs)
        as (rel' & Hmk' & Hres).
      rewrite Hmk in Hmk'. by injection Hmk' as <-.
  - assert (rel = dot_slash (w ++ ".js")) as Erel.
    { unfold rel. by rewrite Hw, re_sub_suffix_hit. }
    split_and!.
    + rewrite Erel. apply not_elem_of_dot_slash; [done | done |].
      rewrite Hw in Hqrs. apply not_elem_of_app in Hqrs as [Hqw _].
      apply not_elem_of_app. split; [done | by_decide].
    + rewrite Erel. unfold dot_slash. destruct (negb _).
      * exists ("./" ++ w ++ ".j"), "s"%char. by rewrite <- !app_assoc.
      * exists (w ++ ".j"), "s"%char. by rewrite <- !app_assoc.
    + intros Hshr. apply Hrepl; [done|].
      destruct (round_trip_abs_path cwd n F T f Hn HF HT Hdir Hts Hbrs)
        as (rel' & Hmk' & Hres).
      rewrite Hmk in Hmk'. by injection Hmk' as <-.
Qed.

(** C4 (as amended).  Idempotence of the rewrite under an empty move
    mapping: for a normalized absolute file path and a content in which no
    import that the pattern matches holds a backslash, the rewrite of the
    rewritten content returns it unchanged, so that a second run records
    nothing for the file. *)
Theorem rewrite_imports_idempotent (f content : str) :
  normalized f -> PosixPath.isabs f = true ->
  Forall (fun ip => backslash ∉ ip) (find_imports content) ->
  exists content1,
    rewrite_imports cwd ∅ f (new_path_of f ∅) content = Some content1
    /\ rewrite_imports cwd ∅ f (new_path_of f ∅) content1 = Some content1
    /\ update_of cwd ∅ f content1 = Some (f, content1, false).
Proof.
  intros Hf Habs Hbs.
  rewrite (new_path_of_not_key ∅ f Hf) by done.
  destruct (normalized_abs_inv f Hf Habs) as (n & cs & Hn & Hcs & ->).
  destruct (re_sub_idempotent
              (replace_import cwd ∅ (abs_path n cs) (abs_path n cs))
              (fun ip => replace_import_form n cs ip Hn Hcs)
              content Hbs) as (content1 & H1 & H2).
  exists content1. unfold rewrite_imports. split_and!; [done | done |].
  unfold update_of. rewrite (new_path_of_not_key ∅ _ Hf) by done.
  unfold rewrite_imports. rewrite H2. cbn [mbind option_bind].
  rewrite (bool_decide_eq_false_2 (content1 <> content1)) by auto.
  by rewrite (bool_decide_eq_false_2 (abs_path n cs <> abs_path n cs)) by auto.
Qed.

End ReplacementForm.

Lemma rewrite_imports_idempotent_witness :
  let f : str := "/repo/src/b.ts" in
  let content : str :=
    "const p = 'C:\tmp'; " ++ import_stmt "a" "./sub/../a.js" in
  (normalized f /\ PosixPath.isabs f = true
   /\ backslash ∈ content
   /\ find_imports content = [("./sub/../a.js" : str)])
  /\ exists content1,
       rewrite_imports "/" ∅ f (new_path_of f ∅) content = Some content1
       /\ rewrite_imports "/" ∅ f (new_path_of f ∅) content1 = Some content1
       /\ update_of "/" ∅ f content1 = Some (f, content1, false).
Proof.
  intros f content.
  assert (normalized f) as Hf by by_eval.
  assert (PosixPath.isabs f = true) as Habs by by_eval.
  assert (find_imports content = [("./sub/../a.js" : str)]) as Hfind
    by by_eval.
  split; [split_and!; [done | done | by_decide | done]|].
  apply rewrite_imports_idempotent; [done | done |].
  rewrite Hfind. by_decide.
Defined.

(** C4, counterexample.  An import path with backslashes in a discovered
    file: the first rewrite turns them into slashes, which makes a [..]
    component of what was one file name, and the second rewrite resolves
    it. *)
Lemma rewrite_twice_counterexample :
  let f : str := "/repo/src/c.ts" in
  let content := import_stmt "b" "./a\..\b.js" in
  let content1 := import_stmt "b" "./a/../b.js" in
  let content2 := import_stmt "b" "./b.js" in
  normalized f
  /\ PosixPath.isabs f = true
  /\ find_imports content = [("./a\..\b.js" : str)]
  /\ rewrite_imports "/" ∅ f (new_path_of f ∅) content = Some content1
  /\ rewrite_imports "/" ∅ f (new_path_of f ∅) content1 = Some content2
  /\ content1 <> content2.
Proof.
  intros f content content1 content2. split_and!; try by_eval. by vm_compute.
Qed.

(** * Further properties of the code *)

(** The result of a computation, from its outcome alone. *)
Lemma run_pair {FS A : Type} (m : M FS A) (w : world FS) (res : error + A) :
  (m w).2 = res -> m w = ((m w).1, res).
Proof. intros <-. apply surjective_pairing. Qed.

Ltac by_run := apply run_pair; vm_compute; reflexivity.

Section Disks.

Context {FS : Type} {os : OS FS}.
Variable cwd : str.
Variable BASE : str.

Implicit Types (w : world FS) (moves : gmap str str)
  (updates : list (str * (str * str))).

Lemma flush_updates_disk repo_root updates w w' :
  flush_updates cwd repo_root updates w = (w', inr tt) ->
  flushed updates (disk w) = Some (disk w').
Proof.
  unfold flush_updates. revert w.
  induction updates as [|[old_abs [new_abs new_content]] updates IH];
    intros w; cbn [for_each flushed].
  - by intros [= <-].
  - intros Hrun.
    apply bind_inv in Hrun as [(e & _ & ?) | (w1 & [] & H1 & H2)]; [done|].
    apply IH in H2.
    assert (write_text (disk w) new_abs new_content = Some (disk w1)) as ->.
    { unfold flush_one in H1. destruct (Py.str_eqb old_abs new_abs); by m_inv. }
    done.
Qed.

(** The paths written in step 3 are the new paths of the keys of
    [updates]: a file that is neither a key of [updates] nor the
    destination of a move is not written. *)
Lemma written_paths moves (d : FS) files updates f :
  updates_from cwd moves d files [] = Some updates ->
  Forall (fun p => PosixPath.normpath p = p) files ->
  f ∉ updates.*1 ->
  (forall old, moves !! old <> Some f) ->
  f ∉ (updates.*2).*1.
Proof.
  intros Hupd Hfiles Hf Hdest Hin.
  apply list_elem_of_fmap in Hin as ([p c] & Hp & Hin). simpl in Hp. subst p.
  apply list_elem_of_fmap in Hin as ([old [p c']] & Heq & Hin).
  simpl in Heq. injection Heq as <- <-.
  pose proof (updates_from_entries cwd _ _ _ _ _ Hupd (Forall_nil_2 _)) as Hent.
  eapply Forall_forall in Hent as (content & _ & Hu); [|exact Hin].
  simpl in Hu. unfold update_of in Hu.
  destruct (rewrite_imports _ _ _ _ _) as [nc|]; [|done].
  cbn [mbind option_bind] in Hu. injection Hu as Hnew _ _.
  assert (old ∈ files) as Hold.
  { destruct (updates_from_keys_sub cwd moves d files [] updates old Hupd)
      as [H0|H0]; [| by apply elem_of_nil in H0 | done].
    apply list_elem_of_fmap. by exists (old, (f, c)). }
  eapply Forall_forall in Hfiles; [|exact Hold].
  unfold new_path_of in Hnew. rewrite Hfiles in Hnew.
  destruct (moves !! old) as [new|] eqn:Hk.
  - simpl in Hnew. subst new. by apply (Hdest old).
  - simpl in Hnew. subst old. apply Hf.
    apply list_elem_of_fmap. by exists (f, (f, c)).
Qed.

Lemma collect_files_normalized (d : FS) :
  Forall (fun p => PosixPath.normpath p = p) (collect_files BASE d).
Proof.
  unfold collect_files. apply Forall_forall. intros p Hin.
  apply list_elem_of_fmap in Hin as (rf & -> & _).
  apply normpath_idempotent.
Qed.

End Disks.

Section MakeRelativeFacts.

Implicit Types (s p r u new : str) (x c : ascii).

Lemma replace_go_removes x new s :
  x ∉ new -> x ∉ Py.replace_go [x] new 0 s.
Proof.
  intros Hnew. induction s as [|c s IH]; [apply not_elem_of_nil|].
  cbn [Py.replace_go Py.startswith length Nat.sub].
  destruct (Py.eqc x c) eqn:E; cbn [andb].
  - by apply not_elem_of_app.
  - apply not_elem_of_cons. split; [|done].
    apply eqc_false in E. congruence.
Qed.

Lemma re_sub_suffix_keeps_out x sfx new s :
  x ∉ s -> x ∉ new -> x <> Py.nl -> x ∉ Py.re_sub_suffix sfx new s.
Proof.
  intros Hs Hnew Hnl. unfold Py.re_sub_suffix.
  assert (forall k, x ∉ take k s) as Htake.
  { intros k Hin. by apply (subseteq_take k s) in Hin. }
  destruct (Py.endswith s sfx); [by apply not_elem_of_app|].
  destruct (Py.endswith s (sfx ++ [Py.nl])); [|done].
  rewrite !not_elem_of_app, not_elem_of_cons. split_and!; try done.
  apply not_elem_of_nil.
Qed.

Lemma relpath_None cwd path start :
  PosixPath.relpath cwd path start = None <-> path = [].
Proof.
  unfold PosixPath.relpath. destruct (Py.str_eqb path []) eqn:E.
  - by apply str_eqb_true in E.
  - apply str_eqb_false in E. split; [|done]. by destruct (_ ++ _).
Qed.

End MakeRelativeFacts.

(** X2.  What [make_relative] returns begins with a dot and holds no
    backslash. *)
Theorem make_relative_begins_with_dot (cwd from_file to_file rel : str) :
  make_relative cwd from_file to_file = Some rel ->
  Py.startswith rel "." = true /\ backslash ∉ rel.
Proof.
  intros H.
  assert (exists rel0,
            rel = dot_slash (Py.re_sub_suffix ".ts" ".js"
                               (Py.replace rel0 "\" "/"))) as [rel0 ->].
  { unfold make_relative in H.
    destruct (PosixPath.relpath _ _ _) as [rel0|]; [|done].
    exists rel0. symmetry. by injection H. }
  clear H. set (r := Py.re_sub_suffix _ _ _).
  assert (backslash ∉ r) as Hr.
  { apply re_sub_suffix_keeps_out; [|by_decide|done].
    apply replace_go_removes. by_decide. }
  clearbody r. unfold dot_slash.
  destruct (Py.startswith r ".") eqn:E; cbn [negb].
  - by split.
  - split; [done|]. apply not_elem_of_app. split; [by_decide|done].
Qed.

Lemma make_relative_begins_with_dot_witness :
  make_relative "/" "/repo/src/b.ts" "/repo/src/sub\a.ts"
  = Some ("./sub/a.js" : str)
  /\ Py.startswith ("./sub/a.js" : str) "." = true
  /\ backslash ∉ ("./sub/a.js" : str).
Proof.
  assert (make_relative "/" "/repo/src/b.ts" "/repo/src/sub\a.ts"
          = Some ("./sub/a.js" : str)) as H by by_eval.
  split; [done|].
  exact (make_relative_begins_with_dot _ _ _ _ H).
Defined.

Section MovesFacts.

Implicit Types (s p r u old new : str) (moves : gmap str str)
  (moves_raw : list (str * str)).

Lemma normalize_moves_snoc moves_raw old new :
  normalize_moves (moves_raw ++ [(old, new)])
  = <[PosixPath.normpath old := PosixPath.normpath new]>
      (normalize_moves moves_raw).
Proof. unfold normalize_moves. by rewrite foldl_snoc. Qed.

Lemma normpath_nonempty p : PosixPath.normpath p <> [].
Proof.
  unfold PosixPath.normpath. destruct (Py.str_eqb p []); [done|].
  match goal with |- context [Py.str_eqb ?a []] =>
    destruct (Py.str_eqb a []) eqn:E end; [done|].
  by apply str_eqb_false in E.
Qed.

Lemma normalize_moves_normalized moves_raw :
  map_Forall (fun k v => normalized k /\ normalized v)
             (normalize_moves moves_raw).
Proof.
  induction moves_raw as [|[old new] moves_raw IH] using rev_ind.
  - apply map_Forall_empty.
  - rewrite normalize_moves_snoc. apply map_Forall_insert_2; [|done].
    split; apply normpath_idempotent.
Qed.

End MovesFacts.

(** X3.  The move mapping that [run] builds: every key and every destination
    is a normalized path, an entry that comes later in [moves_raw] replaces
    an earlier one whose origin has the same normal form, and so the mapping
    can have fewer entries than [moves_raw]. *)
Theorem normalize_moves_entries (moves_raw : list (str * str)) :
  map_Forall (fun k v => normalized k /\ normalized v)
             (normalize_moves moves_raw)
  /\ (forall old new,
        normalize_moves (moves_raw ++ [(old, new)]) !! PosixPath.normpath old
        = Some (PosixPath.normpath new))
  /\ size (normalize_moves moves_raw) <= length moves_raw.
Proof.
  split_and!.
  - apply normalize_moves_normalized.
  - intros old new. by rewrite normalize_moves_snoc, lookup_insert_eq.
  - induction moves_raw as [|[old new] moves_raw IH] using rev_ind; [done|].
    rewrite normalize_moves_snoc, length_app. simpl.
    destruct (normalize_moves moves_raw !! PosixPath.normpath old) eqn:Hk.
    + rewrite map_size_insert_Some by done. lia.
    + rewrite map_size_insert_None by done. lia.
Qed.

(** X4.  [new_path_of] looks a path up under its normal form, so two
    spellings of a path have the same destination; with the move mapping of
    [run] the destination is a normalized, non-empty path, whether the path
    is a key or not. *)
Theorem new_path_of_normal_form (moves_raw : list (str * str)) (p : str) :
  let moves := normalize_moves moves_raw in
  new_path_of (PosixPath.normpath p) moves = new_path_of p moves
  /\ normalized (new_path_of p moves)
  /\ new_path_of p moves <> [].
Proof.
  intros moves. unfold new_path_of. rewrite normpath_idempotent.
  split; [done|].
  assert (normalized (default (PosixPath.normpath p)
                               (moves !! PosixPath.normpath p))) as Hn.
  { destruct (moves !! PosixPath.normpath p) as [d|] eqn:Hk; simpl.
    - by destruct (normalize_moves_normalized moves_raw _ _ Hk).
    - apply normpath_idempotent. }
  split; [done|]. rewrite <- Hn. apply normpath_nonempty.
Qed.


Section AbsoluteFacts.

Implicit Types (s p r u a b : str) (c : ascii) (f : ascii -> bool).

Lemma dropwhile_snoc_stop f s c :
  f c = false -> exists t, Py.dropwhile f (s ++ [c]) = t ++ [c].
Proof.
  intros Hc. induction s as [|x s IH]; cbn [app Py.dropwhile].
  - rewrite Hc. by exists [].
  - destruct (f x); [done|]. by exists (x :: s).
Qed.

Lemma dropwhile_app_some f s r :
  forallb f s = false -> Py.dropwhile f (s ++ r) = Py.dropwhile f s ++ r.
Proof.
  induction s as [|x s IH]; [done|]. cbn [forallb app Py.dropwhile].
  destruct (f x); [exact IH | done].
Qed.

Lemma forallb_rev f s : forallb f (rev s) = forallb f s.
Proof.
  induction s as [|x s IH]; [done|]. cbn [rev forallb].
  rewrite forallb_app, IH. cbn [forallb]. by destruct (f x), (forallb f s).
Qed.

Lemma isabs_cons p : PosixPath.isabs p = true <-> exists r, p = "/"%char :: r.
Proof. unfold PosixPath.isabs. by rewrite startswith_spec. Qed.

Lemma isabs_dirname p :
  PosixPath.isabs p = true -> PosixPath.isabs (PosixPath.dirname p) = true.
Proof.
  intros [r ->]%isabs_cons. unfold PosixPath.dirname.
  cbn [rev]. fold (@rev ascii).
  destruct (dropwhile_snoc_stop
              (fun ch => negb (Py.eqc ch PosixPath.sep)) (rev r) "/"%char)
    as [t Ht]; [by_eval|].
  rewrite Ht, rev_app_distr. cbn [rev app].
  set (h := rev t).
  destruct (negb (Py.str_eqb ("/"%char :: h) [])
            && negb (forallb (fun ch => Py.eqc ch PosixPath.sep)
                       ("/"%char :: h))) eqn:E; [|done].
  apply andb_true_iff in E as [_ E]. apply negb_true_iff in E.
  cbn [forallb] in E. rewrite eqc_refl in E. cbn [andb] in E.
  unfold Py.rstrip. cbn [rev]. fold (@rev ascii).
  rewrite dropwhile_app_some.
  - rewrite rev_app_distr. by apply isabs_cons; eexists.
  - rewrite <- E. rewrite forallb_rev. done.
Qed.

Lemma isabs_join2 a b :
  PosixPath.isabs a = true -> PosixPath.isabs (PosixPath.join2 a b) = true.
Proof.
  intros Ha. unfold PosixPath.join2.
  destruct (Py.startswith b "/") eqn:Hb; [done|].
  apply isabs_cons in Ha as [r ->].
  destruct (_ || _); by apply isabs_cons; eexists.
Qed.

Lemma isabs_normpath p :
  PosixPath.isabs p = true -> PosixPath.isabs (PosixPath.normpath p) = true.
Proof.
  intros Hp. pose proof (initial_slashes_cases p Hp) as Hn.
  apply isabs_cons in Hp as [r ->]. unfold PosixPath.normpath.
  replace (Py.str_eqb ("/"%char :: r) []) with false
    by (symmetry; by apply str_eqb_false).
  destruct Hn as [-> | ->]; cbn [Nat.eqb replicate app].
  - by destruct (Py.str_eqb _ _) eqn:E; [apply str_eqb_true in E|].
  - by destruct (Py.str_eqb _ _) eqn:E; [apply str_eqb_true in E|].
Qed.

End AbsoluteFacts.

(** X5.  The path that [resolve_import] returns is normalized, so
    [replace_import] looks the target up in the move mapping under the
    resolved path itself; and it is absolute when the importing file is,
    whatever the import path. *)
Theorem resolve_import_normalized (moves : gmap str str) (from_file ip : str) :
  normalized (resolve_import from_file ip)
  /\ new_path_of (resolve_import from_file ip) moves
     = default (resolve_import from_file ip)
               (moves !! resolve_import from_file ip)
  /\ (PosixPath.isabs from_file = true ->
      PosixPath.isabs (resolve_import from_file ip) = true).
Proof.
  assert (normalized (resolve_import from_file ip)) as Hn
    by apply normpath_idempotent.
  split_and!; [done | |].
  - unfold new_path_of. by rewrite Hn.
  - intros Habs. unfold resolve_import. apply isabs_normpath.
    cbn [PosixPath.join foldl]. by apply isabs_join2, isabs_dirname.
Qed.

Lemma resolve_import_normalized_witness :
  PosixPath.isabs "/repo/src/sub/a.ts" = true
  /\ PosixPath.isabs (resolve_import "/repo/src/sub/a.ts" "../../../../b.js")
     = true
  /\ resolve_import "/repo/src/sub/a.ts" "../../../../b.js" = "/b.ts".
Proof.
  split; [by_eval|]. split; [|by_eval].
  refine (proj2 (proj2 (resolve_import_normalized ∅ _ _)) _). by_eval.
Defined.

Section ReplaceRoundTrip.

Implicit Types (s p r u : str) (moves : gmap str str).

Lemma round_trip_normalized cwd from_file to_file :
  normalized from_file -> normalized to_file ->
  PosixPath.isabs from_file = true -> PosixPath.isabs to_file = true ->
  PosixPath.initial_slashes from_file = PosixPath.initial_slashes to_file ->
  Py.endswith to_file ".ts" = true ->
  backslash ∉ to_file ->
  exists rel,
    make_relative cwd from_file to_file = Some rel
    /\ resolve_import from_file rel = to_file.
Proof.
  intros Hnf Hnt Haf Hat Hroot Hts Hbs.
  destruct (normalized_abs_inv from_file Hnf Haf) as (m & F & Hm & HF & ->).
  destruct (normalized_abs_inv to_file Hnt Hat) as (n & T & Hn & HT & ->).
  assert (m = n) as ->.
  { unfold abs_path in Hroot.
    rewrite !initial_slashes_root in Hroot
      by (done || by apply join_names_no_leading_sep).
    done. }
  apply (round_trip_abs_path cwd n (removelast F) T); try done.
  - by apply Forall_removelast.
  - by apply dirname_abs_path.
  - apply not_elem_of_rel_string; [done | done |].
    apply Forall_drop. by apply not_elem_of_abs_path_inv with n.
Qed.

End ReplaceRoundTrip.

(** X6.  The rewritten reference points at the new location of its target:
    for an import matched in a file, when the new location [_new] of the
    file and the new location of the target are normalized absolute paths
    with the same root and the latter ends in [.ts] and holds no backslash,
    [replace_import] returns the literal with a new path that, resolved from
    [_new], is the new location of the target. *)
Theorem replace_import_round_trip
    (cwd : str) (moves : gmap str str) (_old _new ip : str) :
  let new_target := new_path_of (resolve_import _old ip) moves in
  import_shape ip = true ->
  normalized _new -> normalized new_target ->
  PosixPath.isabs _new = true -> PosixPath.isabs new_target = true ->
  PosixPath.initial_slashes _new = PosixPath.initial_slashes new_target ->
  Py.endswith new_target ".ts" = true ->
  backslash ∉ new_target ->
  exists new_rel,
    replace_import cwd moves _old _new ip
    = Some (from_quote ++ new_rel ++ [dq])
    /\ resolve_import _new new_rel = new_target.
Proof.
  intros new_target Hsh Hn Hnt Ha Hat Hroot Hts Hbs.
  destruct (round_trip_normalized cwd _new new_target)
    as (new_rel & Hmk & Hres); try done.
  exists new_rel. split; [|done].
  unfold replace_import. fold new_target. rewrite Hmk.
  cbn [mbind option_bind]. by rewrite replace_group0.
Qed.

Lemma replace_import_round_trip_witness :
  let moves : gmap str str :=
    {[ ("/repo/src/a.ts" : str) := ("/repo/src/sub/a.ts" : str) ]} in
  exists new_rel,
    replace_import "/" moves "/repo/src/b.ts" "/repo/src/b.ts" "./a.js"
    = Some (from_quote ++ new_rel ++ [dq])
    /\ resolve_import "/repo/src/b.ts" new_rel = "/repo/src/sub/a.ts".
Proof.
  intros moves.
  apply (replace_import_round_trip "/" moves "/repo/src/b.ts"
           "/repo/src/b.ts" "./a.js"); first [by_eval | by_decide].
Defined.

Section Total.

Implicit Types (s p r u old new content : str) (moves : gmap str str)
  (moves_raw : list (str * str)).

Lemma re_sub_go_total (repl : str -> option str) k s :
  (forall ip, is_Some (repl ip)) -> is_Some (re_sub_go repl k s).
Proof.
  intros Hrepl. revert k. induction s as [|c s IH]; intros k; [by eexists|].
  cbn [re_sub_go]. destruct k as [|k]; [|apply IH].
  destruct (match_import (c :: s)) as [[ip rest]|].
  - destruct (Hrepl ip) as [r ->]. cbn [mbind option_bind].
    destruct (IH (length from_quote + length ip)) as [t ->]. by eexists.
  - destruct (IH 0) as [t ->]. by eexists.
Qed.

Lemma new_path_of_run moves_raw p :
  normalized (new_path_of p (normalize_moves moves_raw))
  /\ new_path_of p (normalize_moves moves_raw) <> [].
Proof.
  assert (normalized (new_path_of p (normalize_moves moves_raw))) as Hn.
  { unfold new_path_of.
    destruct (normalize_moves moves_raw !! PosixPath.normpath p)
      as [d|] eqn:Hk; simpl.
    - by destruct (normalize_moves_normalized moves_raw _ _ Hk).
    - apply normpath_idempotent. }
  split; [done|]. rewrite <- Hn. apply normpath_nonempty.
Qed.

Lemma relpath_Some cwd path start :
  path <> [] -> is_Some (PosixPath.relpath cwd path start).
Proof.
  intros Hp. destruct (PosixPath.relpath cwd path start) eqn:E; [by eexists|].
  by apply relpath_None in E.
Qed.

Lemma make_relative_Some cwd from_file to_file :
  to_file <> [] -> is_Some (make_relative cwd from_file to_file).
Proof.
  intros Ht. unfold make_relative.
  destruct (relpath_Some cwd to_file (PosixPath.dirname from_file) Ht)
    as [rel0 ->].
  by eexists.
Qed.

(** With the move mapping of [run], the rewrite of a content never
    raises. *)
Lemma update_of_total cwd moves_raw old content :
  is_Some (update_of cwd (normalize_moves moves_raw) old content).
Proof.
  unfold update_of, rewrite_imports, re_sub_imports.
  destruct (re_sub_go_total
              (replace_import cwd (normalize_moves moves_raw) old
                 (new_path_of old (normalize_moves moves_raw))) 0 content)
    as [nc ->]; [|by eexists].
  intros ip. unfold replace_import.
  destruct (make_relative_Some cwd
              (new_path_of old (normalize_moves moves_raw))
              (new_path_of (resolve_import old ip)
                 (normalize_moves moves_raw))) as [rel ->]; [|by eexists].
  apply new_path_of_run.
Qed.

End Total.

Section DoesMore.

Context {FS : Type} {os : OS FS}.
Variable Pev : event -> Prop.
Variable Perr : error -> Prop.
Variable Qd : FS -> FS -> Prop.
Context {Qd_pre : PreOrder Qd}.

Lemma does_of_option_some {A} (o : option A) e :
  is_Some o -> does Pev Perr Qd (of_option o e : M FS A).
Proof. intros [a ->]. by apply does_ret. Qed.

Lemma does_for_each_Forall {X} (l : list X) (body : X -> M FS unit) :
  Forall (fun x => does Pev Perr Qd (body x)) l ->
  does Pev Perr Qd (for_each l body).
Proof.
  induction 1 as [|x l Hx Hl IH]; [by apply does_ret|].
  cbn [for_each]. apply does_bind; [done | done | by intros _].
Qed.

Lemma does_bind_some {A B} (o : option A) e (k : A -> M FS B) a :
  o = Some a -> does Pev Perr Qd (k a) ->
  does Pev Perr Qd (of_option o e ≫= k).
Proof. intros -> Hk. exact Hk. Qed.

End DoesMore.

Section PhaseErrors.

Context {FS : Type} {os : OS FS}.
Variable cwd : str.
Variable BASE : str.

Implicit Types (w : world FS) (e : error) (ev : event) (moves : gmap str str)
  (updates : list (str * (str * str))).

(** Step 1 only reads. *)
Lemma compute_updates_reads moves all_files :
  does is_read (fun _ => True) eq (compute_updates cwd moves all_files).
Proof.
  unfold compute_updates.
  d_fold. intros updates old_abs.
  d_bind; [by d_emit|]. intros _.
  d_bind; [by d_query|]. intros content.
  d_bind; [by d_option|]. intros [[new_abs new_content] changed]. d_ret.
Qed.

(** Step 1 fails only at a file that cannot be read. *)
Lemma compute_updates_fail moves files acc w w1 e :
  (forall old content, is_Some (update_of cwd moves old content)) ->
  for_fold files acc (fun updates old_abs =>
    emit (EvRead old_abs);;
    content ← query (fun d => read_text d old_abs) (ReadError old_abs);
    '(new_abs, new_content, changed) ←
      of_option (update_of cwd moves old_abs content) ValueError;
    mret (if changed : bool
          then dict_set updates old_abs (new_abs, new_content)
          else updates)) w = (w1, inl e) ->
  exists p, e = ReadError p /\ p ∈ files /\ read_text (disk w) p = None.
Proof.
  intros Htotal. revert acc w.
  induction files as [|f files IH]; intros acc w; [done|].
  cbn [for_fold]. intros Hrun.
  apply bind_inv in Hrun as [(e' & H1 & [= <-]) | (w2 & acc' & H1 & H2)].
  - exists f.
    apply bind_inv in H1 as [(? & H1 & ?) | (w3 & [] & H0 & H1)];
      [by apply emit_inv in H1 as [_ ?]|].
    apply emit_inv in H0 as [-> _].
    apply bind_inv in H1 as [(? & H1 & ?) | (w4 & content & H1 & H3)].
    + apply query_inv in H1 as [_ [(? & ? & ?) | (Hnone & He)]]; [done|].
      simplify_eq. split; [done|]. split; [by left | done].
    + destruct (Htotal f content) as [[[na nc] ch] Hu].
      rewrite Hu in H3. by m_inv.
  - apply IH in H2 as (p & -> & Hin & Hread). exists p.
    split; [done|]. split; [by right|].
    assert (disk w2 = disk w) as <-; [|done].
    clear -H1. m_inv.
    match goal with x : (str * str * bool)%type |- _ =>
      destruct x as [[na nc] ch] end.
    by m_inv.
Qed.

(** A move of a key of the mapping fails only in [os.makedirs] or in
    [git mv]. *)
Lemma move_one_progress moves repo_root k new :
  moves !! k = Some new -> k <> [] -> new <> [] ->
  does progress_line move_error any_change (move_one cwd moves repo_root k).
Proof.
  intros Hk Hk0 Hn0. unfold move_one.
  eapply does_bind_some; [exact Hk|].
  d_bind; [by d_emit|]. intros _.
  d_bind; [by d_effect|]. intros _.
  d_bind; [by d_emit|]. intros _.
  d_bind; [by d_effect|]. intros _.
  destruct (relpath_Some cwd k repo_root Hk0) as [r_old Hr_old].
  eapply does_bind_some; [exact Hr_old|].
  destruct (relpath_Some cwd new repo_root Hn0) as [r_new Hr_new].
  eapply does_bind_some; [exact Hr_new|].
  d_emit. by_eval.
Qed.

Lemma apply_moves_progress moves_raw repo_root :
  does progress_line move_error any_change
       (apply_moves cwd (normalize_moves moves_raw) repo_root).
Proof.
  unfold apply_moves. apply does_for_each_Forall; [apply _|].
  apply Forall_forall. intros k Hin.
  apply list_elem_of_In, (Permutation_in _ (sorted_perm _)) in Hin.
  apply list_elem_of_In, list_elem_of_fmap in Hin as ([k' new] & -> & Hin).
  apply elem_of_map_to_list in Hin. simpl.
  destruct (normalize_moves_normalized moves_raw _ _ Hin) as [Hnk Hnn].
  apply (move_one_progress _ _ _ new); [done | |].
  - rewrite <- Hnk. apply normpath_nonempty.
  - rewrite <- Hnn. apply normpath_nonempty.
Qed.

(** A write to a non-empty path fails only in the write itself. *)
Lemma flush_one_progress repo_root u :
  u.2.1 <> [] ->
  does progress_line write_error any_change (flush_one cwd repo_root u).
Proof.
  destruct u as [old_abs [new_abs new_content]]. simpl. intros Hn0.
  unfold flush_one.
  d_bind; [by d_emit|]. intros _.
  d_bind; [by d_effect|]. intros _.
  destruct (Py.str_eqb old_abs new_abs); [|d_ret].
  destruct (relpath_Some cwd new_abs repo_root Hn0) as [r Hr].
  eapply does_bind_some; [exact Hr|].
  d_emit. by_eval.
Qed.

Lemma flush_updates_progress moves_raw repo_root (d : FS) files updates :
  updates_from cwd (normalize_moves moves_raw) d files [] = Some updates ->
  does progress_line write_error any_change
       (flush_updates cwd repo_root updates).
Proof.
  intros Hupd. unfold flush_updates. apply does_for_each_Forall; [apply _|].
  pose proof (updates_from_entries cwd _ _ _ _ _ Hupd (Forall_nil_2 _)) as Hent.
  eapply Forall_impl; [exact Hent|].
  intros [old [new_abs nc]] (content & _ & Hu). simpl in Hu.
  apply flush_one_progress. simpl.
  unfold update_of in Hu.
  destruct (rewrite_imports _ _ _ _ _); [|done].
  injection Hu as <- _ _. apply new_path_of_run.
Qed.

End PhaseErrors.

Section RunErrors.

Context {FS : Type} {os : OS FS}.
Variable cwd : str.
Variable BASE : str.

Implicit Types (w : world FS) (e : error) (ev : event) (moves : gmap str str)
  (updates : list (str * (str * str))).

Lemma flush_one_ok repo_root old_abs new_abs new_content w w1 :
  flush_one cwd repo_root (old_abs, (new_abs, new_content)) w = (w1, inr tt) ->
  write_text (disk w) new_abs new_content = Some (disk w1)
  /\ writes (log w1) = writes (log w) ++ [(new_abs, new_content)]
  /\ git_moves (log w1) = git_moves (log w).
Proof.
  unfold flush_one. intros H1.
  destruct (Py.str_eqb old_abs new_abs);
    m_inv; rewrite ?writes_app, ?git_moves_app; simpl;
    by rewrite ?app_nil_r.
Qed.

Lemma flush_one_fail repo_root old_abs new_abs new_content w w1 p :
  flush_one cwd repo_root (old_abs, (new_abs, new_content)) w
  = (w1, inl (WriteError p)) ->
  new_abs = p
  /\ disk w1 = disk w
  /\ write_text (disk w) p new_content = None
  /\ writes (log w1) = writes (log w) ++ [(p, new_content)]
  /\ git_moves (log w1) = git_moves (log w).
Proof.
  unfold flush_one. intros H1.
  destruct (Py.str_eqb old_abs new_abs);
    m_inv; rewrite ?writes_app, ?git_moves_app; simpl;
    by rewrite ?app_nil_r.
Qed.

(** The writes stop at the first one that fails. *)
Lemma flush_updates_fail repo_root updates w w' p :
  flush_updates cwd repo_root updates w = (w', inl (WriteError p)) ->
  exists written old c rest,
    updates = written ++ (old, (p, c)) :: rest
    /\ flushed written (disk w) = Some (disk w')
    /\ write_text (disk w') p c = None
    /\ writes (log w') = writes (log w) ++ written.*2 ++ [(p, c)]
    /\ git_moves (log w') = git_moves (log w).
Proof.
  unfold flush_updates. revert w.
  induction updates as [|[old_abs [new_abs new_content]] updates IH];
    intros w; [done|].
  cbn [for_each]. intros Hrun.
  apply bind_inv in Hrun as [(e & H1 & [= <-]) | (w1 & [] & H1 & H2)].
  - apply flush_one_fail in H1 as (-> & Hd & Hw & Hwr & Hgit).
    exists [], old_abs, new_content, updates. rewrite Hd.
    split_and!; done.
  - apply flush_one_ok in H1 as (Hw & Hwr & Hgit).
    apply IH in H2 as (written & old & c & rest & -> & Hfl & Hw' & Hwr' & Hgit').
    exists ((old_abs, (new_abs, new_content)) :: written), old, c, rest.
    split_and!; try done.
    + cbn [flushed]. rewrite Hw. done.
    + rewrite Hwr', Hwr. cbn [fmap list_fmap]. by rewrite <- !app_assoc.
    + by rewrite Hgit'.
Qed.

Lemma summary_not_progress n m : ~ progress_line (EvPrint (summary_line n m)).
Proof. unfold progress_line. by_eval || by vm_compute. Qed.

End RunErrors.

(** A run that aborts: its error is one of the file system or of git, and
    every line it has printed is a progress line. *)
Lemma run_abort_progress {FS : Type} {os : OS FS}
    (cwd BASE : str) (moves_raw : list (str * str)) (w w' : world FS)
    (e : error) :
  run cwd BASE moves_raw w = (w', inl e) ->
  os_error e
  /\ exists evs, log w' = log w ++ evs /\ Forall progress_line evs.
Proof.
  intros Hrun.
  unfold run in Hrun.
  apply bind_inv in Hrun as [(e0 & H0 & _) | (w0 & files & H0 & Hrun)];
    [done|].
  injection H0 as <- <-.
  apply bind_inv in Hrun as [(e1 & H1 & [= <-]) | (w1 & updates & H1 & Hrun)].
  { destruct (compute_updates_reads cwd _ _ _ _ _ H1)
      as ((evs1 & Hl1 & He1) & _).
    apply compute_updates_fail in H1 as (p & -> & _);
      [|intros; apply update_of_total].
    split; [by left|]. exists evs1. split; [done|].
    eapply Forall_impl; [exact He1|]. by intros []. }
  destruct (compute_updates_reads cwd _ _ _ _ _ H1)
    as ((evs1 & Hl1 & He1) & _).
  assert (Forall progress_line evs1) as Hp1
    by (eapply Forall_impl; [exact He1|]; by intros []).
  apply compute_updates_inv in H1 as [Hd1 Hupd].
  apply bind_inv in Hrun as [(e2 & H2 & [= <-]) | (w2 & [] & H2 & Hrun)].
  { destruct (apply_moves_progress cwd _ _ _ _ _ H2)
      as ((evs2 & Hl2 & He2) & _ & Herr).
    split; [right; left; by apply Herr|].
    exists (evs1 ++ evs2). rewrite Hl2, Hl1, <- app_assoc.
    split; [done | by apply Forall_app]. }
  destruct (apply_moves_progress cwd _ _ _ _ _ H2)
    as ((evs2 & Hl2 & He2) & _ & _).
  apply bind_inv in Hrun as [(e3 & H3 & [= <-]) | (w3 & [] & H3 & Hrun)].
  { destruct (flush_updates_progress cwd _ _ _ _ _ Hupd _ _ _ H3)
      as ((evs3 & Hl3 & He3) & _ & Herr).
    split; [right; right; by apply Herr|].
    exists (evs1 ++ evs2 ++ evs3). rewrite Hl3, Hl2, Hl1, <- !app_assoc.
    split; [done | by repeat apply Forall_app_2]. }
  by apply emit_inv in Hrun as [_ ?].
Qed.

(** X7.  A run that aborts: the error is one of the file system or of git (a
    file that cannot be read, a directory that cannot be created, a [git mv]
    that fails, a file that cannot be written), never a [ValueError] of the
    path computations or a [KeyError]; and the summary line is not printed. *)
Theorem run_raises_only_os_errors {FS : Type} {os : OS FS}
    (cwd BASE : str) (moves_raw : list (str * str)) (w w' : world FS)
    (e : error) :
  run cwd BASE moves_raw w = (w', inl e) ->
  os_error e
  /\ exists evs, log w' = log w ++ evs
                 /\ forall n m, EvPrint (summary_line n m) ∉ evs.
Proof.
  intros Hrun.
  destruct (run_abort_progress cwd BASE moves_raw w w' e Hrun)
    as (He & evs & Hlog & Hevs).
  split; [done|]. exists evs. split; [done|].
  intros n m Hin. eapply Forall_forall in Hevs; [|exact Hin].
  by apply summary_not_progress in Hevs.
Qed.

(** X8.  A run that aborts at a file it cannot read has changed nothing: the
    file is a discovered file, the file system is the initial one, and the
    run has only read files. *)
Theorem run_read_error_changes_nothing {FS : Type} {os : OS FS}
    (cwd BASE : str) (moves_raw : list (str * str)) (w w' : world FS)
    (p : str) :
  run cwd BASE moves_raw w = (w', inl (ReadError p)) ->
  p ∈ collect_files BASE (disk w)
  /\ read_text (disk w) p = None
  /\ disk w' = disk w
  /\ exists evs, log w' = log w ++ evs /\ Forall is_read evs.
Proof.
  intros Hrun. unfold run in Hrun.
  apply bind_inv in Hrun as [(e0 & H0 & _) | (w0 & files & H0 & Hrun)];
    [done|].
  injection H0 as <- <-.
  apply bind_inv in Hrun as [(e1 & H1 & He) | (w1 & updates & H1 & Hrun)].
  - injection He as <-.
    destruct (compute_updates_reads cwd _ _ _ _ _ H1)
      as ((evs1 & Hl1 & He1) & Hd1 & _).
    apply compute_updates_fail in H1 as (p' & [= <-] & Hin & Hread);
      [|intros; apply update_of_total].
    split_and!; try done. by exists evs1.
  - apply compute_updates_inv in H1 as [Hd1 Hupd].
    apply bind_inv in Hrun as [(e2 & H2 & He) | (w2 & [] & H2 & Hrun)].
    { injection He as <-.
      destruct (apply_moves_progress cwd _ _ _ _ _ H2) as (_ & _ & Herr).
      by destruct (Herr _ eq_refl). }
    apply bind_inv in Hrun as [(e3 & H3 & He) | (w3 & [] & H3 & Hrun)].
    { injection He as <-.
      destruct (flush_updates_progress cwd _ _ _ _ _ Hupd _ _ _ H3)
        as (_ & _ & Herr).
      by destruct (Herr _ eq_refl). }
    by apply emit_inv in Hrun as [_ ?].
Qed.

(** X9.  A run that aborts at a file it cannot write: every move of the
    mapping has been made, in the sorted order of the origins, the entries
    of [updates] before the failing one are written and stay written, and
    the failing write is the last operation attempted. *)
Theorem run_write_error_after_moves {FS : Type} {os : OS FS}
    (cwd BASE : str) (moves_raw : list (str * str)) (w w' : world FS)
    (p : str) :
  run cwd BASE moves_raw w = (w', inl (WriteError p)) ->
  let moves := normalize_moves moves_raw in
  let keys := sorted (map_to_list moves).*1 in
  exists updates written old c rest d2 evs,
    updates_from cwd moves (disk w) (collect_files BASE (disk w)) []
    = Some updates
    /\ updates = written ++ (old, (p, c)) :: rest
    /\ moved moves (PosixPath.dirname BASE) keys (disk w) = Some d2
    /\ flushed written d2 = Some (disk w')
    /\ write_text (disk w') p c = None
    /\ log w' = log w ++ evs
    /\ git_moves evs = move_pairs moves keys
    /\ writes evs = written.*2 ++ [(p, c)].
Proof.
  intros Hrun moves keys. unfold run in Hrun. fold moves in Hrun.
  apply bind_inv in Hrun as [(e0 & H0 & _) | (w0 & files & H0 & Hrun)];
    [done|].
  injection H0 as <- <-.
  apply bind_inv in Hrun as [(e1 & H1 & He) | (w1 & updates & H1 & Hrun)].
  { injection He as <-.
    by apply compute_updates_fail in H1 as (p' & ? & _);
      [|intros; apply update_of_total]. }
  destruct (compute_updates_does cwd _ _ _ _ _ H1) as ((evs1 & Hl1 & He1) & _).
  apply compute_updates_inv in H1 as [Hd1 Hupd].
  apply bind_inv in Hrun as [(e2 & H2 & He) | (w2 & [] & H2 & Hrun)].
  { injection He as <-.
    destruct (apply_moves_progress cwd _ _ _ _ _ H2) as (_ & _ & Herr).
    by destruct (Herr _ eq_refl). }
  destruct (apply_moves_does cwd _ _ _ _ _ H2) as ((evs2 & Hl2 & He2) & _).
  apply apply_moves_ok in H2 as (Hmoved & Hgit2 & _).
  apply bind_inv in Hrun as [(e3 & H3 & He) | (w3 & [] & H3 & Hrun)];
    [|by apply emit_inv in Hrun as [_ ?]].
  injection He as <-.
  destruct (flush_updates_does cwd _ _ _ _ _ H3) as ((evs3 & Hl3 & He3) & _).
  apply flush_updates_fail in H3
    as (written & old & c & rest & -> & Hfl & Hw & Hwr3 & _).
  exists (written ++ (old, (p, c)) :: rest), written, old, c, rest,
    (disk w2), (evs1 ++ evs2 ++ evs3).
  split_and!; try done.
  - by rewrite <- Hd1.
  - rewrite Hl3, Hl2, Hl1. by rewrite <- !app_assoc.
  - rewrite Hl2, git_moves_app in Hgit2. apply app_inv_head in Hgit2.
    rewrite !git_moves_app, Hgit2, (git_moves_none evs3) by done.
    rewrite git_moves_none, app_nil_r; [done|].
    eapply Forall_impl; [exact He1|]. by intros ev [_ ?].
  - rewrite Hl3, writes_app in Hwr3. apply app_inv_head in Hwr3.
    rewrite !writes_app, Hwr3, (writes_none evs2) by done.
    rewrite writes_none; [done|].
    eapply Forall_impl; [exact He1|]. by intros ev [? _].
Qed.

Section Completed.

Context {FS : Type} {os : OS FS}.
Variable cwd : str.
Variable BASE : str.

Implicit Types (w : world FS) (moves : gmap str str)
  (updates : list (str * (str * str))).

(** The file systems of a run that completes: the moves are applied to
    the initial one, and the writes to the result. *)
Lemma run_ok_disks moves_raw w w' :
  run cwd BASE moves_raw w = (w', inr tt) ->
  let moves := normalize_moves moves_raw in
  let repo_root := PosixPath.dirname BASE in
  exists updates d2,
    updates_from cwd moves (disk w) (collect_files BASE (disk w)) []
    = Some updates
    /\ moved moves repo_root (sorted (map_to_list moves).*1) (disk w) = Some d2
    /\ flushed updates d2 = Some (disk w').
Proof.
  intros Hrun moves repo_root. unfold run in Hrun.
  fold moves in Hrun. fold repo_root in Hrun.
  apply bind_inv in Hrun as [(e & _ & ?) | (w0 & files & H0 & Hrun)]; [done|].
  injection H0 as <- <-.
  apply bind_inv in Hrun as [(e & _ & ?) | (w1 & updates & H1 & Hrun)]; [done|].
  apply bind_inv in Hrun as [(e & _ & ?) | (w2 & [] & H2 & Hrun)]; [done|].
  apply bind_inv in Hrun as [(e & _ & ?) | (w3 & [] & H3 & Hrun)]; [done|].
  apply emit_inv in Hrun as [-> _].
  apply compute_updates_inv in H1 as [Hd1 Hupd].
  apply apply_moves_ok in H2 as (Hmoved & _ & _).
  apply flush_updates_disk in H3.
  exists updates, (disk w2). split_and!; [done | by rewrite <- Hd1 | done].
Qed.

End Completed.

(** X10.  The file system of a run that completes is the initial one after
    the moves of all the entries of the mapping, in the sorted order of
    their origins, followed by the writes of the entries of [updates], which
    was computed from the initial file system; the log holds exactly these
    [git mv] commands and these writes, in this order. *)
Theorem run_completed_file_system {FS : Type} {os : OS FS}
    (cwd BASE : str) (moves_raw : list (str * str)) (w w' : world FS) :
  run cwd BASE moves_raw w = (w', inr tt) ->
  let moves := normalize_moves moves_raw in
  let keys := sorted (map_to_list moves).*1 in
  exists updates d2 evs,
    updates_from cwd moves (disk w) (collect_files BASE (disk w)) []
    = Some updates
    /\ moved moves (PosixPath.dirname BASE) keys (disk w) = Some d2
    /\ flushed updates d2 = Some (disk w')
    /\ StronglySorted str_le keys /\ keys ≡ₚ (map_to_list moves).*1
    /\ log w' = log w ++ evs
                ++ [EvPrint (summary_line (size moves) (length updates))]
    /\ git_moves evs = move_pairs moves keys
    /\ writes evs = updates.*2.
Proof.
  intros Hrun moves keys.
  destruct (run_ok_disks cwd BASE _ _ _ Hrun) as (updates & d2 & Hupd & Hmv & Hfl).
  destruct (run_ok_inv cwd BASE _ _ _ Hrun)
    as (updates' & evs & Hupd' & _ & Hlog & Hgit & Hwr).
  fold moves in Hupd, Hupd'. rewrite Hupd in Hupd'. injection Hupd' as <-.
  exists updates, d2, evs. split_and!; try done.
  - apply sorted_strongly.
  - apply sorted_perm.
Qed.

Lemma run_completed_file_system_witness :
  let w := World disk_ab [] in
  let r := run "/" "/repo/src" [("/repo/src/a.ts" : str,
                                 "/repo/src/sub/a.ts" : str)] w in
  let moves := normalize_moves [("/repo/src/a.ts" : str,
                                 "/repo/src/sub/a.ts" : str)] in
  let keys := sorted (map_to_list moves).*1 in
  r.2 = inr tt
  /\ exists updates d2 evs,
    updates_from "/" moves (disk w) (collect_files "/repo/src" (disk w)) []
    = Some updates
    /\ moved moves (PosixPath.dirname "/repo/src") keys (disk w) = Some d2
    /\ flushed updates d2 = Some (disk r.1)
    /\ StronglySorted str_le keys /\ keys ≡ₚ (map_to_list moves).*1
    /\ log r.1 = log w ++ evs
                 ++ [EvPrint (summary_line (size moves) (length updates))]
    /\ git_moves evs = move_pairs moves keys
    /\ writes evs = updates.*2.
Proof.
  intros w r moves keys. split; [by_eval|].
  apply (run_completed_file_system "/" "/repo/src" _ w r.1). by_run.
Defined.

(** X11.  A completed run writes only the new paths of the files recorded in
    [updates]: a file whose rewrite changes nothing, that is not moved and
    is not the destination of a move, is not written. *)
Theorem unchanged_file_not_written {FS : Type} {os : OS FS}
    (cwd BASE : str) (moves_raw : list (str * str)) (w w' : world FS)
    (f content : str) :
  let moves := normalize_moves moves_raw in
  run cwd BASE moves_raw w = (w', inr tt) ->
  read_text (disk w) f = Some content ->
  update_of cwd moves f content = Some (f, content, false) ->
  map_Forall (fun _ new => new <> f) moves ->
  exists evs,
    log w' = log w ++ evs
             ++ [EvPrint (summary_line (length (git_moves evs))
                                       (length (writes evs)))]
    /\ f ∉ (writes evs).*1.
Proof.
  intros moves Hrun Hread Hup Hdest.
  destruct (run_ok_inv cwd BASE _ _ _ Hrun)
    as (updates & evs & Hupd & _ & Hlog & Hgit & Hwr).
  fold moves in Hupd, Hlog, Hgit.
  exists evs. rewrite Hgit, Hwr, length_sorted_keys, length_fmap.
  split; [done|].
  eapply written_paths; [exact Hupd | apply collect_files_normalized | |].
  - intros ([k u] & Hk & Hin)%list_elem_of_fmap. simpl in Hk. subst k.
    pose proof (entry_of_file cwd _ _ _ _ _ _ _ Hupd Hread Hin) as Hu.
    rewrite Hup in Hu. done.
  - intros old Hold. by apply (Hdest old f).
Qed.

Lemma unchanged_file_not_written_witness :
  let w := World disk_detour [] in
  let r := run "/" "/repo/src" moves_c w in
  exists evs,
    log r.1 = log w ++ evs
              ++ [EvPrint (summary_line (length (git_moves evs))
                                        (length (writes evs)))]
    /\ ("/repo/src/a.ts" : str) ∉ (writes evs).*1.
Proof.
  intros w r.
  apply (unchanged_file_not_written "/" "/repo/src" moves_c w r.1
           "/repo/src/a.ts" "export const a = 1;");
    [by_run | by_eval | by_eval | by_decide].
Defined.

Lemma run_raises_only_os_errors_witness :
  let w := World disk_abc [] in
  let r := run "/" "/repo/src" moves_abc w in
  r.2 = inl (CalledProcessError "/repo/src/b.ts" "/repo/src/sub/b.ts")
  /\ os_error (CalledProcessError "/repo/src/b.ts" "/repo/src/sub/b.ts")
  /\ exists evs, log r.1 = log w ++ evs
                 /\ forall n m, EvPrint (summary_line n m) ∉ evs.
Proof.
  intros w r. split; [by_eval|].
  apply (run_raises_only_os_errors "/" "/repo/src" moves_abc w r.1). by_run.
Defined.

Lemma run_read_error_changes_nothing_witness :
  let locked :=
    guarded_os (fun p => negb (Py.str_eqb p "/repo/src/b.ts"))
               (fun _ => true) in
  let moves_raw := [("/repo/src/a.ts" : str, "/repo/src/sub/a.ts" : str)] in
  let w := World disk_ab [] in
  let r := run (os := locked) "/" "/repo/src" moves_raw w in
  r.2 = inl (ReadError "/repo/src/b.ts")
  /\ ("/repo/src/b.ts" : str) ∈ collect_files (os := locked) "/repo/src" (disk w)
  /\ read_text (OS := locked) (disk w) "/repo/src/b.ts" = None
  /\ disk r.1 = disk w
  /\ exists evs, log r.1 = log w ++ evs /\ Forall is_read evs.
Proof.
  intros locked moves_raw w r. split; [by_eval|].
  apply (run_read_error_changes_nothing (os := locked) "/" "/repo/src"
           moves_raw w r.1).
  by_run.
Defined.

Lemma run_write_error_after_moves_witness :
  let readonly :=
    guarded_os (fun _ => true)
               (fun p => negb (Py.str_eqb p "/repo/src/b.ts")) in
  let moves_raw := [("/repo/src/a.ts" : str, "/repo/src/sub/a.ts" : str)] in
  let w := World disk_ab [] in
  let r := run (os := readonly) "/" "/repo/src" moves_raw w in
  let moves := normalize_moves moves_raw in
  let keys := sorted (map_to_list moves).*1 in
  r.2 = inl (WriteError "/repo/src/b.ts")
  /\ exists updates written old c rest d2 evs,
    updates_from (H := readonly) "/" moves (disk w)
      (collect_files (os := readonly) "/repo/src" (disk w)) []
    = Some updates
    /\ updates = written ++ (old, ("/repo/src/b.ts" : str, c)) :: rest
    /\ moved (H := readonly) moves (PosixPath.dirname "/repo/src") keys (disk w)
       = Some d2
    /\ flushed (H := readonly) written d2 = Some (disk r.1)
    /\ write_text (OS := readonly) (disk r.1) "/repo/src/b.ts" c = None
    /\ log r.1 = log w ++ evs
    /\ git_moves evs = move_pairs moves keys
    /\ writes evs = written.*2 ++ [("/repo/src/b.ts" : str, c)].
Proof.
  intros readonly moves_raw w r moves keys. split; [by_eval|].
  apply (run_write_error_after_moves (os := readonly) "/" "/repo/src"
           moves_raw w r.1).
  by_run.
Defined.

Section BaseFacts.

Implicit Types (s p r u cwd : str) (cs : list str) (n : nat).

Lemma isabs_abspath cwd p :
  PosixPath.isabs cwd = true -> PosixPath.isabs (PosixPath.abspath cwd p) = true.
Proof.
  intros Hcwd. unfold PosixPath.abspath.
  destruct (PosixPath.isabs p) eqn:Hp; apply isabs_normpath; [done|].
  cbn [PosixPath.join foldl]. by apply isabs_join2.
Qed.

Lemma normalized_abspath cwd p : normalized (PosixPath.abspath cwd p).
Proof.
  unfold PosixPath.abspath.
  destruct (PosixPath.isabs p); apply normpath_idempotent.
Qed.

Lemma is_name_src : is_name "src".
Proof. split_and!; try done. by_decide. Qed.

End BaseFacts.

(** X12.  [BASE] is the directory [src] of the directory of the script: when
    the working directory is absolute, [BASE] is a normalized absolute path
    that ends in [/src], and [repo_root], its [dirname], is the directory of
    the script. *)
Theorem base_of_script_dir (cwd script_file : str) :
  PosixPath.isabs cwd = true ->
  let script_dir := PosixPath.dirname (PosixPath.abspath cwd script_file) in
  let BASE := base_of cwd script_file in
  normalized BASE
  /\ PosixPath.isabs BASE = true
  /\ Py.endswith BASE "/src" = true
  /\ PosixPath.dirname BASE = script_dir.
Proof.
  intros Hcwd script_dir BASE.
  destruct (normalized_abs_inv (PosixPath.abspath cwd script_file))
    as (n & cs & Hn & Hcs & Habs);
    [apply normalized_abspath | by apply isabs_abspath |].
  assert (script_dir = abs_path n (removelast cs)) as Hdir.
  { unfold script_dir. rewrite Habs. by apply dirname_abs_path. }
  assert (Forall is_name (removelast cs)) as HF by by apply Forall_removelast.
  assert (BASE = abs_path n (removelast cs ++ ["src" : str])) as HB.
  { unfold BASE, base_of. fold script_dir. rewrite Hdir.
    apply (join2_abs_path n (removelast cs) ["src" : str]); try done.
    constructor; [|done]. apply is_name_plain, is_name_src. }
  assert (Forall is_name (removelast cs ++ ["src" : str])) as HFs.
  { apply Forall_app. split; [done|]. constructor; [apply is_name_src | done]. }
  rewrite HB, Hdir. split_and!.
  - by apply normpath_abs_path.
  - by apply isabs_abs_path.
  - destruct (abs_path_snoc n (removelast cs) "src" Hn) as [q ->].
    change (Py.endswith (q ++ ("/src" : str)) "/src" = true).
    apply endswith_app.
  - apply dirname_abs_path_snoc; [done | done | by_decide].
Qed.

Lemma base_of_script_dir_witness :
  PosixPath.isabs "/home/dev" = true
  /\ base_of "/home/dev" "repo/move-files.py" = "/home/dev/repo/src"
  /\ normalized (base_of "/home/dev" "repo/move-files.py")
  /\ PosixPath.isabs (base_of "/home/dev" "repo/move-files.py") = true
  /\ Py.endswith (base_of "/home/dev" "repo/move-files.py") "/src" = true
  /\ PosixPath.dirname (base_of "/home/dev" "repo/move-files.py")
     = PosixPath.dirname (PosixPath.abspath "/home/dev" "repo/move-files.py").
Proof.
  split; [by_eval|]. split; [by_eval|].
  apply (base_of_script_dir "/home/dev" "repo/move-files.py"). by_eval.
Defined.

Section Discovered.

Implicit Types (s p r u f X Y Z : str) (cs : list str) (n : nat).

Lemma join_pre_dir_prefix cs : dir_prefix (join_pre cs).
Proof.
  destruct cs as [|c cs]; [by left|]. right. unfold join_pre.
  by exists (Py.join "/" (c :: cs)).
Qed.

Lemma is_name_no_leading_sep f : is_name f -> Py.startswith f "/" = false.
Proof.
  intros (Hne & _ & _ & Hsep). apply startswith_sep.
  destruct f as [|x f]; [done|]. simpl.
  by apply not_elem_of_cons in Hsep as [Hx _].
Qed.

(** [normpath] keeps a last component that is a name. *)
Lemma normpath_last_name X f :
  is_name f -> dir_prefix X ->
  exists Z, PosixPath.normpath (X ++ f) = Z ++ f /\ dir_prefix Z.
Proof.
  intros Hf HX. pose proof Hf as (Hne & _ & _ & Hsep).
  assert (X ++ f <> []) as Hp by (intros [_ ?]%app_eq_nil; done).
  unfold PosixPath.normpath.
  replace (Py.str_eqb (X ++ f) []) with false
    by (symmetry; by apply str_eqb_false).
  set (n := PosixPath.initial_slashes (X ++ f)).
  assert (exists cs, PosixPath.norm_comps n [] (Py.split PosixPath.sep (X ++ f))
                     = cs ++ [f]) as [cs ->].
  { destruct HX as [-> | [Y ->]].
    - exists []. cbn [app]. rewrite split_free by done.
      by rewrite norm_comps_name.
    - rewrite <- app_assoc. cbn [app]. rewrite split_app_sep.
      rewrite (split_free _ f) by done.
      eexists. by apply norm_comps_snoc. }
  rewrite join_last.
  assert (n = 0 \/ n = 1 \/ n = 2) as Hn.
  { unfold n, PosixPath.initial_slashes. repeat case_match; auto. }
  destruct Hn as [-> | Hn].
  - cbn [Nat.eqb].
    replace (Py.str_eqb (join_pre cs ++ f) []) with false
      by (symmetry; apply str_eqb_false; intros [_ ?]%app_eq_nil; done).
    exists (join_pre cs). split; [done | apply join_pre_dir_prefix].
  - replace (Nat.eqb n 0) with false by (by destruct Hn as [-> | ->]).
    replace (Py.str_eqb (replicate n PosixPath.sep ++ join_pre cs ++ f) [])
      with false
      by (symmetry; apply str_eqb_false;
          intros [_ [_ ?]%app_eq_nil]%app_eq_nil; done).
    exists (replicate n PosixPath.sep ++ join_pre cs).
    split; [by rewrite <- app_assoc|].
    right. destruct (join_pre_dir_prefix cs) as [-> | [Y ->]].
    + rewrite app_nil_r. destruct Hn as [-> | ->]; [by exists [] |].
      by exists [PosixPath.sep].
    + exists (replicate n PosixPath.sep ++ Y). by rewrite <- app_assoc.
Qed.

Lemma join2_dir_prefix root f :
  Py.startswith f "/" = false ->
  exists X, PosixPath.join2 root f = X ++ f /\ dir_prefix X.
Proof.
  intros Hf. unfold PosixPath.join2. rewrite Hf.
  destruct (Py.str_eqb root []) eqn:E0.
  - apply str_eqb_true in E0 as ->. exists []. split; [done | by left].
  - cbn [orb]. destruct (Py.endswith root "/") eqn:E.
    + exists root. split; [done|]. right.
      by apply endswith_spec in E as [Y ->]; exists Y.
    + exists (root ++ "/"). split; [by rewrite <- app_assoc|].
      right. by exists root.
Qed.

Lemma endswith_dir_prefix Z f sfx :
  dir_prefix Z -> PosixPath.sep ∉ sfx ->
  Py.endswith (Z ++ f) sfx = true -> Py.endswith f sfx = true.
Proof.
  intros [-> | [Y ->]] Hs; [done|].
  intros [q Hq]%endswith_spec. rewrite <- app_assoc in Hq.
  apply suffix_after_sep in Hq as [b0 ->]; [|done].
  apply endswith_app.
Qed.

Lemma is_source_name f :
  is_source f = true -> PosixPath.sep ∉ f -> is_name f.
Proof.
  intros Hs Hsep. unfold is_source in Hs.
  apply andb_true_iff in Hs as [[q ->]%endswith_spec _].
  split_and!; [ | | | done].
  - intros [_ ?]%app_eq_nil. done.
  - intros E. apply (f_equal length) in E. rewrite length_app in E.
    simpl in E. lia.
  - intros E. apply (f_equal length) in E. rewrite length_app in E.
    simpl in E. lia.
Qed.

End Discovered.

(** X13.  The files that [run] discovers: when the names of the walk hold no
    separator, every discovered file is a normalized path that ends in [.ts]
    and not in [.d.ts]. *)
Theorem collect_files_sources {FS : Type} {os : OS FS} (BASE : str) (d : FS) :
  Forall (fun rf => PosixPath.sep ∉ rf.2) (os_walk d BASE) ->
  Forall (fun p => normalized p
                   /\ Py.endswith p ".ts" = true
                   /\ Py.endswith p ".d.ts" = false)
         (collect_files BASE d).
Proof.
  intros Hwalk. unfold collect_files. apply Forall_forall. intros p Hin.
  apply list_elem_of_fmap in Hin as ([root f] & -> & Hin).
  apply list_elem_of_filter in Hin as [Hsrc Hin].
  eapply Forall_forall in Hwalk; [|exact Hin]. simpl in *.
  split; [apply normpath_idempotent|].
  pose proof (is_source_name f Hsrc Hwalk) as Hname.
  destruct (join2_dir_prefix root f (is_name_no_leading_sep f Hname))
    as (X & HX & HdX).
  cbn [PosixPath.join foldl]. rewrite HX.
  destruct (normpath_last_name X f Hname HdX) as (Z & -> & HdZ).
  unfold is_source in Hsrc. apply andb_true_iff in Hsrc as [Hts Hdts].
  split.
  - apply endswith_spec in Hts as [q ->]. rewrite app_assoc.
    apply endswith_app.
  - apply negb_true_iff in Hdts.
    destruct (Py.endswith (Z ++ f) ".d.ts") eqn:E; [|done].
    apply endswith_dir_prefix in E; [congruence | done | by_decide].
Qed.

Lemma collect_files_sources_witness :
  collect_files "/repo/src" disk_ab
  = [("/repo/src/a.ts" : str); ("/repo/src/b.ts" : str)]
  /\ Forall (fun p => normalized p
                      /\ Py.endswith p ".ts" = true
                      /\ Py.endswith p ".d.ts" = false)
            (collect_files "/repo/src" disk_ab).
Proof.
  split; [by_eval|].
  apply collect_files_sources. by_decide.
Defined.
Section FlatDisk.

Implicit Types (d : gmap str str) (moves : gmap str str)
  (updates : list (str * (str * str))) (ks : list str).

Lemma flat_makedirs_inv d dir d1 : makedirs d dir = Some d1 -> d1 = d.
Proof.
  cbn [makedirs flat_os]. destruct (Py.str_eqb dir []); [done|].
  destruct (bool_decide _); [done|]. by intros [= <-].
Qed.

Lemma flat_read_text_inv d p c :
  read_text d p = Some c -> exists raw, d !! p = Some raw.
Proof.
  cbn [read_text flat_os]. destruct (d !! p) as [raw|]; [|done].
  by exists raw.
Qed.

Lemma flat_moved_cons moves repo_root k ks d d' :
  moved moves repo_root (k :: ks) d = Some d' ->
  exists new c,
    moves !! k = Some new /\ d !! k = Some c /\ d !! new = None
    /\ moved moves repo_root ks (<[new := c]> (delete k d)) = Some d'.
Proof.
  cbn [moved]. intros Hm.
  destruct (moves !! k) as [new|] eqn:Hk; [|done].
  cbn [mbind option_bind] in Hm.
  destruct (makedirs d (PosixPath.dirname new)) as [d1|] eqn:Hmk; [|done].
  apply flat_makedirs_inv in Hmk as ->.
  cbn [mbind option_bind git_mv flat_os] in Hm.
  destruct (d !! k) as [c|] eqn:Hdk; [|done].
  destruct (d !! new) as [c1|] eqn:Hdn; [done|].
  by exists new, c.
Qed.

(** On the flat file system a move leaves the other files as they are,
    and no move that succeeds has an existing file as its destination. *)
Lemma flat_moved_keeps moves repo_root ks d d' f c :
  moved moves repo_root ks d = Some d' ->
  d !! f = Some c -> f ∉ ks ->
  d' !! f = Some c /\ Forall (fun k => moves !! k <> Some f) ks.
Proof.
  revert d. induction ks as [|k ks IH]; intros d.
  - intros [= <-] Hf _. by split.
  - intros (new & c0 & Hk & Hdk & Hdn & Hm)%flat_moved_cons Hf Hnin.
    apply not_elem_of_cons in Hnin as [Hfk Hnin].
    assert (new <> f) as Hnf by (intros ->; by rewrite Hf in Hdn).
    apply IH in Hm as [Hd' Hall]; [| |done].
    + split; [done|]. constructor; [|done]. rewrite Hk. by intros [= ->].
    + rewrite lookup_insert_ne by done. by rewrite lookup_delete_ne.
Qed.

(** A path that holds no file, and is no destination, holds none after
    the moves. *)
Lemma flat_moved_absent moves repo_root ks d d' f :
  moved moves repo_root ks d = Some d' ->
  d !! f = None -> Forall (fun k => moves !! k <> Some f) ks ->
  d' !! f = None.
Proof.
  revert d. induction ks as [|k ks IH]; intros d.
  - by intros [= <-].
  - intros (new & c0 & Hk & Hdk & Hdn & Hm)%flat_moved_cons Hf
      [Hkf Hall]%Forall_cons_1.
    apply IH in Hm; [done | | done].
    rewrite lookup_insert_ne by (intros ->; by apply Hkf).
    rewrite lookup_delete_ne; [done|]. intros ->. by rewrite Hf in Hdk.
Qed.

(** The origin of a move holds no file after the moves, unless it is the
    destination of a move. *)
Lemma flat_moved_origin moves repo_root ks d d' k :
  moved moves repo_root ks d = Some d' ->
  k ∈ ks -> Forall (fun g => moves !! g <> Some k) ks ->
  d' !! k = None.
Proof.
  revert d. induction ks as [|g ks IH]; intros d; [by intros _ ?%elem_of_nil|].
  intros Hm Hin Hall. pose proof Hm as Hm0.
  apply flat_moved_cons in Hm as (new & c0 & Hg & Hdg & Hdn & Hm).
  pose proof Hall as [Hgk Hall']%Forall_cons_1.
  destruct (decide (k ∈ ks)) as [Hks | Hks]; [by apply (IH _ Hm)|].
  apply elem_of_cons in Hin as [-> | ?]; [|done].
  apply (flat_moved_absent _ _ _ _ _ _ Hm); [|done].
  rewrite lookup_insert_ne by (intros ->; by apply Hgk).
  apply lookup_delete_eq.
Qed.

(** Two moves that succeed do not have the same destination, when the
    destination is not itself moved. *)
Lemma flat_moved_destinations moves repo_root ks d d' k g new :
  moved moves repo_root ks d = Some d' ->
  new ∉ ks -> k ∈ ks -> g ∈ ks ->
  moves !! k = Some new -> moves !! g = Some new -> k = g.
Proof.
  revert d. induction ks as [|h ks IH]; intros d; [by intros _ _ ?%elem_of_nil|].
  intros (new' & c0 & Hh & Hdh & Hdn & Hm)%flat_moved_cons
    [Hnh Hnks]%not_elem_of_cons Hk Hg Hkn Hgn.
  assert (forall x, x ∈ h :: ks -> moves !! x = Some new -> x ∉ ks -> x = h)
    as Hhead by (by intros x [-> | ?]%elem_of_cons).
  destruct (decide (k ∈ ks)) as [Hkks | Hkks];
    destruct (decide (g ∈ ks)) as [Hgks | Hgks].
  - by apply (IH _ Hm).
  - rewrite (Hhead g) in Hgn by done. rewrite Hh in Hgn. injection Hgn as ->.
    destruct (flat_moved_keeps _ _ _ _ _ new c0 Hm) as [_ Hall];
      [by rewrite lookup_insert_eq | done |].
    eapply Forall_forall in Hall; [|exact Hkks]. done.
  - rewrite (Hhead k) in Hkn by done. rewrite Hh in Hkn. injection Hkn as ->.
    destruct (flat_moved_keeps _ _ _ _ _ new c0 Hm) as [_ Hall];
      [by rewrite lookup_insert_eq | done |].
    eapply Forall_forall in Hall; [|exact Hgks]. done.
  - by rewrite (Hhead k), (Hhead g).
Qed.

Lemma flat_flushed_cons old p nc updates d d' :
  flushed ((old, (p, nc)) :: updates) d = Some d' ->
  flushed updates (<[p := nc]> d) = Some d'.
Proof. done. Qed.

(** The content of a path after the writes, when every entry for the path
    holds the same content. *)
Lemma flat_flushed_content updates d d' p nc :
  flushed updates d = Some d' ->
  Forall (fun u => u.2.1 = p -> u.2.2 = nc) updates ->
  d !! p = Some nc \/ p ∈ (updates.*2).*1 ->
  d' !! p = Some nc.
Proof.
  revert d. induction updates as [|[old [q c]] updates IH]; intros d.
  - intros [= <-] _ [? | ?%elem_of_nil]; done.
  - intros Hfl%flat_flushed_cons [Hq Hall]%Forall_cons_1 Hp. simpl in *.
    apply (IH _ Hfl Hall).
    destruct (decide (q = p)) as [-> | Hne].
    + left. rewrite (Hq eq_refl). apply lookup_insert_eq.
    + destruct Hp as [Hp | [? | Hp]%elem_of_cons]; [|done|by right].
      left. by rewrite lookup_insert_ne.
Qed.

Lemma flat_flushed_absent updates d d' p :
  flushed updates d = Some d' ->
  d !! p = None -> p ∉ (updates.*2).*1 -> d' !! p = None.
Proof.
  revert d. induction updates as [|[old [q c]] updates IH]; intros d.
  - by intros [= <-].
  - intros Hfl%flat_flushed_cons Hp Hnin. simpl in Hnin.
    apply not_elem_of_cons in Hnin as [Hpq Hnin].
    apply (IH _ Hfl); [|done]. by rewrite lookup_insert_ne.
Qed.

End FlatDisk.

Section FlatRun.

Implicit Types (d : gmap str str) (moves : gmap str str)
  (updates : list (str * (str * str))) (ks : list str).

Lemma sorted_keys_elem_of moves k :
  k ∈ sorted (map_to_list moves).*1 <-> is_Some (moves !! k).
Proof.
  rewrite (sorted_perm _). rewrite list_elem_of_fmap. split.
  - intros ([k' v] & -> & Hin). apply elem_of_map_to_list in Hin. by eexists.
  - intros [v Hv]. exists (k, v). split; [done|].
    by apply elem_of_map_to_list.
Qed.

End FlatRun.

(** X14.  On the flat file system, a completed run has moved and rewritten a
    discovered file of the mapping: when the destination is not itself an
    origin and the origin is not a destination, the destination holds the
    rewrite of the text that was read from the file, and the origin holds
    no file. *)
Theorem flat_run_moves_and_rewrites
    (cwd BASE : str) (moves_raw : list (str * str))
    (w w' : world (gmap str str)) (k new c : str) :
  let moves := normalize_moves moves_raw in
  run cwd BASE moves_raw w = (w', inr tt) ->
  moves !! k = Some new ->
  k ∈ collect_files BASE (disk w) ->
  read_text (disk w) k = Some c ->
  moves !! new = None ->
  map_Forall (fun _ v => v <> k) moves ->
  exists new_content,
    rewrite_imports cwd moves k new c = Some new_content
    /\ disk w' !! new = Some new_content
    /\ disk w' !! k = None.
Proof.
  intros moves Hrun Hk Hfile Hc Hnew Hdest.
  destruct (run_ok_disks cwd BASE _ _ _ Hrun) as (updates & d2 & Hupd & Hmv & Hfl).
  fold moves in Hupd, Hmv.
  set (keys := sorted (map_to_list moves).*1) in *.
  assert (k ∈ keys) as Hkeys by (apply sorted_keys_elem_of; by eexists).
  assert (new ∉ keys) as Hnkeys.
  { intros [v Hv]%sorted_keys_elem_of. by rewrite Hnew in Hv. }
  assert (k <> new) as Hkn by (intros ->; by rewrite Hnew in Hk).
  assert (normalized k) as Hnk
    by by destruct (normalize_moves_normalized moves_raw _ _ Hk).
  assert (new_path_of k moves = new) as Hnp.
  { unfold new_path_of. by rewrite Hnk, Hk. }
  destruct (update_of_total cwd moves_raw k c) as [[[na nc] ch] Hu].
  fold moves in Hu. pose proof Hu as Hu0. unfold update_of in Hu.
  rewrite Hnp in Hu.
  destruct (rewrite_imports cwd moves k new c) as [nc'|] eqn:Hrw; [|done].
  cbn [mbind option_bind] in Hu.
  rewrite (bool_decide_eq_true_2 (k <> new)), orb_true_r in Hu by done.
  injection Hu as Hna Hnc Hch. subst na nc ch.
  exists nc'. split; [done|].
  assert (forall u, (k, u) ∈ updates -> u = (new, nc')) as Hentry.
  { intros u Hin.
    pose proof (entry_of_file cwd _ _ _ _ _ _ _ Hupd Hc Hin) as Hu.
    rewrite Hu0 in Hu. injection Hu as -> ->. by destruct u. }
  assert (forall g p c', (g, (p, c')) ∈ updates ->
            exists raw, disk w !! g = Some raw /\ new_path_of g moves = p
                        /\ g ∈ collect_files BASE (disk w)) as Hany.
  { intros g p c' Hin.
    pose proof (updates_from_entries cwd _ _ _ _ _ Hupd (Forall_nil_2 _)) as Hent.
    eapply Forall_forall in Hent as (cg & Hcg & Hug); [|exact Hin].
    simpl in Hcg, Hug. apply flat_read_text_inv in Hcg as [raw Hraw].
    exists raw. split; [done|]. split.
    - unfold update_of in Hug.
      destruct (rewrite_imports cwd moves g _ cg); [|done].
      by injection Hug as <- _ _.
    - destruct (updates_from_keys_sub cwd moves (disk w) _ [] updates g Hupd)
        as [H0 | H0]; [| by apply elem_of_nil in H0 | done].
      apply list_elem_of_fmap. by exists (g, (p, c')). }
  assert (forall g, g ∈ collect_files BASE (disk w) -> normalized g) as Hnorm.
  { intros g Hg.
    pose proof (collect_files_normalized BASE (disk w)) as Hall.
    by eapply Forall_forall in Hall. }
  split.
  - apply (flat_flushed_content updates d2); [done | |].
    + apply Forall_forall. intros [g [p c']] Hin. simpl. intros ->.
      destruct (Hany _ _ _ Hin) as (raw & Hraw & Hp & Hg).
      assert (g = k) as ->; [|by apply Hentry in Hin as [= ->]].
      unfold new_path_of in Hp. rewrite (Hnorm g Hg) in Hp.
      destruct (moves !! g) as [v|] eqn:Hgv.
      * simpl in Hp. subst v. symmetry.
        apply (flat_moved_destinations _ _ _ _ _ k g new Hmv); try done.
        apply sorted_keys_elem_of. by eexists.
      * simpl in Hp. subst g.
        destruct (flat_moved_keeps _ _ _ _ _ new raw Hmv) as [_ Hall];
          [done | done |].
        eapply Forall_forall in Hall; [|exact Hkeys]. done.
    + right. destruct (updates_from_keys cwd _ _ _ _ _ Hupd) as [_ Hrec].
      specialize (Hrec k c (new, nc') Hfile Hc Hu0).
      apply list_elem_of_fmap in Hrec as ([k' u] & Hk' & Hin).
      simpl in Hk'. subst k'. pose proof (Hentry _ Hin) as ->.
      apply list_elem_of_fmap. exists (new, nc'). split; [done|].
      apply list_elem_of_fmap. by exists (k, (new, nc')).
  - apply (flat_flushed_absent updates d2); [done | |].
    + apply (flat_moved_origin _ _ _ _ _ _ Hmv); [done|].
      apply Forall_forall. intros g _ Hg. by apply (Hdest g k).
    + intros Hin. apply list_elem_of_fmap in Hin as ([p c'] & Hp & Hin).
      simpl in Hp. subst p.
      apply list_elem_of_fmap in Hin as ([g [p c'']] & Heq & Hin).
      simpl in Heq. injection Heq as <- <-.
      destruct (Hany _ _ _ Hin) as (raw & Hraw & Hp & Hg).
      unfold new_path_of in Hp. rewrite (Hnorm g Hg) in Hp.
      destruct (moves !! g) as [v|] eqn:Hgv; simpl in Hp; subst.
      * by apply (Hdest g k).
      * by rewrite Hk in Hgv.
Qed.

Lemma flat_run_moves_and_rewrites_witness :
  let moves_raw := [("/repo/src/a.ts" : str, "/repo/src/sub/a.ts" : str)] in
  let d : gmap str str :=
    {[ ("/repo/src/a.ts" : str) := import_stmt "b" "./b.js" ++ [cr; Py.nl];
       ("/repo/src/b.ts" : str) := import_stmt "a" "./a.js" ++ [cr; Py.nl] ]} in
  let w := World d [] in
  let r := run "/" "/repo/src" moves_raw w in
  read_text d "/repo/src/a.ts" = Some (import_stmt "b" "./b.js" ++ [Py.nl])
  /\ disk r.1 !! ("/repo/src/sub/a.ts" : str)
     = Some (import_stmt "b" "../b.js" ++ [Py.nl])
  /\ exists new_content,
    rewrite_imports "/" (normalize_moves moves_raw)
      "/repo/src/a.ts" "/repo/src/sub/a.ts"
      (import_stmt "b" "./b.js" ++ [Py.nl])
    = Some new_content
    /\ disk r.1 !! ("/repo/src/sub/a.ts" : str) = Some new_content
    /\ disk r.1 !! ("/repo/src/a.ts" : str) = None.
Proof.
  intros moves_raw d w r. split; [by_eval|]. split; [by_eval|].
  apply (flat_run_moves_and_rewrites "/" "/repo/src" moves_raw w r.1);
    [by_run | by_eval | by_decide | by_eval | by_eval | by_decide].
Defined.

Section QuoteFacts.

Implicit Types (s ip rest : str).

Lemma find_imports_needs_quote s : dq ∉ s -> find_imports s = [].
Proof.
  induction s as [|s ip rest Hm IH|c s Hm IH] using scan_ind.
  - done.
  - intros Hs. apply match_import_spec in Hm as (-> & _).
    exfalso. apply Hs.
    rewrite !elem_of_app. right. right. by left.
  - intros [_ Hs]%not_elem_of_cons.
    rewrite (find_imports_no_match _ _ Hm). by apply IH.
Qed.

End QuoteFacts.

(** X15.  Only imports written with double quotes are recognised: a content
    that holds no double quote, for instance one whose imports are all
    written with single quotes, is returned by the rewrite as it is, and no
    entry is recorded for its file unless the file moves. *)
Theorem content_without_double_quote_unchanged
    (cwd : str) (moves : gmap str str) (old_abs content : str) :
  dq ∉ content ->
  rewrite_imports cwd moves old_abs (new_path_of old_abs moves) content
  = Some content
  /\ update_of cwd moves old_abs content
     = Some (new_path_of old_abs moves, content,
             bool_decide (old_abs <> new_path_of old_abs moves)).
Proof.
  intros Hq.
  assert (rewrite_imports cwd moves old_abs (new_path_of old_abs moves) content
          = Some content) as Hrw.
  { apply rewrite_imports_no_match. by apply find_imports_needs_quote. }
  split; [done|]. unfold update_of. rewrite Hrw. cbn [mbind option_bind].
  by rewrite (bool_decide_eq_false_2 (content <> content)) by auto.
Qed.

Lemma content_without_double_quote_unchanged_witness :
  let moves : gmap str str :=
    {[ ("/repo/src/a.ts" : str) := ("/repo/src/sub/a.ts" : str) ]} in
  let content : str := "import { a } from './a.js';" in
  (dq ∉ content)
  /\ rewrite_imports "/" moves "/repo/src/b.ts"
       (new_path_of "/repo/src/b.ts" moves) content
     = Some content
  /\ update_of "/" moves "/repo/src/b.ts" content
     = Some (new_path_of "/repo/src/b.ts" moves, content,
             bool_decide (("/repo/src/b.ts" : str)
                          <> new_path_of "/repo/src/b.ts" moves)).
Proof.
  intros moves content.
  assert (dq ∉ content) as Hq by by_decide.
  split; [done|].
  by apply content_without_double_quote_unchanged.
Defined.

Section Prints.

Context {FS : Type} {os : OS FS}.
Variable cwd : str.
Variable BASE : str.

Implicit Types (w : world FS) (e : error) (ev : event) (moves : gmap str str)
  (updates : list (str * (str * str))).

Lemma prints_app l l' : prints (l ++ l') = prints l ++ prints l'.
Proof. apply omap_app. Qed.

Lemma prints_reads evs : Forall is_read evs -> prints evs = [].
Proof.
  induction 1 as [|ev evs Hev _ IH]; [done|].
  by destruct ev.
Qed.

Lemma move_one_prints moves repo_root k w w' :
  move_one cwd moves repo_root k w = (w', inr tt) ->
  exists new line,
    moves !! k = Some new
    /\ move_line cwd repo_root (k, new) = Some line
    /\ prints (log w') = prints (log w) ++ [line].
Proof.
  unfold move_one. intros Hrun. m_inv.
  eexists _, _. split; [done|]. unfold move_line. cbn [fst snd].
  repeat match goal with H : PosixPath.relpath _ _ _ = Some _ |- _ =>
    rewrite H; clear H end.
  cbn [mbind option_bind]. split; [done|].
  rewrite !prints_app. cbn [prints omap]. by rewrite !app_nil_r.
Qed.

Lemma apply_moves_prints moves repo_root ks w w' :
  for_each ks (move_one cwd moves repo_root) w = (w', inr tt) ->
  exists mlines,
    mapM (move_line cwd repo_root) (move_pairs moves ks) = Some mlines
    /\ prints (log w') = prints (log w) ++ mlines.
Proof.
  revert w. induction ks as [|k ks IH]; intros w.
  - intros [= <-]. exists []. by rewrite app_nil_r.
  - cbn [for_each]. intros Hrun.
    apply bind_inv in Hrun as [(e & _ & ?) | (w1 & [] & H1 & H2)]; [done|].
    apply move_one_prints in H1 as (new & line & Hk & Hline & Hp1).
    apply IH in H2 as (mlines & Hm & Hp2).
    exists (line :: mlines). rewrite (move_pairs_cons _ _ _ _ Hk).
    cbn [mapM]. rewrite Hline, Hm. cbn [mbind option_bind mret option_ret].
    split; [done|]. by rewrite Hp2, Hp1, <- app_assoc.
Qed.

Lemma flush_one_prints repo_root u w w' :
  flush_one cwd repo_root u w = (w', inr tt) ->
  exists lines,
    update_lines cwd repo_root u = Some lines
    /\ prints (log w') = prints (log w) ++ lines.
Proof.
  destruct u as [old_abs [new_abs new_content]].
  unfold flush_one, update_lines. cbn [fst snd]. intros Hrun.
  destruct (Py.str_eqb old_abs new_abs); m_inv.
  - eexists. repeat match goal with H : PosixPath.relpath _ _ _ = Some _ |- _ =>
      rewrite H; clear H end.
    cbn [mbind option_bind]. split; [done|].
    rewrite !prints_app. cbn [prints omap]. by rewrite !app_nil_r.
  - exists []. split; [done|].
    rewrite !prints_app. cbn [prints omap]. by rewrite !app_nil_r.
Qed.

Lemma flush_updates_prints repo_root updates w w' :
  flush_updates cwd repo_root updates w = (w', inr tt) ->
  exists ulines,
    mapM (update_lines cwd repo_root) updates = Some ulines
    /\ prints (log w') = prints (log w) ++ concat ulines.
Proof.
  unfold flush_updates. revert w.
  induction updates as [|u updates IH]; intros w.
  - intros [= <-]. exists []. by rewrite app_nil_r.
  - cbn [for_each]. intros Hrun.
    apply bind_inv in Hrun as [(e & _ & ?) | (w1 & [] & H1 & H2)]; [done|].
    apply flush_one_prints in H1 as (lines & Hu & Hp1).
    apply IH in H2 as (ulines & Hm & Hp2).
    exists (lines :: ulines). cbn [mapM]. rewrite Hu, Hm.
    cbn [mbind option_bind mret option_ret concat].
    split; [done|]. by rewrite Hp2, Hp1, <- app_assoc.
Qed.

Lemma update_lines_length repo_root updates ulines :
  mapM (update_lines cwd repo_root) updates = Some ulines ->
  length (concat ulines)
  = length (filter (fun u => u.1 = u.2.1) updates).
Proof.
  revert ulines. induction updates as [|u updates IH]; intros ulines.
  - by intros [= <-].
  - cbn [mapM]. intros Hm.
    destruct (update_lines cwd repo_root u) as [lines|] eqn:Hu; [|done].
    cbn [mbind option_bind] in Hm.
    destruct (mapM _ updates) as [ul|]; [|done].
    injection Hm as <-. cbn [concat]. rewrite length_app, (IH ul eq_refl).
    rewrite filter_cons. unfold update_lines in Hu.
    destruct (Py.str_eqb u.1 u.2.1) eqn:E.
    + apply str_eqb_true in E.
      destruct (PosixPath.relpath _ _ _); [|done]. injection Hu as <-.
      by rewrite decide_True.
    + apply str_eqb_false in E. injection Hu as <-. by rewrite decide_False.
Qed.

End Prints.

(** X17.  The lines that a completed run prints: one line [git mv] for each
    entry of the move mapping, in the sorted order of the origins, then one
    line [updated imports in] for each entry of [updates] whose file is
    written in place and none for an entry whose file was moved, then the
    summary line. *)
Theorem run_prints {FS : Type} {os : OS FS}
    (cwd BASE : str) (moves_raw : list (str * str)) (w w' : world FS) :
  run cwd BASE moves_raw w = (w', inr tt) ->
  let moves := normalize_moves moves_raw in
  let keys := sorted (map_to_list moves).*1 in
  let repo_root := PosixPath.dirname BASE in
  exists updates mlines ulines,
    updates_from cwd moves (disk w) (collect_files BASE (disk w)) []
    = Some updates
    /\ mapM (move_line cwd repo_root) (move_pairs moves keys) = Some mlines
    /\ mapM (update_lines cwd repo_root) updates = Some ulines
    /\ prints (log w')
       = prints (log w) ++ mlines ++ concat ulines
         ++ [summary_line (size moves) (length updates)]
    /\ length mlines = size moves
    /\ length (concat ulines)
       = length (filter (fun u => u.1 = u.2.1) updates).
Proof.
  intros Hrun moves keys repo_root. unfold run in Hrun.
  fold moves in Hrun. fold repo_root in Hrun.
  apply bind_inv in Hrun as [(e & _ & ?) | (w0 & files & H0 & Hrun)]; [done|].
  injection H0 as <- <-.
  apply bind_inv in Hrun as [(e & _ & ?) | (w1 & updates & H1 & Hrun)]; [done|].
  apply bind_inv in Hrun as [(e & _ & ?) | (w2 & [] & H2 & Hrun)]; [done|].
  apply bind_inv in Hrun as [(e & _ & ?) | (w3 & [] & H3 & Hrun)]; [done|].
  apply emit_inv in Hrun as [-> _].
  destruct (compute_updates_reads cwd _ _ _ _ _ H1) as ((evs1 & Hl1 & He1) & _).
  apply compute_updates_inv in H1 as [Hd1 Hupd].
  apply apply_moves_prints in H2 as (mlines & Hm & Hp2).
  apply flush_updates_prints in H3 as (ulines & Hu & Hp3).
  exists updates, mlines, ulines. split_and!; try done.
  - cbn [log]. rewrite prints_app, Hp3, Hp2, Hl1, prints_app.
    rewrite (prints_reads evs1) by done.
    cbn [prints omap]. by rewrite app_nil_r, <- !app_assoc.
  - apply length_mapM in Hm. rewrite <- Hm.
    apply length_sorted_keys.
  - by apply update_lines_length in Hu.
Qed.

Lemma run_prints_witness :
  let moves_raw := [("/repo/src/a.ts" : str, "/repo/src/sub/a.ts" : str)] in
  let w := World disk_ab [] in
  let r := run "/" "/repo/src" moves_raw w in
  prints (log r.1)
  = [ ("  git mv src/a.ts -> src/sub/a.ts" : str);
      ("  updated imports in src/b.ts" : str);
      summary_line 1 2 ]
  /\ exists updates mlines ulines,
    updates_from "/" (normalize_moves moves_raw) (disk w)
      (collect_files "/repo/src" (disk w)) [] = Some updates
    /\ mapM (move_line "/" (PosixPath.dirname "/repo/src"))
         (move_pairs (normalize_moves moves_raw)
            (sorted (map_to_list (normalize_moves moves_raw)).*1))
       = Some mlines
    /\ mapM (update_lines "/" (PosixPath.dirname "/repo/src")) updates
       = Some ulines
    /\ prints (log r.1)
       = prints (log w) ++ mlines ++ concat ulines
         ++ [summary_line (size (normalize_moves moves_raw)) (length updates)]
    /\ length mlines = size (normalize_moves moves_raw)
    /\ length (concat ulines)
       = length (filter (fun u => u.1 = u.2.1) updates).
Proof.
  intros moves_raw w r. split; [by_eval|].
  apply (run_prints "/" "/repo/src" moves_raw w r.1). by_run.
Defined.

(** * A run from its beginning *)

Section Forward.

Context {FS : Type} {os : OS FS}.
Variable cwd : str.
Variable BASE : str.

Implicit Types (w : world FS) (e : error) (moves : gmap str str)
  (updates : list (str * (str * str))) (ks : list str).

(** A move whose steps succeed. *)
Lemma move_one_succeeds moves repo_root k new d1 d2 w :
  moves !! k = Some new -> k <> [] -> new <> [] ->
  makedirs (disk w) (PosixPath.dirname new) = Some d1 ->
  git_mv d1 repo_root k new = Some d2 ->
  exists w', move_one cwd moves repo_root k w = (w', inr tt).
Proof.
  intros Hk Hk0 Hn0 Hmk Hmv.
  destruct (relpath_Some cwd k repo_root Hk0) as [r_old Hr_old].
  destruct (relpath_Some cwd new repo_root Hn0) as [r_new Hr_new].
  destruct (move_one cwd moves repo_root k w) as [w' [e|[]]] eqn:Hrun;
    [exfalso | by exists w'].
  unfold move_one in Hrun. m_inv; congruence.
Qed.

(** A move whose [git mv] fails. *)
Lemma move_one_fails moves repo_root k new d1 w :
  moves !! k = Some new ->
  makedirs (disk w) (PosixPath.dirname new) = Some d1 ->
  git_mv d1 repo_root k new = None ->
  exists w', move_one cwd moves repo_root k w
             = (w', inl (CalledProcessError k new)).
Proof.
  intros Hk Hmk Hmv.
  destruct (move_one cwd moves repo_root k w) as [w' [e|[]]] eqn:Hrun.
  - exists w'. f_equal. f_equal. unfold move_one in Hrun.
    m_inv; congruence.
  - exfalso. unfold move_one in Hrun. m_inv; congruence.
Qed.

Lemma for_each_cons {X} (x : X) (l : list X) (body : X -> M FS unit) w w1 :
  body x w = (w1, inr tt) -> for_each (x :: l) body w = for_each l body w1.
Proof. intros H. cbn [for_each]. by rewrite bind_unfold, H. Qed.

Lemma for_each_stops {X} (l1 l2 : list X) (x : X) (body : X -> M FS unit)
    w w1 w2 e :
  for_each l1 body w = (w1, inr tt) -> body x w1 = (w2, inl e) ->
  for_each (l1 ++ x :: l2) body w = (w2, inl e).
Proof.
  revert w. induction l1 as [|y l1 IH]; intros w.
  - intros [= <-] Hx. cbn [app for_each]. by rewrite bind_unfold, Hx.
  - cbn [app for_each]. rewrite !bind_unfold.
    destruct (body y w) as [w0 [e0|[]]]; [done|]. apply IH.
Qed.

Lemma moves_nonempty moves_raw k new :
  normalize_moves moves_raw !! k = Some new -> k <> [] /\ new <> [].
Proof.
  intros Hk.
  destruct (normalize_moves_normalized moves_raw _ _ Hk) as [Hnk Hnn].
  split; [rewrite <- Hnk | rewrite <- Hnn]; apply normpath_nonempty.
Qed.

(** The moves of [ks] are made when [moved] says that they succeed. *)
Lemma for_each_moved moves_raw repo_root ks d' w :
  moved (normalize_moves moves_raw) repo_root ks (disk w) = Some d' ->
  exists w',
    for_each ks (move_one cwd (normalize_moves moves_raw) repo_root) w
    = (w', inr tt).
Proof.
  revert w. induction ks as [|k ks IH]; intros w; [by exists w|].
  cbn [moved]. intros Hm.
  destruct (normalize_moves moves_raw !! k) as [new|] eqn:Hk; [|done].
  cbn [mbind option_bind] in Hm.
  destruct (makedirs (disk w) (PosixPath.dirname new)) as [d1|] eqn:Hmk;
    [|done].
  cbn [mbind option_bind] in Hm.
  destruct (git_mv d1 repo_root k new) as [d2|] eqn:Hmv; [|done].
  cbn [mbind option_bind] in Hm.
  destruct (moves_nonempty moves_raw k new Hk) as [Hk0 Hn0].
  destruct (move_one_succeeds _ repo_root k new d1 d2 w Hk Hk0 Hn0 Hmk Hmv)
    as [w1 Hw1].
  pose proof Hw1 as (new' & d1' & line & Hk' & Hmk' & Hmv' & _)%move_one_ok.
  assert (disk w1 = d2) as Hd by congruence.
  rewrite <- Hd in Hm. destruct (IH w1 Hm) as [w' Hw'].
  exists w'. by rewrite (for_each_cons _ _ _ _ _ Hw1).
Qed.

(** Step 1 completes when every discovered file can be read. *)
Lemma compute_updates_succeeds moves_raw files w :
  Forall (fun f => is_Some (read_text (disk w) f)) files ->
  exists w1 updates,
    compute_updates cwd (normalize_moves moves_raw) files w
    = (w1, inr updates).
Proof.
  intros Hread.
  destruct (compute_updates cwd (normalize_moves moves_raw) files w)
    as [w1 [e|updates]] eqn:Hrun; [exfalso | by exists w1, updates].
  unfold compute_updates in Hrun.
  apply compute_updates_fail in Hrun as (p & _ & Hin & Hnone);
    [|intros; apply update_of_total].
  eapply Forall_forall in Hread as [c Hc]; [|exact Hin]. congruence.
Qed.

End Forward.

(** C9.  Move-failure abort semantics: the entries of the move mapping are
    processed in the order of their sorted origins.  When the discovered
    files can be read, the entries before an entry in the sorted order
    can be moved and [git mv] fails for that entry, the run aborts with
    the error of that command: the entries before it have been moved and
    their effect on the file system stays, the failed command is the last
    one attempted, no entry after it is attempted and nothing is written.
    Conversely a run that aborts with the error of a [git mv] is in this
    situation. *)
Theorem run_stops_at_failed_move {FS : Type} {os : OS FS}
    (cwd BASE : str) (moves_raw : list (str * str)) (w : world FS) :
  let moves := normalize_moves moves_raw in
  let repo_root := PosixPath.dirname BASE in
  let keys := sorted (map_to_list moves).*1 in
  StronglySorted str_le keys
  /\ keys ≡ₚ (map_to_list moves).*1
  /\ (forall pre post old new d_pre d1,
        keys = pre ++ old :: post ->
        moves !! old = Some new ->
        Forall (fun f => is_Some (read_text (disk w) f))
               (collect_files BASE (disk w)) ->
        moved moves repo_root pre (disk w) = Some d_pre ->
        makedirs d_pre (PosixPath.dirname new) = Some d1 ->
        git_mv d1 repo_root old new = None ->
        exists w',
          run cwd BASE moves_raw w = (w', inl (CalledProcessError old new))
          /\ disk w' = d1
          /\ git_moves (log w')
             = git_moves (log w) ++ move_pairs moves pre ++ [(old, new)]
          /\ writes (log w') = writes (log w))
  /\ (forall w' old new,
        run cwd BASE moves_raw w = (w', inl (CalledProcessError old new)) ->
        exists pre post d_pre,
          keys = pre ++ old :: post
          /\ moves !! old = Some new
          /\ moved moves repo_root pre (disk w) = Some d_pre
          /\ makedirs d_pre (PosixPath.dirname new) = Some (disk w')
          /\ git_mv (disk w') repo_root old new = None
          /\ git_moves (log w')
             = git_moves (log w) ++ move_pairs moves pre ++ [(old, new)]).
Proof.
  intros moves repo_root keys.
  split; [apply sorted_strongly|]. split; [apply sorted_perm|]. split.
  - intros pre post old new d_pre d1 Hkeys Hold Hread Hpre Hmk Hmv.
    subst keys moves repo_root.
    destruct (compute_updates_succeeds cwd moves_raw _ w Hread)
      as (w1 & updates & H1).
    destruct (compute_updates_does cwd _ _ _ _ _ H1)
      as ((evs1 & Hl1 & He1) & Hd1 & _).
    rewrite Hd1 in Hpre.
    destruct (for_each_moved cwd moves_raw _ pre d_pre w1 Hpre) as [w2 H2].
    pose proof H2 as (Hmoved & Hgit2 & Hwr2)%apply_moves_ok.
    rewrite Hpre in Hmoved.
    injection Hmoved as Hd2. rewrite Hd2 in Hmk.
    destruct (move_one_fails cwd _ _ old new d1 w2 Hold Hmk Hmv) as [w3 H3].
    pose proof H3 as (_ & _ & Hmk3 & _ & Hl3)%move_one_fail.
    exists w3. split_and!.
    + unfold run. rewrite bind_unfold. cbn [fst snd].
      rewrite bind_unfold, H1, bind_unfold.
      unfold apply_moves. rewrite Hkeys.
      by rewrite (for_each_stops pre post old _ w1 w2 w3 _ H2 H3).
    + congruence.
    + rewrite Hl3, git_moves_app, Hgit2, Hl1, git_moves_app.
      rewrite (git_moves_none evs1), app_nil_r.
      * cbn [git_moves omap]. by rewrite <- app_assoc.
      * eapply Forall_impl; [exact He1|]. by intros ev [_ ?].
    + rewrite Hl3, writes_app, Hwr2, Hl1, writes_app.
      rewrite (writes_none evs1); [by rewrite !app_nil_r|].
      eapply Forall_impl; [exact He1|]. by intros ev [? _].
  - intros w' old new Hrun.
    apply run_move_error_inv in Hrun as (w1 & evs1 & Hd1 & Hl1 & He1 & Hrun).
    apply apply_moves_fail in Hrun
      as (pre & post & d_pre & Hks & Hold & Hmoved & Hmk & Hmv & Hgit & _).
    exists pre, post, d_pre. split_and!; try done.
    + by rewrite <- Hd1.
    + rewrite Hgit, Hl1, git_moves_app, (git_moves_none evs1), app_nil_r;
        [done|].
      eapply Forall_impl; [exact He1|]. by intros ev [_ ?].
Qed.

Lemma run_stops_at_failed_move_witness :
  let w := World disk_abc [] in
  let r := run "/" "/repo/src" moves_abc w in
  let moves := normalize_moves moves_abc in
  let repo_root := PosixPath.dirname "/repo/src" in
  let pre := [("/repo/src/a.ts" : str)] in
  let post := [("/repo/src/c.ts" : str)] in
  let old : str := "/repo/src/b.ts" in
  let new : str := "/repo/src/sub/b.ts" in
  let d_pre : gmap str str :=
    <[("/repo/src/sub/a.ts" : str) := import_stmt "c" "./c.js"]>
      (delete ("/repo/src/a.ts" : str) disk_abc) in
  (sorted (map_to_list moves).*1 = pre ++ old :: post
   /\ moves !! old = Some new
   /\ moved moves repo_root pre (disk w) = Some d_pre
   /\ makedirs d_pre (PosixPath.dirname new) = Some d_pre
   /\ git_mv d_pre repo_root old new = None)
  /\ (exists w',
        run "/" "/repo/src" moves_abc w
        = (w', inl (CalledProcessError old new))
        /\ disk w' = d_pre
        /\ git_moves (log w')
           = git_moves (log w) ++ move_pairs moves pre ++ [(old, new)]
        /\ writes (log w') = writes (log w))
  /\ r.2 = inl (CalledProcessError old new)
  /\ exists pre' post' d_pre',
    sorted (map_to_list moves).*1 = pre' ++ old :: post'
    /\ moves !! old = Some new
    /\ moved moves repo_root pre' (disk w) = Some d_pre'
    /\ makedirs d_pre' (PosixPath.dirname new) = Some (disk r.1)
    /\ git_mv (disk r.1) repo_root old new = None
    /\ git_moves (log r.1)
       = git_moves (log w) ++ move_pairs moves pre' ++ [(old, new)].
Proof.
  intros w r moves repo_root pre post old new d_pre.
  assert (sorted (map_to_list moves).*1 = pre ++ old :: post) as Hkeys
    by by_eval.
  assert (moves !! old = Some new) as Hold by by_eval.
  assert (moved moves repo_root pre (disk w) = Some d_pre) as Hpre by by_eval.
  assert (makedirs d_pre (PosixPath.dirname new) = Some d_pre) as Hmk
    by by_eval.
  assert (git_mv d_pre repo_root old new = None) as Hmv by by_eval.
  destruct (run_stops_at_failed_move "/" "/repo/src" moves_abc w)
    as (_ & _ & Hforward & Hback).
  split; [exact (conj Hkeys (conj Hold (conj Hpre (conj Hmk Hmv))))|]. split.
  - apply (Hforward pre post old new d_pre d_pre);
      [exact Hkeys | exact Hold | by_decide | exact Hpre | exact Hmk
      | exact Hmv].
  - split; [by_eval|]. apply (Hback r.1 old new). by_run.
Defined.

(** * What a completed run counts *)

Section Counted.

Context {FS : Type} {os : OS FS}.
Variable cwd : str.

Implicit Types (moves : gmap str str) (updates acc : list (str * (str * str)))
  (files : list str).

Lemma dict_set_nodup {V} (d : list (str * V)) k (v : V) :
  NoDup d.*1 -> NoDup (dict_set d k v).*1.
Proof.
  induction d as [|[k' v'] d IH]; [by intros _; apply NoDup_singleton|].
  cbn [fmap list_fmap dict_set fst]. intros [Hk' Hd]%NoDup_cons.
  destruct (Py.str_eqb k' k) eqn:E.
  - apply str_eqb_true in E as ->. cbn [fmap list_fmap fst].
    by apply NoDup_cons.
  - apply str_eqb_false in E. cbn [fmap list_fmap fst]. apply NoDup_cons.
    split; [|by apply IH].
    intros [-> | ?]%dict_set_keys_sub; done.
Qed.

(** A file has at most one entry in [updates]. *)
Lemma updates_from_nodup moves (d : FS) files acc updates :
  updates_from cwd moves d files acc = Some updates ->
  NoDup acc.*1 -> NoDup updates.*1.
Proof.
  revert acc. induction files as [|f files IH]; intros acc.
  - by intros [= <-].
  - cbn [updates_from]. intros Hu Hacc.
    destruct (read_text d f) as [content|]; [|done].
    cbn [mbind option_bind] in Hu.
    destruct (update_of cwd moves f content)
      as [[[new_abs new_content] changed]|]; [|done].
    cbn [mbind option_bind] in Hu. apply (IH _ Hu).
    destruct changed; [by apply dict_set_nodup | done].
Qed.

(** The files that have an entry in [updates]: the discovered files whose
    content the rewrite changes or whose path changes. *)
Lemma updates_from_counted moves (d : FS) files updates f :
  updates_from cwd moves d files [] = Some updates ->
  f ∈ updates.*1 <->
  f ∈ files
  /\ exists content new_content,
       read_text d f = Some content
       /\ rewrite_imports cwd moves f (new_path_of f moves) content
          = Some new_content
       /\ (new_content <> content \/ f <> new_path_of f moves).
Proof.
  intros Hupd. split.
  - intros Hin. split.
    + destruct (updates_from_keys_sub cwd moves d files [] updates f Hupd Hin)
        as [H0 | H0]; [by apply elem_of_nil in H0 | done].
    + apply list_elem_of_fmap in Hin as ([k u] & Hk & Hin). simpl in Hk.
      subst k.
      pose proof (updates_from_entries cwd _ _ _ _ _ Hupd (Forall_nil_2 _))
        as Hent.
      eapply Forall_forall in Hent as (content & Hread & Hu); [|exact Hin].
      simpl in Hread, Hu. unfold update_of in Hu.
      destruct (rewrite_imports cwd moves f (new_path_of f moves) content)
        as [nc|] eqn:Hrw; [|done].
      cbn [mbind option_bind] in Hu. injection Hu as _ _ Hch.
      exists content, nc. split_and!; [done | done |].
      apply orb_true_iff in Hch as [H | H]; apply bool_decide_eq_true in H;
        [by left | by right].
  - intros (Hin & content & nc & Hread & Hrw & Hch).
    destruct (updates_from_keys cwd _ _ _ _ _ Hupd) as [_ Hrec].
    apply (Hrec f content (new_path_of f moves, nc) Hin Hread).
    unfold update_of. rewrite Hrw. cbn [mbind option_bind].
    do 2 f_equal. apply orb_true_iff.
    destruct Hch; [left | right]; by apply bool_decide_eq_true.
Qed.

End Counted.

(** C8 (as amended).  Summary counts: a run that completes ends with the
    summary line, whose first count is the number of [git mv] commands run,
    one for each entry of the move mapping, and whose second count is the
    number of files written in step 3, one for each entry of [updates];
    the files that have an entry are exactly the discovered files whose
    content changed or whose path changed, each with one entry, so a moved
    file is counted also when its import text is unchanged.  A run that
    aborts prints no summary line. *)
Theorem summary_line_counts {FS : Type} {os : OS FS}
    (cwd BASE : str) (moves_raw : list (str * str)) (w w' : world FS)
    (r : error + unit) :
  run cwd BASE moves_raw w = (w', r) ->
  let moves := normalize_moves moves_raw in
  let files := collect_files BASE (disk w) in
  (r = inr tt ->
   exists updates evs,
     updates_from cwd moves (disk w) files [] = Some updates
     /\ log w' = log w ++ evs
                 ++ [EvPrint (summary_line (length (git_moves evs))
                                           (length (writes evs)))]
     /\ git_moves evs = move_pairs moves (sorted (map_to_list moves).*1)
     /\ length (git_moves evs) = size moves
     /\ writes evs = updates.*2
     /\ length (writes evs) = length updates.*1
     /\ NoDup updates.*1
     /\ (forall f,
           f ∈ updates.*1 <->
           f ∈ files
           /\ exists content new_content,
                read_text (disk w) f = Some content
                /\ rewrite_imports cwd moves f (new_path_of f moves) content
                   = Some new_content
                /\ (new_content <> content \/ f <> new_path_of f moves))
     /\ Forall (fun pc =>
          exists old_abs content,
            old_abs ∈ files
            /\ read_text (disk w) old_abs = Some content
            /\ update_of cwd moves old_abs content = Some (pc.1, pc.2, true))
          (writes evs))
  /\ (forall e, r = inl e ->
        exists evs, log w' = log w ++ evs
                    /\ forall n m, EvPrint (summary_line n m) ∉ evs).
Proof.
  intros Hrun moves files. split.
  - intros ->.
    destruct (run_ok_inv cwd BASE _ _ _ Hrun)
      as (updates & evs & Hupd & _ & Hlog & Hgit & Hwr).
    fold moves files in Hupd, Hlog, Hgit.
    exists updates, evs.
    rewrite Hgit, Hwr, length_sorted_keys, !length_fmap.
    split_and!; try done.
    + by apply (updates_from_nodup cwd _ _ _ _ _ Hupd), NoDup_nil.
    + intros f. by apply updates_from_counted.
    + pose proof (updates_from_entries cwd _ _ _ _ _ Hupd (Forall_nil_2 _))
        as Hent.
      apply Forall_fmap. apply Forall_forall. intros [old_abs [p c]] Hin.
      eapply Forall_forall in Hent as (content & Hread & Hu); [|exact Hin].
      exists old_abs, content. split_and!; [|done|done].
      destruct (updates_from_keys_sub cwd _ _ _ _ _ old_abs Hupd) as [H|H];
        try done.
      * apply list_elem_of_fmap. by exists (old_abs, (p, c)).
      * by apply elem_of_nil in H.
  - intros e ->.
    destruct (run_abort_progress cwd BASE moves_raw w w' e Hrun)
      as (_ & evs & Hlog & Hevs).
    exists evs. split; [done|].
    intros n m Hin. eapply Forall_forall in Hevs; [|exact Hin].
    by apply summary_not_progress in Hevs.
Qed.

Lemma summary_line_counts_witness :
  let moves_raw := [("/repo/src/a.ts" : str, "/repo/src/sub/a.ts" : str)] in
  let moves := normalize_moves moves_raw in
  let w := World disk_ab [] in
  let files := collect_files "/repo/src" (disk w) in
  let r := run "/" "/repo/src" moves_raw w in
  let r' := run "/" "/repo/src" moves_abc (World disk_abc []) in
  r.2 = inr tt
  /\ (exists updates evs,
        updates_from "/" moves (disk w) files [] = Some updates
        /\ log r.1 = log w ++ evs
                     ++ [EvPrint (summary_line (length (git_moves evs))
                                               (length (writes evs)))]
        /\ git_moves evs = move_pairs moves (sorted (map_to_list moves).*1)
        /\ length (git_moves evs) = size moves
        /\ writes evs = updates.*2
        /\ length (writes evs) = length updates.*1
        /\ NoDup updates.*1
        /\ (forall f,
              f ∈ updates.*1 <->
              f ∈ files
              /\ exists content new_content,
                   read_text (disk w) f = Some content
                   /\ rewrite_imports "/" moves f (new_path_of f moves) content
                      = Some new_content
                   /\ (new_content <> content \/ f <> new_path_of f moves))
        /\ Forall (fun pc =>
             exists old_abs content,
               old_abs ∈ files
               /\ read_text (disk w) old_abs = Some content
               /\ update_of "/" moves old_abs content
                  = Some (pc.1, pc.2, true))
             (writes evs))
  /\ r'.2 = inl (CalledProcessError "/repo/src/b.ts" "/repo/src/sub/b.ts")
  /\ (exists evs, log r'.1 = evs
                  /\ forall n m, EvPrint (summary_line n m) ∉ evs).
Proof.
  intros moves_raw moves w files r r'.
  split; [by_eval|]. split.
  - refine (proj1 (summary_line_counts "/" "/repo/src" moves_raw w r.1
                     (inr tt) _) eq_refl).
    by_run.
  - split; [by_eval|].
    refine (proj2 (summary_line_counts "/" "/repo/src" moves_abc
                     (World disk_abc []) r'.1 r'.2 _) _ _).
    + apply surjective_pairing.
    + by_eval.
Defined.

(** C8, counterexample.  A file without imports is moved: its content is
    written unchanged, no import text is updated anywhere, and the summary
    reports imports updated in one file. *)
Lemma summary_counts_counterexample :
  let w := World disk_plain [] in
  let r := run "/" "/repo/src"
             [("/repo/src/a.ts" : str, "/repo/src/sub/a.ts" : str)] w in
  r.2 = inr tt
  /\ last (log r.1) = Some (EvPrint (summary_line 1 1))
  /\ summary_line 1 1
     = [Py.nl] ++ "Moved 1 files, updated imports in 1 files."
  /\ map_to_list (disk w)
     = [("/repo/src/a.ts" : str, "export const a = 1;" : str)]
  /\ rewrite_imports "/"
       (normalize_moves [("/repo/src/a.ts" : str, "/repo/src/sub/a.ts" : str)])
       "/repo/src/a.ts" "/repo/src/sub/a.ts" "export const a = 1;"
     = Some ("export const a = 1;" : str)
  /\ writes (log r.1)
     = [("/repo/src/sub/a.ts" : str, "export const a = 1;" : str)].
Proof. split_and!; by_eval. Qed.


(** C6.  Moving does not alter content without matching imports: when the
    content of a file holds no match of the import pattern, the rewrite
    returns the content as it is, also when the new path differs from the
    old one, and an entry is recorded for the file only if it moves.  In
    a run that completes, [updates] is what step 1 computes from the
    initial file system and step 3 writes its entries to the file system
    that the moves leave: a discovered file without imports that moves is
    written once, at its new path, with its original content, and one that
    does not move is not written. *)
Theorem content_without_imports_unchanged {FS : Type} {os : OS FS}
    (cwd BASE : str) (moves_raw : list (str * str)) (old_abs content : str) :
  find_imports content = [] ->
  let moves := normalize_moves moves_raw in
  let new_abs := new_path_of old_abs moves in
  rewrite_imports cwd moves old_abs new_abs content = Some content
  /\ update_of cwd moves old_abs content
     = Some (new_abs, content, bool_decide (old_abs <> new_abs))
  /\ forall w w',
       run cwd BASE moves_raw w = (w', inr tt) ->
       read_text (disk w) old_abs = Some content ->
       exists updates d2 evs,
         updates_from cwd moves (disk w) (collect_files BASE (disk w)) []
         = Some updates
         /\ moved moves (PosixPath.dirname BASE)
              (sorted (map_to_list moves).*1) (disk w) = Some d2
         /\ flushed updates d2 = Some (disk w')
         /\ log w' = log w ++ evs
                     ++ [EvPrint (summary_line (size moves) (length updates))]
         /\ writes evs = updates.*2
         /\ NoDup updates.*1
         /\ (forall p c, (old_abs, (p, c)) ∈ updates ->
                         p = new_abs /\ c = content /\ old_abs <> new_abs)
         /\ (old_abs ∈ collect_files BASE (disk w) -> old_abs <> new_abs ->
             (old_abs, (new_abs, content)) ∈ updates
             /\ (new_abs, content) ∈ writes evs)
         /\ (old_abs = new_abs -> old_abs ∉ updates.*1).
Proof.
  intros Hnone moves new_abs.
  pose proof (rewrite_imports_no_match cwd moves old_abs new_abs content Hnone)
    as Hrw.
  assert (update_of cwd moves old_abs content
          = Some (new_abs, content, bool_decide (old_abs <> new_abs))) as Hup.
  { unfold update_of. fold new_abs. rewrite Hrw. cbn [mbind option_bind].
    by rewrite (bool_decide_eq_false_2 (content <> content)) by auto. }
  split_and!; [done | done |].
  intros w w' Hrun Hread.
  destruct (run_ok_disks cwd BASE _ _ _ Hrun)
    as (updates & d2 & Hupd & Hmv & Hfl).
  destruct (run_ok_inv cwd BASE _ _ _ Hrun)
    as (updates' & evs & Hupd' & _ & Hlog & _ & Hwr).
  fold moves in Hupd, Hupd', Hmv, Hlog.
  rewrite Hupd in Hupd'. injection Hupd' as <-.
  assert (forall p c, (old_abs, (p, c)) ∈ updates ->
            p = new_abs /\ c = content /\ old_abs <> new_abs) as Hentry.
  { intros p c Hin.
    pose proof (entry_of_file cwd _ _ _ _ _ _ _ Hupd Hread Hin) as Hu.
    rewrite Hup in Hu. injection Hu as <- <- Hdec.
    split_and!; [done | done |]. by apply bool_decide_eq_true in Hdec. }
  exists updates, d2, evs. split_and!; try done.
  - by apply (updates_from_nodup cwd _ _ _ _ _ Hupd), NoDup_nil.
  - intros Hfile Hne.
    destruct (updates_from_keys cwd _ _ _ _ _ Hupd) as [_ Hrec].
    assert (old_abs ∈ updates.*1) as Hin.
    { apply (Hrec old_abs content (new_abs, content) Hfile Hread).
      rewrite Hup. by rewrite (bool_decide_eq_true_2 (old_abs <> new_abs)). }
    apply list_elem_of_fmap in Hin as ([k [p c]] & Hk & Hin).
    simpl in Hk. subst k.
    destruct (Hentry p c Hin) as (-> & -> & _). split; [done|].
    rewrite Hwr. apply list_elem_of_fmap.
    by exists (old_abs, (new_abs, content)).
  - intros Heq ([k [p c]] & Hk & Hin)%list_elem_of_fmap.
    simpl in Hk. subst k. by destruct (Hentry p c Hin) as (_ & _ & ?).
Qed.

Lemma content_without_imports_unchanged_witness :
  let moves_raw := [("/repo/src/a.ts" : str, "/repo/src/sub/a.ts" : str)] in
  let content : str := "export const a = 1;" in
  let old_abs : str := "/repo/src/a.ts" in
  let moves := normalize_moves moves_raw in
  let new_abs := new_path_of old_abs moves in
  let w := World disk_plain [] in
  let r := run "/" "/repo/src" moves_raw w in
  find_imports content = []
  /\ new_abs = "/repo/src/sub/a.ts"
  /\ rewrite_imports "/" moves old_abs new_abs content = Some content
  /\ update_of "/" moves old_abs content
     = Some (new_abs, content, bool_decide (old_abs <> new_abs))
  /\ exists updates d2 evs,
       updates_from "/" moves (disk w) (collect_files "/repo/src" (disk w)) []
       = Some updates
       /\ moved moves (PosixPath.dirname "/repo/src")
            (sorted (map_to_list moves).*1) (disk w) = Some d2
       /\ flushed updates d2 = Some (disk r.1)
       /\ log r.1 = log w ++ evs
                    ++ [EvPrint (summary_line (size moves) (length updates))]
       /\ writes evs = updates.*2
       /\ NoDup updates.*1
       /\ (forall p c, (old_abs, (p, c)) ∈ updates ->
                       p = new_abs /\ c = content /\ old_abs <> new_abs)
       /\ (old_abs ∈ collect_files "/repo/src" (disk w) ->
           old_abs <> new_abs ->
           (old_abs, (new_abs, content)) ∈ updates
           /\ (new_abs, content) ∈ writes evs)
       /\ (old_abs = new_abs -> old_abs ∉ updates.*1).
Proof.
  intros moves_raw content old_abs moves new_abs w r.
  assert (find_imports content = []) as Hnone by by_eval.
  destruct (content_without_imports_unchanged (FS := gmap str str)
              "/" "/repo/src" moves_raw old_abs content Hnone)
    as (H1 & H2 & H3).
  split_and!; [done | by_eval | exact H1 | exact H2 |].
  apply (H3 w r.1); [by_run | by_eval].
Defined.
